(** * Bos-Coster multi-scalar multiplication over a scalar max-heap

    A shallow embedding of [src/ecmult_multi_impl.h] (libsecp256k1, the
    experimental [ecmult_multi] module) and the properties of its heap and of
    its driver.

    Conventions of the embedding.
    - [size_t] values (sizes, tree positions) are [nat]; every place where the
      C code could wrap ([--heap->size] at zero) or leave an array is written
      out as a [Fault].
    - [unsigned char] indices are [nat] below 256; the single narrowing
      conversion of the source ([heap->tree[size++] = i]) is written [i mod 256].
    - [secp256k1_scalar] values are unsigned integers, [N]; they are compared
      as integers, never modulo the group order.
    - [heap->scalars] is a borrowed pointer to the driver's scalar array, which
      the driver mutates while the heap exists.  Every heap operation therefore
      takes the scalar array as it is at the time of the call.
    - Loops carry a fuel argument.  The heap operations supply the exact
      iteration bound themselves; the driver takes its fuel as an argument,
      and the theorems give the fuel that is always enough. *)

From stdpp Require Import base numbers option list.
From Stdlib Require Import ZArith NArith Lia ZifyNat Sorted.

Open Scope nat_scope.

(** ** Outcomes of running C code *)

Inductive fault : Type :=
  | OutOfRange    (* an array is read or written outside its bounds *)
  | Underflow     (* the non-modular subtraction is called with a < b *)
  | CheckFailed.  (* a VERIFY_CHECK does not hold *)

Inductive outcome (A : Type) : Type :=
  | Ret (a : A)
  | Fault (f : fault)
  | Timeout.

Arguments Ret {A} a.
Arguments Fault {A} f.
Arguments Timeout {A}.

Global Instance outcome_ret : MRet outcome := λ A, @Ret A.
Global Instance outcome_bind : MBind outcome := λ A B f m,
  match m with
  | Ret a => f a
  | Fault e => Fault e
  | Timeout => Timeout
  end.

(** [a[i]] as an rvalue and [a[i] = x] on a C array of known length. *)
Definition rd {A} (a : list A) (i : nat) : outcome A :=
  match a !! i with
  | Some x => Ret x
  | None => Fault OutOfRange
  end.

Definition wr {A} (a : list A) (i : nat) (x : A) : outcome (list A) :=
  if decide (i < length a) then Ret (<[i:=x]> a) else Fault OutOfRange.

(** ** Collaborators that are not part of the source file *)

(** Modelled from the spec: the constant [SECP256K1_ECMULT_MULTI_MAX_N] is
    defined in [ecmult_multi.h], which is absent; the spec gives 256, the number
    of positions a one-byte index can address. *)
Definition SECP256K1_ECMULT_MULTI_MAX_N : nat := 256.

(** Modelled from the spec: [secp256k1_scalar_cmp_var] is absent from the
    source; [scalarCompare(a, b) -> {less, equal, greater}] orders the integer
    representations.  The C convention returns a negative, zero or positive
    [int]. *)
Definition secp256k1_scalar_cmp_var (a b : N) : Z :=
  match (a ?= b)%N with
  | Lt => (-1)%Z
  | Eq => 0%Z
  | Gt => 1%Z
  end.

(** Modelled from the spec: [secp256k1_scalar_is_zero] is absent;
    [scalarIsZero(a) -> bool]. *)
Definition secp256k1_scalar_is_zero (a : N) : bool := (a =? 0)%N.

(** Modelled from the spec: [secp256k1_scalar_numsub] is absent;
    [scalarSubtractNonModular(a, b) -> a-b], valid only when [a >= b].  A call
    outside that precondition is reported as [Fault Underflow]. *)
Definition secp256k1_scalar_numsub (a b : N) : outcome N :=
  if (b <=? a)%N then Ret (a - b)%N else Fault Underflow.

(** Modelled from the spec: [secp256k1_scalar_shr_int] is absent;
    [scalarShiftRightExtractBit(a) -> (a >> 1, bit)], here for a shift by [n]
    bits as in the C signature: the shifted scalar and the bits removed. *)
Definition secp256k1_scalar_shr_int (a : N) (n : N) : N * N :=
  (N.shiftr a n, N.land a (N.ones n)).

(** The group arithmetic is a collaborator too: the interface the source
    uses of [secp256k1_gej].  [secp256k1_gej_infinity] is the value that
    [secp256k1_gej_set_infinity] stores; [secp256k1_gej_add_var a b] and
    [secp256k1_gej_double_var a] are the values the C functions store in
    their result argument. *)
Class Gej (gej : Type) : Type := {
  secp256k1_gej_infinity : gej;
  secp256k1_gej_add_var : gej → gej → gej;
  secp256k1_gej_double_var : gej → gej;
  secp256k1_gej_is_infinity : gej → bool
}.

Global Instance gej_inhabited `{Gej gej} : Inhabited gej :=
  populate secp256k1_gej_infinity.

(** ** The scalar heap (lines 9-136) *)

Record secp256k1_scalar_heap : Type := mk_heap {
  tree : list nat;   (* unsigned char tree[SECP256K1_ECMULT_MULTI_MAX_N] *)
  size : nat         (* size_t size *)
}.

(** The larger child of [node], as both loops of the source select it (lines
    22-33 and 77-88): the left child, unless a right child exists and its
    scalar compares strictly greater. *)
Definition larger_child (sc : list N) (size : nat) (tree : list nat) (node : nat)
  : outcome (nat * nat) :=
  let child := 2 * node + 1 in                          (* (node << 1) + 1 *)
  child_index ← rd tree child;
  let other := child + 1 in
  if decide (other < size) then
    other_index ← rd tree other;
    so ← rd sc other_index;
    sl ← rd sc child_index;
    if (0 <? secp256k1_scalar_cmp_var so sl)%Z
    then Ret (other, other_index)
    else Ret (child, child_index)
  else Ret (child, child_index).

(** Lines 20-45. *)
Fixpoint sift_down_loop (fuel : nat) (sc : list N) (size : nat)
    (tree : list nat) (node index : nat) : outcome (list nat) :=
  if decide (node < size / 2) then                      (* half_size = size >> 1 *)
    match fuel with
    | 0 => Timeout
    | S fuel =>
        '(child, child_index) ← larger_child sc size tree node;
        si ← rd sc index;
        sl ← rd sc child_index;
        if (0 <? secp256k1_scalar_cmp_var si sl)%Z
        then wr tree node index                         (* break; tree[node] = index *)
        else
          tree ← wr tree node child_index;
          sift_down_loop fuel sc size tree child index
    end
  else wr tree node index.

Definition secp256k1_sift_down (sc : list N) (heap : secp256k1_scalar_heap)
    (node index : nat) : outcome secp256k1_scalar_heap :=
  t ← sift_down_loop (size heap / 2 - node) sc (size heap) (tree heap) node index;
  Ret (mk_heap t (size heap)).

(** Lines 53-67. *)
Fixpoint sift_up_loop (fuel : nat) (sc : list N) (tree : list nat)
    (node index : nat) : outcome (list nat) :=
  if decide (0 < node) then
    match fuel with
    | 0 => Timeout
    | S fuel =>
        let parent := (node - 1) / 2 in                 (* (node - 1) >> 1 *)
        parent_index ← rd tree parent;
        si ← rd sc index;
        sp ← rd sc parent_index;
        if (secp256k1_scalar_cmp_var si sp <=? 0)%Z
        then wr tree node index                         (* break; tree[node] = index *)
        else
          tree ← wr tree node parent_index;
          sift_up_loop fuel sc tree parent index
    end
  else wr tree node index.

Definition secp256k1_sift_up (sc : list N) (heap : secp256k1_scalar_heap)
    (node index : nat) : outcome secp256k1_scalar_heap :=
  t ← sift_up_loop node sc (tree heap) node index;
  Ret (mk_heap t (size heap)).

(** Lines 75-93: the descent of sift-floyd; it returns the tree and the
    position it stopped at. *)
Fixpoint sift_floyd_loop (fuel : nat) (sc : list N) (size : nat)
    (tree : list nat) (node : nat) : outcome (list nat * nat) :=
  if decide (node < size / 2) then
    match fuel with
    | 0 => Timeout
    | S fuel =>
        '(child, child_index) ← larger_child sc size tree node;
        tree ← wr tree node child_index;
        sift_floyd_loop fuel sc size tree child
    end
  else Ret (tree, node).

Definition secp256k1_sift_floyd (sc : list N) (heap : secp256k1_scalar_heap)
    (node index : nat) : outcome secp256k1_scalar_heap :=
  '(t, leaf) ← sift_floyd_loop (size heap / 2 - node) sc (size heap) (tree heap) node;
  secp256k1_sift_up sc (mk_heap t (size heap)) leaf index.

(** Lines 99-102: [while (root-- > 0) sift_down(heap, root, heap->tree[root])]. *)
Fixpoint heapify_loop (sc : list N) (root : nat) (heap : secp256k1_scalar_heap)
  : outcome secp256k1_scalar_heap :=
  match root with
  | 0 => Ret heap
  | S root =>
      index ← rd (tree heap) root;
      heap ← secp256k1_sift_down sc heap root index;
      heapify_loop sc root heap
  end.

Definition secp256k1_heapify (sc : list N) (heap : secp256k1_scalar_heap)
  : outcome secp256k1_scalar_heap :=
  heapify_loop sc (size heap / 2) heap.

Section Initialize.
Context `{Gej gej}.

(** Lines 110-114, for the [k] positions from [i] on. *)
Fixpoint heap_initialize_loop (k i : nat) (scalars : list N) (pt : list gej)
    (tree : list nat) (size : nat) : outcome (list nat * nat) :=
  match k with
  | 0 => Ret (tree, size)
  | S k =>
      s ← rd scalars i;
      if secp256k1_scalar_is_zero s
      then heap_initialize_loop k (S i) scalars pt tree size
      else
        p ← rd pt i;
        if secp256k1_gej_is_infinity p
        then heap_initialize_loop k (S i) scalars pt tree size
        else
          tree ← wr tree size (i mod 256);            (* tree[size++] = i *)
          heap_initialize_loop k (S i) scalars pt tree (S size)
  end.

(** Lines 105-120.  [heap] is the caller's uninitialised struct. *)
Definition secp256k1_heap_initialize (heap : secp256k1_scalar_heap)
    (scalars : list N) (pt : list gej) (n : nat) : outcome secp256k1_scalar_heap :=
  if decide (n ≤ SECP256K1_ECMULT_MULTI_MAX_N) then
    '(t, sz) ← heap_initialize_loop n 0 scalars pt (tree heap) 0;
    secp256k1_heapify scalars (mk_heap t sz)
  else Fault CheckFailed.
End Initialize.

(** Lines 122-127. *)
Definition secp256k1_replace (sc : list N) (heap : secp256k1_scalar_heap)
    (index : nat) : outcome (nat * secp256k1_scalar_heap) :=
  result ← rd (tree heap) 0;
  if decide (0 < size heap) then
    heap ← secp256k1_sift_floyd sc heap 0 index;
    Ret (result, heap)
  else Fault CheckFailed.

(** Lines 129-136.  At [size = 0] the decrement would wrap; the
    [VERIFY_CHECK] excludes it. *)
Definition secp256k1_heap_remove (sc : list N) (heap : secp256k1_scalar_heap)
  : outcome (nat * secp256k1_scalar_heap) :=
  result ← rd (tree heap) 0;
  if decide (0 < size heap) then
    let heap := mk_heap (tree heap) (size heap - 1) in  (* --heap->size *)
    if decide (0 < size heap) then
      index ← rd (tree heap) (size heap);
      heap ← secp256k1_sift_down sc heap 0 index;
      Ret (result, heap)
    else Ret (result, heap)
  else Fault CheckFailed.

(** * Vocabulary of the properties *)

(** ** The heap invariant *)

(** The indices the heap holds: [tree[0..size)]. *)
Definition heap_elements (h : secp256k1_scalar_heap) : list nat :=
  take (size h) (tree h).

(** The scalar a tree position refers to, [sc[tree[i]]]. *)
Definition key (sc : list N) (t : list nat) (i : nat) : N :=
  default 0%N (t !! i ≫= λ a, sc !! a).

(** Validity of the data: the size fits the array and every stored index
    addresses the scalar array. *)
Definition heap_wf (sc : list N) (h : secp256k1_scalar_heap) : Prop :=
  size h ≤ length (tree h) ∧ Forall (λ a, a < length sc) (heap_elements h).

(** Every edge of the implicit binary tree whose parent position is at least
    [lo] is ordered. *)
Definition ordered_from (sc : list N) (sz : nat) (t : list nat) (lo : nat) : Prop :=
  ∀ i, 0 < i < sz → lo ≤ (i - 1) / 2 → (key sc t i ≤ key sc t ((i - 1) / 2))%N.

(** The heap invariant: for every non-root node,
    [scalar[tree[parent]] >= scalar[tree[node]]] as unsigned integers. *)
Definition heap_invariant (sc : list N) (h : secp256k1_scalar_heap) : Prop :=
  ∀ node, 0 < node < size h →
    (key sc (tree h) node ≤ key sc (tree h) ((node - 1) / 2))%N.

(** A tree with a vacant position [node] into which a candidate of scalar [x]
    is being sifted down: every edge that does not touch [node] is ordered, and
    the parent of [node] dominates both the candidate and the children of
    [node]. *)
Definition hole_inv (sc : list N) (sz : nat) (t : list nat) (lo node : nat) (x : N)
  : Prop :=
  (∀ i, 0 < i < sz → lo ≤ (i - 1) / 2 → (i - 1) / 2 ≠ node → i ≠ node →
     (key sc t i ≤ key sc t ((i - 1) / 2))%N) ∧
  (0 < node → lo ≤ (node - 1) / 2 →
     (x ≤ key sc t ((node - 1) / 2))%N ∧
     ∀ j, 0 < j < sz → (j - 1) / 2 = node →
       (key sc t j ≤ key sc t ((node - 1) / 2))%N).

(** A tree with a vacant position [node] into which a candidate of scalar [x]
    is being sifted up: every edge that does not touch [node] is ordered, and
    the children of [node] are dominated by the candidate and by the parent
    of [node]. *)
Definition hole_up_inv (sc : list N) (sz : nat) (t : list nat) (node : nat) (x : N)
  : Prop :=
  (∀ i, 0 < i < sz → (i - 1) / 2 ≠ node → i ≠ node →
     (key sc t i ≤ key sc t ((i - 1) / 2))%N) ∧
  (∀ j, 0 < j < sz → (j - 1) / 2 = node →
     (key sc t j ≤ x)%N ∧ (0 < node → (key sc t j ≤ key sc t ((node - 1) / 2))%N)).

(** Sift-down as the specification words it: the candidate is placed as soon
    as it is not smaller than the larger child.  It differs from
    [sift_down_loop] in the comparison only. *)
Fixpoint sift_down_loop_as_specified (fuel : nat) (sc : list N) (size : nat)
    (tree : list nat) (node index : nat) : outcome (list nat) :=
  if decide (node < size / 2) then
    match fuel with
    | 0 => Timeout
    | S fuel =>
        '(child, child_index) ← larger_child sc size tree node;
        si ← rd sc index;
        sl ← rd sc child_index;
        if (0 <=? secp256k1_scalar_cmp_var si sl)%Z
        then wr tree node index
        else
          tree ← wr tree node child_index;
          sift_down_loop_as_specified fuel sc size tree child index
    end
  else wr tree node index.

Definition sift_down_as_specified (sc : list N) (heap : secp256k1_scalar_heap)
    (node index : nat) : outcome secp256k1_scalar_heap :=
  t ← sift_down_loop_as_specified (size heap / 2 - node) sc (size heap) (tree heap) node index;
  Ret (mk_heap t (size heap)).

(** ** Successive removals *)

(** [k] calls of [secp256k1_heap_remove] in a row, with the indices they
    return in the order returned. *)
Fixpoint remove_many (k : nat) (sc : list N) (heap : secp256k1_scalar_heap)
  : outcome (list nat * secp256k1_scalar_heap) :=
  match k with
  | 0 => Ret ([], heap)
  | S k =>
      '(root, heap) ← secp256k1_heap_remove sc heap;
      '(rest, heap) ← remove_many k sc heap;
      Ret (root :: rest, heap)
  end.

(** ** Memory the heap does not use *)

(** Two outcomes of the same kind, the returned values related by [R]. *)
Definition outcome_rel {A B} (R : A → B → Prop) (o : outcome A) (o' : outcome B)
  : Prop :=
  match o, o' with
  | Ret a, Ret b => R a b
  | Fault f, Fault g => f = g
  | Timeout, Timeout => True
  | _, _ => False
  end.

(** Two arrays of the same length that agree on their first [sz] positions. *)
Definition trees_agree (sz : nat) (t u : list nat) : Prop :=
  length t = length u ∧ sz ≤ length t ∧ take sz t = take sz u.

(** Two heaps that differ at most in [tree[size..)]. *)
Definition heaps_agree (h g : secp256k1_scalar_heap) : Prop :=
  size h = size g ∧ trees_agree (size h) (tree h) (tree g).

(** * The driver (lines 138-187) *)

Section Driver.
Context `{Gej gej}.

(** The memory the driver works on: the caller's two arrays, the local heap,
    the index in hand and the output point. *)
Record driver_state : Type := mk_state {
  d_sc : list N;                     (* secp256k1_scalar *sc *)
  d_pt : list gej;                   (* secp256k1_gej *pt *)
  d_heap : secp256k1_scalar_heap;    (* heap; heap.scalars aliases sc *)
  d_first : nat;                     (* unsigned char first *)
  d_r : gej                          (* secp256k1_gej *r *)
}.

(** Control points of the function body. *)
Inductive control : Type :=
  | AtWhile (s : driver_state)               (* line 152, before the test *)
  | AtDo (s : driver_state) (second : nat)   (* line 160, entering the do-body *)
  | AtLadder (s : driver_state)              (* line 179, entering the for-body *)
  | Returned (r : gej).

(** Lines 160-169: one pass through the do-body, the test of line 163 and,
    when the inner loop is left, the re-insertion of lines 165-169. *)
Definition reduce (s : driver_state) (second : nat) : outcome control :=
  let first := d_first s in
  pf ← rd (d_pt s) first;
  ps ← rd (d_pt s) second;
  pt ← wr (d_pt s) second (secp256k1_gej_add_var pf ps);       (* Y -> X + Y *)
  sf ← rd (d_sc s) first;
  ss ← rd (d_sc s) second;
  d ← secp256k1_scalar_numsub sf ss;
  sc ← wr (d_sc s) first d;                                    (* n -> n - m *)
  sf ← rd sc first;
  ss ← rd sc second;
  if (0 <=? secp256k1_scalar_cmp_var sf ss)%Z
  then Ret (AtDo (mk_state sc pt (d_heap s) first (d_r s)) second)
  else
    sf ← rd sc first;
    if secp256k1_scalar_is_zero sf then
      '(first, heap) ← secp256k1_heap_remove sc (d_heap s);
      Ret (AtWhile (mk_state sc pt heap first (d_r s)))
    else
      '(first, heap) ← secp256k1_replace sc (d_heap s) first;
      Ret (AtWhile (mk_state sc pt heap first (d_r s))).

(** Lines 179-185: one pass through the body of the finishing ladder. *)
Definition ladder (s : driver_state) : outcome control :=
  let first := d_first s in
  sf ← rd (d_sc s) first;
  let '(shifted, bit) := secp256k1_scalar_shr_int sf 1 in
  sc ← wr (d_sc s) first shifted;
  let double r :=                                                (* line 185 *)
    p ← rd (d_pt s) first;
    pt ← wr (d_pt s) first (secp256k1_gej_double_var p);
    Ret (AtLadder (mk_state sc pt (d_heap s) first r)) in
  if (bit =? 1)%N then
    p ← rd (d_pt s) first;
    let r := secp256k1_gej_add_var (d_r s) p in                  (* line 180 *)
    sf ← rd sc first;
    if secp256k1_scalar_is_zero sf then Ret (Returned r) else double r
  else double (d_r s).

Definition step (c : control) : outcome control :=
  match c with
  | AtWhile s =>
      if decide (0 < size (d_heap s)) then
        second ← rd (tree (d_heap s)) 0;                       (* line 153 *)
        Ret (AtDo s second)
      else
        sf ← rd (d_sc s) (d_first s);                          (* line 172 *)
        if secp256k1_scalar_is_zero sf then Fault CheckFailed
        else Ret (AtLadder s)
  | AtDo s second => reduce s second
  | AtLadder s => ladder s
  | Returned r => Ret (Returned r)
  end.

Fixpoint run (fuel : nat) (c : control) : outcome gej :=
  match c with
  | Returned r => Ret r
  | _ =>
      match fuel with
      | 0 => Timeout
      | S fuel => c ← step c; run fuel c
      end
  end.

(** Lines 143-150.  [heap0] is the uninitialised local [heap]. *)
Definition enter (heap0 : secp256k1_scalar_heap) (sc : list N) (pt : list gej)
    (n : nat) : outcome control :=
  let r := secp256k1_gej_infinity in
  heap ← secp256k1_heap_initialize heap0 sc pt n;
  if decide (size heap = 0) then Ret (Returned r)
  else
    '(first, heap) ← secp256k1_heap_remove sc heap;
    Ret (AtWhile (mk_state sc pt heap first r)).

(** [secp256k1_ecmult_multi(r, sc, pt, n)]; the result is the final [*r]. *)
Definition secp256k1_ecmult_multi (fuel : nat) (heap0 : secp256k1_scalar_heap)
    (sc : list N) (pt : list gej) (n : nat) : outcome gej :=
  c ← enter heap0 sc pt n;
  run fuel c.

(** The control points an execution passes through. *)
Inductive steps : control → control → Prop :=
  | steps_refl c : steps c c
  | steps_step c1 c2 c3 : steps c1 c2 → step c2 = Ret c3 → steps c1 c3.

Definition reachable (heap0 : secp256k1_scalar_heap) (sc : list N) (pt : list gej)
    (n : nat) (c : control) : Prop :=
  ∃ c0, enter heap0 sc pt n = Ret c0 ∧ steps c0 c.

(** ** The reference the result is compared with *)

(** Right-to-left double-and-add for one term. *)
Fixpoint double_and_add_pos (k : positive) (p : gej) : gej :=
  match k with
  | xH => p
  | xO k => double_and_add_pos k (secp256k1_gej_double_var p)
  | xI k => secp256k1_gej_add_var p (double_and_add_pos k (secp256k1_gej_double_var p))
  end.

Definition double_and_add (k : N) (p : gej) : gej :=
  match k with
  | N0 => secp256k1_gej_infinity
  | Npos k => double_and_add_pos k p
  end.

(** The naive multi-multiplication: every term on its own, then the sum. *)
Fixpoint naive_multi (sc : list N) (pt : list gej) : gej :=
  match sc, pt with
  | k :: sc, p :: pt => secp256k1_gej_add_var (double_and_add k p) (naive_multi sc pt)
  | _, _ => secp256k1_gej_infinity
  end.

(** A term is active iff its scalar is non-zero and its point is not the
    point at infinity. *)
Definition is_active (scalars : list N) (pt : list gej) (i : nat) : bool :=
  match scalars !! i, pt !! i with
  | Some s, Some p => negb (secp256k1_scalar_is_zero s) && negb (secp256k1_gej_is_infinity p)
  | _, _ => false
  end.

Definition active_indices (scalars : list N) (pt : list gej) (n : nat) : list nat :=
  filter (λ i, Is_true (is_active scalars pt i)) (seq 0 n).

(** ** Vocabulary of the driver's properties *)

(** What the collaborator guarantees: the points form a commutative monoid
    under addition with the point at infinity as neutral element, doubling is
    adding a point to itself, and a point that tests as infinity is the
    neutral element. *)
Definition gej_laws : Prop :=
  (∀ a b c, secp256k1_gej_add_var a (secp256k1_gej_add_var b c)
            = secp256k1_gej_add_var (secp256k1_gej_add_var a b) c) ∧
  (∀ a b, secp256k1_gej_add_var a b = secp256k1_gej_add_var b a) ∧
  (∀ a, secp256k1_gej_add_var secp256k1_gej_infinity a = a) ∧
  (∀ a, secp256k1_gej_double_var a = secp256k1_gej_add_var a a) ∧
  (∀ a, secp256k1_gej_is_infinity a = true → a = secp256k1_gej_infinity).

(** [k·p], the [k]-fold sum of [p]. *)
Definition smul (k : N) (p : gej) : gej :=
  N.iter k (secp256k1_gej_add_var p) secp256k1_gej_infinity.

(** The sum of the terms [sc[i]·pt[i]] over a list of indices. *)
Definition gsum (sc : list N) (pt : list gej) (l : list nat) : gej :=
  foldr (λ i acc, secp256k1_gej_add_var (smul (sc !!! i) (pt !!! i)) acc)
        secp256k1_gej_infinity l.

(** The indices still carrying a term: the one in hand and those in the heap. *)
Definition live (s : driver_state) : list nat :=
  d_first s :: heap_elements (d_heap s).

(** An index is discarded once it is neither in hand nor in the heap. *)
Definition discarded (s : driver_state) (i : nat) : Prop := i ∉ live s.

Definition state_inv (n : nat) (s : driver_state) : Prop :=
  length (d_sc s) = n ∧ length (d_pt s) = n ∧
  heap_wf (d_sc s) (d_heap s) ∧ heap_invariant (d_sc s) (d_heap s) ∧
  NoDup (live s) ∧ d_first s < n ∧
  Forall (λ i, d_sc s !!! i ≠ 0%N) (heap_elements (d_heap s)).

(** The invariant of the driver at each control point. *)
Definition control_inv (n : nat) (c : control) : Prop :=
  match c with
  | AtWhile s =>
      state_inv n s ∧ d_sc s !!! d_first s ≠ 0%N ∧
      Forall (λ i, (d_sc s !!! i ≤ d_sc s !!! d_first s)%N) (heap_elements (d_heap s))
  | AtDo s second =>
      state_inv n s ∧ 0 < size (d_heap s) ∧ tree (d_heap s) !! 0 = Some second ∧
      (d_sc s !!! second ≤ d_sc s !!! d_first s)%N
  | AtLadder s =>
      length (d_sc s) = n ∧ length (d_pt s) = n ∧ d_first s < n ∧
      size (d_heap s) = 0 ∧ d_sc s !!! d_first s ≠ 0%N
  | Returned _ => True
  end.

Definition control_state (c : control) : option driver_state :=
  match c with
  | AtWhile s | AtDo s _ | AtLadder s => Some s
  | Returned _ => None
  end.

(** The memory after lines 160-161, one pass through the do-body. *)
Definition reduced (s : driver_state) (second : nat) : driver_state :=
  mk_state
    (<[d_first s := (d_sc s !!! d_first s - d_sc s !!! second)%N]> (d_sc s))
    (<[second := secp256k1_gej_add_var (d_pt s !!! d_first s) (d_pt s !!! second)]> (d_pt s))
    (d_heap s) (d_first s) (d_r s).

(** The sum of the scalars of the live indices. *)
Definition scalar_total (s : driver_state) : nat :=
  sum_list_with (λ i, N.to_nat (d_sc s !!! i)) (live s).

(** A bound on the number of steps left. *)
Definition weight (c : control) : nat :=
  match c with
  | AtWhile s => 2 * scalar_total s + 1
  | AtDo s _ => 2 * scalar_total s
  | AtLadder s => N.to_nat (d_sc s !!! d_first s)
  | Returned _ => 0
  end.

(** The point an execution continuing from a control point will return. *)
Definition value (c : control) : gej :=
  match c with
  | AtWhile s | AtDo s _ =>
      secp256k1_gej_add_var (d_r s) (gsum (d_sc s) (d_pt s) (live s))
  | AtLadder s =>
      secp256k1_gej_add_var (d_r s) (smul (d_sc s !!! d_first s) (d_pt s !!! d_first s))
  | Returned r => r
  end.

(** The fuel that is always enough: twice the sum of the scalars, plus one. *)
Definition fuel_bound (sc : list N) : nat := 2 * sum_list_with N.to_nat sc + 1.

(** What one step of the driver establishes: the invariant at the next
    control point, a smaller weight, the same final value, and unchanged
    scalars for the indices that were in the heap. *)
Definition step_ok (n : nat) (c c' : control) : Prop :=
  control_inv n c' ∧
  (is_Some (control_state c) → weight c' < weight c) ∧
  (gej_laws → value c' = value c) ∧
  (∀ s s', control_state c = Some s → control_state c' = Some s' →
     ∀ i, i ∈ heap_elements (d_heap s) → d_sc s' !!! i = d_sc s !!! i).

(** Two driver memories that differ at most in [heap.tree[heap.size..)]. *)
Definition states_agree (s s' : driver_state) : Prop :=
  d_sc s = d_sc s' ∧ d_pt s = d_pt s' ∧ d_first s = d_first s' ∧ d_r s = d_r s' ∧
  heaps_agree (d_heap s) (d_heap s').

Definition controls_agree (c c' : control) : Prop :=
  match c, c' with
  | AtWhile s, AtWhile s' => states_agree s s'
  | AtDo s second, AtDo s' second' => states_agree s s' ∧ second = second'
  | AtLadder s, AtLadder s' => states_agree s s'
  | Returned r, Returned r' => r = r'
  | _, _ => False
  end.

End Driver.

(** ** Concrete data for the examples *)

(** The integers under addition, a model of the group collaborator. *)
Definition Zgej : Gej Z := {|
  secp256k1_gej_infinity := 0%Z;
  secp256k1_gej_add_var := Z.add;
  secp256k1_gej_double_var := λ a, (2 * a)%Z;
  secp256k1_gej_is_infinity := λ a, (a =? 0)%Z
|}.

(** An uninitialised local heap: arbitrary bytes and an arbitrary size. *)
Definition junk_heap : secp256k1_scalar_heap := mk_heap (repeat 170 256) 77.

(** A heap of three indices with scalars 5, 3, 2, and two more scalars, 10
    and 1, whose indices are outside the heap. *)
Definition ex_scalars : list N := [5; 3; 2; 10; 1]%N.
Definition ex_heap : secp256k1_scalar_heap := mk_heap ([0; 1; 2] ++ repeat 0 253) 3.

(** A heap of two indices with scalars 9 and 5, and a third scalar equal to
    the second. *)
Definition tie_scalars : list N := [9; 5; 5]%N.
Definition tie_heap : secp256k1_scalar_heap := mk_heap ([0; 1] ++ repeat 0 254) 2.

(** The example of the specification: scalars 7, 5, 0, 3 and the third point
    the point at infinity. *)
Definition ex4_sc : list N := [7; 5; 0; 3]%N.
Definition ex4_pt : list Z := [1; 10; 0; 100]%Z.

(** Two terms, and the memory of the driver when it enters the loop on them
    and after its first pass through lines 160-169. *)
Definition ex2_sc : list N := [7; 5]%N.
Definition ex2_pt : list Z := [1; 10]%Z.

Definition ex2_entry : @driver_state Z :=
  Eval vm_compute in
    match enter (H:=Zgej) junk_heap ex2_sc ex2_pt 2 with
    | Ret (AtWhile s) => s
    | _ => mk_state [] [] junk_heap 0 0%Z
    end.

Definition ex2_after : @driver_state Z :=
  Eval vm_compute in
    match step (H:=Zgej) (AtDo ex2_entry 1) with
    | Ret (AtWhile s) => s
    | _ => mk_state [] [] junk_heap 0 0%Z
    end.

(** A second uninitialised heap, and a heap that agrees with [ex_heap] on the
    three positions in use. *)
Definition other_junk_heap : secp256k1_scalar_heap := mk_heap (repeat 3 256) 200.
Definition ex_heap_junk : secp256k1_scalar_heap := mk_heap ([0; 1; 2] ++ repeat 9 253) 3.

(** Five indices in no order: their scalars are 2, 3, 5, 1, 10. *)
Definition unordered_heap : secp256k1_scalar_heap :=
  mk_heap ([2; 1; 0; 4; 3] ++ repeat 0 251) 5.

(** The memory of the driver entering the ladder with one term, 6·5 and
    0·5, and 100 accumulated in [r]. *)
Definition ladder_entry : @driver_state Z :=
  mk_state [6]%N [5]%Z (mk_heap (repeat 0 256) 0) 0 100%Z.
Definition ladder_entry_zero : @driver_state Z :=
  mk_state [0]%N [5]%Z (mk_heap (repeat 0 256) 0) 0 100%Z.

(** * Properties of the heap *)

(** ** Reading the embedding *)

Lemma rd_Ret {A} (a : list A) i x : a !! i = Some x → rd a i = Ret x.
Proof. intros H. unfold rd. by rewrite H. Qed.

Lemma wr_Ret {A} (a : list A) i x : i < length a → wr a i x = Ret (<[i:=x]> a).
Proof. intros H. unfold wr. by rewrite decide_True. Qed.

Lemma cmp_gt a b : (0 <? secp256k1_scalar_cmp_var a b)%Z = true ↔ (b < a)%N.
Proof.
  unfold secp256k1_scalar_cmp_var.
  destruct (N.compare_spec a b); rewrite ?Z.ltb_lt, ?Z.ltb_ge; split; intros; lia || done.
Qed.

Lemma cmp_le a b : (secp256k1_scalar_cmp_var a b <=? 0)%Z = true ↔ (a ≤ b)%N.
Proof.
  unfold secp256k1_scalar_cmp_var.
  destruct (N.compare_spec a b); rewrite Z.leb_le; split; intros; lia || done.
Qed.

Lemma cmp_ge a b : (0 <=? secp256k1_scalar_cmp_var a b)%Z = true ↔ (b ≤ a)%N.
Proof.
  unfold secp256k1_scalar_cmp_var.
  destruct (N.compare_spec a b); rewrite Z.leb_le; split; intros; lia || done.
Qed.

Lemma cmp_gt_false a b : (0 <? secp256k1_scalar_cmp_var a b)%Z = false ↔ (a ≤ b)%N.
Proof. rewrite <- not_true_iff_false, cmp_gt. lia. Qed.

Lemma cmp_le_false a b : (secp256k1_scalar_cmp_var a b <=? 0)%Z = false ↔ (b < a)%N.
Proof. rewrite <- not_true_iff_false, cmp_le. lia. Qed.

Lemma cmp_ge_false a b : (0 <=? secp256k1_scalar_cmp_var a b)%Z = false ↔ (a < b)%N.
Proof. rewrite <- not_true_iff_false, cmp_ge. lia. Qed.

Ltac ret_bind := cbn [mbind outcome_bind mret outcome_ret].
Tactic Notation "ret_bind" "in" hyp(H) := cbn [mbind outcome_bind mret outcome_ret] in H.

Lemma heap_invariant_ordered sc h :
  heap_invariant sc h ↔ ordered_from sc (size h) (tree h) 0.
Proof. unfold heap_invariant, ordered_from. split; intros H i ?; [intros _|]; apply H; lia. Qed.

Lemma wf_lookup (sc : list N) sz (t : list nat) i :
  sz ≤ length t → Forall (λ a, a < length sc) (take sz t) → i < sz →
  ∃ a x, t !! i = Some a ∧ sc !! a = Some x ∧ key sc t i = x.
Proof.
  intros Hlen Hall Hi.
  destruct (lookup_lt_is_Some_2 t i) as [a Ha]; [lia|].
  assert (a < length sc) as Hlt.
  { rewrite Forall_lookup in Hall. apply (Hall i). rewrite lookup_take_Some. done. }
  destruct (lookup_lt_is_Some_2 sc a) as [x Hx]; [done|].
  exists a, x. unfold key. rewrite Ha. simpl. by rewrite Hx.
Qed.

Lemma key_insert_eq (sc : list N) (t : list nat) i a x :
  i < length t → sc !! a = Some x → key sc (<[i:=a]> t) i = x.
Proof. intros Hi Ha. unfold key. rewrite list_lookup_insert_eq by done. simpl. by rewrite Ha. Qed.

Lemma key_insert_ne (sc : list N) (t : list nat) i j a :
  i ≠ j → key sc (<[i:=a]> t) j = key sc t j.
Proof. intros Hij. unfold key. by rewrite list_lookup_insert_ne. Qed.

Lemma key_lookup (sc : list N) (t : list nat) i a x :
  t !! i = Some a → sc !! a = Some x → key sc t i = x.
Proof. intros Hi Ha. unfold key. rewrite Hi. simpl. by rewrite Ha. Qed.

Lemma wf_insert (sc : list N) sz (t : list nat) i a :
  a < length sc → Forall (λ a, a < length sc) (take sz t) →
  Forall (λ a, a < length sc) (take sz (<[i:=a]> t)).
Proof.
  intros Ha Hall. rewrite take_insert. case_decide; [|done].
  rewrite Forall_lookup in *. intros j y Hj.
  destruct (decide (i = j)) as [->|Hne].
  - destruct (decide (j < length (take sz t))).
    + rewrite list_lookup_insert_eq in Hj by done. by simplify_eq.
    + rewrite list_insert_ge in Hj by lia. eauto.
  - rewrite list_lookup_insert_ne in Hj by done. eauto.
Qed.

(** ** The larger child *)

Lemma larger_child_spec (sc : list N) sz (t : list nat) node :
  sz ≤ length t → Forall (λ a, a < length sc) (take sz t) → node < sz / 2 →
  ∃ ch ci, larger_child sc sz t node = Ret (ch, ci) ∧
    t !! ch = Some ci ∧ ci < length sc ∧ ch < sz ∧ (ch - 1) / 2 = node ∧ node < ch ∧
    (∀ j, 0 < j < sz → (j - 1) / 2 = node → (key sc t j ≤ key sc t ch)%N) ∧
    ch = (if decide (2 * node + 2 < sz ∧ (key sc t (2 * node + 1) < key sc t (2 * node + 2))%N)
          then 2 * node + 2 else 2 * node + 1).
Proof.
  intros Hlen Hall Hnode. unfold larger_child.
  destruct (wf_lookup sc sz t (2 * node + 1)) as (l & xl & Hl & Hxl & Hkl); [done..|lia|].
  rewrite (rd_Ret _ _ _ Hl). ret_bind.
  assert (l < length sc) by (by eapply lookup_lt_Some).
  assert (∀ j, 0 < j < sz → (j - 1) / 2 = node → j = 2 * node + 1 ∨ j = 2 * node + 2) as Hkids.
  { intros j ? ?. lia. }
  destruct (decide (2 * node + 1 + 1 < sz)) as [Hr|Hr].
  - destruct (wf_lookup sc sz t (2 * node + 1 + 1)) as (r & xr & Hrr & Hxr & Hkr); [done..|].
    rewrite (rd_Ret _ _ _ Hrr). ret_bind.
    rewrite (rd_Ret _ _ _ Hxr), (rd_Ret _ _ _ Hxl). ret_bind.
    assert (r < length sc) by (by eapply lookup_lt_Some).
    replace (2 * node + 2) with (2 * node + 1 + 1) by lia.
    destruct (0 <? secp256k1_scalar_cmp_var xr xl)%Z eqn:Hc.
    + apply cmp_gt in Hc. exists (2 * node + 1 + 1), r.
      rewrite decide_True by (split; [lia|congruence]).
      split_and!; try done; try lia.
      intros j Hj Hp. destruct (Hkids j Hj Hp) as [-> | ->].
      * rewrite Hkl, Hkr. lia.
      * replace (2 * node + 2) with (2 * node + 1 + 1) by lia. lia.
    + apply cmp_gt_false in Hc. exists (2 * node + 1), l.
      rewrite decide_False by (intros [_ ?]; lia).
      split_and!; try done; try lia.
      intros j Hj Hp. destruct (Hkids j Hj Hp) as [-> | ->].
      * lia.
      * replace (2 * node + 2) with (2 * node + 1 + 1) by lia. rewrite Hkl, Hkr. lia.
  - exists (2 * node + 1), l.
    rewrite decide_False by lia.
    split_and!; try done; try lia.
    intros j Hj Hp. destruct (Hkids j Hj Hp) as [-> | ->]; lia.
Qed.

(** ** Sift-down *)

Lemma place_ordered (sc : list N) sz (t : list nat) lo node index x :
  node < length t → sc !! index = Some x →
  hole_inv sc sz t lo node x →
  (∀ j, 0 < j < sz → (j - 1) / 2 = node → (key sc t j ≤ x)%N) →
  ordered_from sc sz (<[node:=index]> t) lo.
Proof.
  intros Hnode Hx [Hedges Hup] Hkids i Hi Hlo.
  destruct (decide (i = node)) as [->|Hne].
  - rewrite (key_insert_eq _ _ _ _ x), key_insert_ne by (done || lia).
    apply Hup; lia.
  - rewrite (key_insert_ne _ _ node i) by done.
    destruct (decide ((i - 1) / 2 = node)) as [Hp|Hp].
    + rewrite Hp, (key_insert_eq _ _ _ _ x) by done. by apply Hkids.
    + rewrite key_insert_ne by done. by apply Hedges.
Qed.

Lemma hole_inv_descend (sc : list N) sz (t : list nat) lo node x ch ci :
  node < length t → t !! ch = Some ci → ch < sz → (ch - 1) / 2 = node → node < ch →
  (∀ j, 0 < j < sz → (j - 1) / 2 = node → (key sc t j ≤ key sc t ch)%N) →
  (x ≤ key sc t ch)%N →
  hole_inv sc sz t lo node x →
  hole_inv sc sz (<[node:=ci]> t) lo ch x.
Proof.
  intros Hnode Hci Hch Hpar Hlt Hbig Hx [Hedges Hup].
  assert (key sc (<[node:=ci]> t) node = key sc t ch) as Hknode.
  { unfold key. rewrite list_lookup_insert_eq, Hci by done. done. }
  split.
  - intros i Hi Hlo Hp Hne.
    destruct (decide (i = node)) as [->|Hne'].
    + rewrite Hknode, key_insert_ne by lia.
      destruct (Hup ltac:(lia) Hlo) as [_ Hg]. apply Hg; [lia|done].
    + rewrite (key_insert_ne _ _ node i) by done.
      destruct (decide ((i - 1) / 2 = node)) as [Hp'|Hp'].
      * rewrite Hp', Hknode. by apply Hbig.
      * rewrite key_insert_ne by done. by apply Hedges.
  - intros _ Hlo. rewrite Hpar in *. rewrite Hknode. split; [done|].
    intros j Hj Hpj. rewrite key_insert_ne by lia.
    rewrite <- Hpj. apply Hedges; lia.
Qed.

Lemma sift_down_loop_spec (sc : list N) sz lo index x :
  sc !! index = Some x →
  ∀ fuel (t : list nat) node,
    sz ≤ length t → Forall (λ a, a < length sc) (take sz t) →
    node < sz → sz / 2 - node ≤ fuel →
    ∃ t', sift_down_loop fuel sc sz t node index = Ret t' ∧
      length t' = length t ∧
      Forall (λ a, a < length sc) (take sz t') ∧
      (hole_inv sc sz t lo node x → ordered_from sc sz t' lo) ∧
      take sz t' ≡ₚ take sz (<[node:=index]> t) ∧
      drop sz t' = drop sz t.
Proof.
  intros Hx. assert (index < length sc) as Hidx by (by eapply lookup_lt_Some).
  induction fuel as [|fuel IH]; intros t node Hlen Hall Hnode Hfuel;
    cbn [sift_down_loop].
  - rewrite decide_False by lia. rewrite wr_Ret by lia.
    eexists; split_and!; [done|by rewrite length_insert|by apply wf_insert| |done|].
    + intros Hinv. eapply place_ordered; [lia|done..|]. intros j ? ?. lia.
    + by rewrite drop_insert_lt.
  - destruct (decide (node < sz / 2)) as [Hin|Hleaf].
    + destruct (larger_child_spec sc sz t node) as
        (ch & ci & -> & Hci & Hcilt & Hch & Hpar & Hlt & Hbig & _); [done..|].
      destruct (lookup_lt_is_Some_2 sc ci) as [y Hy]; [done|].
      ret_bind. rewrite (rd_Ret _ _ _ Hx), (rd_Ret _ _ _ Hy). ret_bind.
      assert (key sc t ch = y) as Hkch by (by eapply key_lookup).
      destruct (0 <? secp256k1_scalar_cmp_var x y)%Z eqn:Hc.
      * apply cmp_gt in Hc. rewrite wr_Ret by lia.
        eexists; split_and!; [done|by rewrite length_insert|by apply wf_insert| |done|].
        -- intros Hinv. eapply place_ordered; [lia|done..|].
           intros j Hj Hp. specialize (Hbig j Hj Hp). lia.
        -- by rewrite drop_insert_lt.
      * apply cmp_gt_false in Hc. rewrite wr_Ret by lia. ret_bind.
        destruct (IH (<[node:=ci]> t) ch) as (t' & Hrun & Hlen' & Hall' & Hord & Hperm & Hdrop).
        -- by rewrite length_insert.
        -- by apply wf_insert.
        -- done.
        -- lia.
        -- exists t'. split_and!; try done.
           ++ by rewrite Hlen', length_insert.
           ++ intros Hinv. apply Hord. eapply hole_inv_descend; try done; lia.
           ++ rewrite Hperm. rewrite !take_insert_lt by lia.
              assert (take sz t !! ch = Some ci) as Hci'.
              { rewrite lookup_take_Some. done. }
              assert (<[node:=ci]> (take sz t) = <[node:=ci]> (<[node:=index]> (take sz t)))
                as -> by (by rewrite list_insert_insert_eq).
              apply Permutation_insert_swap.
              ** rewrite list_lookup_insert_eq; [done|]. rewrite length_take. lia.
              ** rewrite list_lookup_insert_ne by lia. done.
           ++ rewrite Hdrop. by rewrite drop_insert_lt.
    + rewrite wr_Ret by lia.
      eexists; split_and!; [done|by rewrite length_insert|by apply wf_insert| |done|].
      * intros Hinv. eapply place_ordered; [lia|done..|]. intros j ? ?. lia.
      * by rewrite drop_insert_lt.
Qed.

Lemma hole_inv_of_ordered (sc : list N) sz (t : list nat) lo node x :
  ordered_from sc sz t lo → node < sz →
  (0 < node → lo ≤ (node - 1) / 2 → (x ≤ key sc t ((node - 1) / 2))%N) →
  hole_inv sc sz t lo node x.
Proof.
  intros Hord Hnode Hx. split.
  - intros i Hi Hlo _ _. by apply Hord.
  - intros Hpos Hlo. split; [by apply Hx|].
    intros j Hj Hp. etrans; [apply Hord; lia|].
    rewrite Hp. apply Hord; lia.
Qed.

(** Sift-down at a position of a valid heap, for a candidate that does not
    exceed the parent of that position: the outcome is a valid heap holding
    the candidate in place of the element that was at the position. *)
Lemma sift_down_spec (sc : list N) h node index x :
  heap_wf sc h → heap_invariant sc h → node < size h → sc !! index = Some x →
  (0 < node → (x ≤ key sc (tree h) ((node - 1) / 2))%N) →
  ∃ h', secp256k1_sift_down sc h node index = Ret h' ∧
    size h' = size h ∧ length (tree h') = length (tree h) ∧
    heap_wf sc h' ∧ heap_invariant sc h' ∧
    heap_elements h' ≡ₚ take (size h) (<[node:=index]> (tree h)) ∧
    drop (size h) (tree h') = drop (size h) (tree h).
Proof.
  intros [Hlen Hall] Hinv Hnode Hx Hpar. unfold secp256k1_sift_down.
  destruct (sift_down_loop_spec sc (size h) 0 index x Hx (size h / 2 - node) (tree h) node)
    as (t' & -> & Hlen' & Hall' & Hord & Hperm & Hdrop); try done.
  ret_bind. eexists; split_and!; try done.
  - split; cbn [size tree heap_elements]; [lia|done].
  - apply heap_invariant_ordered, Hord.
    apply hole_inv_of_ordered; [by apply heap_invariant_ordered|done|auto].
Qed.

(** ** Heap construction *)

Lemma heapify_loop_spec (sc : list N) root h :
  heap_wf sc h → root ≤ size h / 2 → ordered_from sc (size h) (tree h) root →
  ∃ h', heapify_loop sc root h = Ret h' ∧
    size h' = size h ∧ length (tree h') = length (tree h) ∧
    heap_wf sc h' ∧ heap_invariant sc h' ∧
    heap_elements h' ≡ₚ heap_elements h.
Proof.
  revert h. induction root as [|root IH]; intros h Hwf Hroot Hord; cbn [heapify_loop].
  - exists h. split_and!; try done. by apply heap_invariant_ordered.
  - destruct Hwf as [Hlen Hall].
    destruct (wf_lookup sc (size h) (tree h) root) as (a & x & Ha & Hx & _); [done..|lia|].
    rewrite (rd_Ret _ _ _ Ha). ret_bind. unfold secp256k1_sift_down.
    destruct (sift_down_loop_spec sc (size h) root a x Hx (size h / 2 - root) (tree h) root)
      as (t' & -> & Hlen' & Hall' & Hord' & Hperm & Hdrop); try done; try lia.
    assert (hole_inv sc (size h) (tree h) root root x) as Hhole.
    { split.
      - intros i Hi Hlo Hp _. apply Hord; [done|lia].
      - intros Hpos Hlo. lia. }
    specialize (Hord' Hhole).
    ret_bind.
    destruct (IH (mk_heap t' (size h))) as (h' & -> & Hsz & Hlen'' & Hwf' & Hinv' & Hperm').
    + split; cbn [size tree heap_elements]; [lia|done].
    + cbn [size tree heap_elements]. lia.
    + done.
    + exists h'. split_and!; try done.
      * by rewrite Hlen''.
      * rewrite Hperm'. unfold heap_elements. cbn [size tree heap_elements]. rewrite Hperm.
        by rewrite list_insert_id.
Qed.

Lemma heapify_spec (sc : list N) h :
  heap_wf sc h →
  ∃ h', secp256k1_heapify sc h = Ret h' ∧
    size h' = size h ∧ length (tree h') = length (tree h) ∧
    heap_wf sc h' ∧ heap_invariant sc h' ∧
    heap_elements h' ≡ₚ heap_elements h.
Proof.
  intros Hwf. apply heapify_loop_spec; [done..|].
  intros i Hi Hlo. lia.
Qed.

Section InitializeSpec.
Context `{Gej gej}.

Lemma heap_initialize_loop_spec (scalars : list N) (pt : list gej) k :
  ∀ i (t : list nat) sz,
    i + k ≤ length scalars → i + k ≤ length pt → sz + k ≤ length t → i + k ≤ 256 →
    ∃ t' sz',
      heap_initialize_loop k i scalars pt t sz = Ret (t', sz') ∧
      length t' = length t ∧ sz' ≤ sz + k ∧
      take sz' t' = take sz t ++ filter (λ i, Is_true (is_active scalars pt i)) (seq i k).
Proof.
  induction k as [|k IH]; intros i t sz Hsc Hpt Ht Hi; cbn [heap_initialize_loop].
  - exists t, sz. split_and!; [done|done|lia|]. by rewrite app_nil_r.
  - destruct (lookup_lt_is_Some_2 scalars i) as [s Hs]; [lia|].
    destruct (lookup_lt_is_Some_2 pt i) as [p Hp]; [lia|].
    rewrite (rd_Ret _ _ _ Hs). ret_bind.
    assert (is_active scalars pt i
            = negb (secp256k1_scalar_is_zero s) && negb (secp256k1_gej_is_infinity p))
      as Hact by (unfold is_active; by rewrite Hs, Hp).
    cbn [seq]. rewrite filter_cons.
    destruct (secp256k1_scalar_is_zero s) eqn:Hz; cbn [negb andb] in Hact.
    { rewrite decide_False by (rewrite Hact; cbn; tauto).
      destruct (IH (S i) t sz) as (t' & sz' & -> & ? & ? & ?); [lia..|].
      exists t', sz'. split_and!; [done|done|lia|done]. }
    rewrite (rd_Ret _ _ _ Hp). ret_bind.
    destruct (secp256k1_gej_is_infinity p) eqn:Hinf; cbn [negb andb] in Hact.
    { rewrite decide_False by (rewrite Hact; cbn; tauto).
      destruct (IH (S i) t sz) as (t' & sz' & -> & ? & ? & ?); [lia..|].
      exists t', sz'. split_and!; [done|done|lia|done]. }
    rewrite decide_True by (rewrite Hact; exact I).
    rewrite wr_Ret by lia. ret_bind.
    destruct (IH (S i) (<[sz:=i mod 256]> t) (S sz)) as (t' & sz' & -> & Hlen & Hsz & Htake);
      [lia|lia|rewrite length_insert; lia|lia|].
    exists t', sz'. split_and!; [done| |lia|].
    + by rewrite Hlen, length_insert.
    + rewrite Htake. replace (i mod 256) with i by lia.
      rewrite (take_S_r _ _ i) by (apply list_lookup_insert_eq; lia).
      rewrite take_insert_ge by lia. by rewrite <- app_assoc.
Qed.

Lemma active_indices_spec (scalars : list N) (pt : list gej) n i :
  i ∈ active_indices scalars pt n ↔
  i < n ∧ ∃ s p, scalars !! i = Some s ∧ pt !! i = Some p ∧
                 s ≠ 0%N ∧ secp256k1_gej_is_infinity p = false.
Proof.
  unfold active_indices. rewrite list_elem_of_filter, elem_of_seq. unfold is_active.
  split.
  - intros [Hact Hi]. split; [lia|].
    destruct (scalars !! i) as [s|]; [|done]. destruct (pt !! i) as [p|]; [|done].
    exists s, p. apply andb_prop_elim in Hact as [Hs Hp].
    apply negb_prop_elim in Hs, Hp. unfold secp256k1_scalar_is_zero in Hs.
    split_and!; try done.
    + intros ->. by apply Hs.
    + by destruct (secp256k1_gej_is_infinity p).
  - intros [Hi (s & p & -> & -> & Hs & Hp)]. split; [|lia].
    rewrite Hp. unfold secp256k1_scalar_is_zero.
    destruct (N.eqb_spec s 0); done.
Qed.

Lemma active_indices_NoDup (scalars : list N) (pt : list gej) n :
  NoDup (active_indices scalars pt n).
Proof. apply NoDup_filter, NoDup_seq. Qed.

(** Heap construction: the outcome is a valid heap over exactly the active
    indices. *)
Lemma heap_initialize_spec (h0 : secp256k1_scalar_heap) (scalars : list N)
    (pt : list gej) n :
  n ≤ SECP256K1_ECMULT_MULTI_MAX_N → n ≤ length scalars → n ≤ length pt →
  SECP256K1_ECMULT_MULTI_MAX_N ≤ length (tree h0) →
  ∃ h, secp256k1_heap_initialize h0 scalars pt n = Ret h ∧
    length (tree h) = length (tree h0) ∧
    heap_wf scalars h ∧ heap_invariant scalars h ∧
    heap_elements h ≡ₚ active_indices scalars pt n.
Proof.
  intros Hn Hsc Hpt Ht. unfold secp256k1_heap_initialize.
  rewrite decide_True by done.
  unfold SECP256K1_ECMULT_MULTI_MAX_N in *.
  destruct (heap_initialize_loop_spec scalars pt n 0 (tree h0) 0)
    as (t & sz & -> & Hlen & Hsz & Htake); [lia..|].
  ret_bind. rewrite take_0, app_nil_l in Htake.
  destruct (heapify_spec scalars (mk_heap t sz)) as (h & -> & ? & Hlen' & ? & ? & Hperm).
  { split; unfold heap_elements; cbn [size tree]; [lia|].
    rewrite Htake. apply Forall_forall. intros i Hi.
    apply active_indices_spec in Hi as [_ (s & _ & Hs & _)].
    by eapply lookup_lt_Some. }
  exists h. split_and!; try done.
  - by rewrite Hlen'.
  - rewrite Hperm. unfold heap_elements. cbn [size tree]. by rewrite Htake.
Qed.
End InitializeSpec.

(** ** Sift-up *)

(** The fuel of the sift-up loop is irrelevant once it covers the depth. *)
Lemma sift_up_loop_fuel (sc : list N) index f1 :
  ∀ f2 (t : list nat) node, node ≤ f1 → node ≤ f2 →
    sift_up_loop f1 sc t node index = sift_up_loop f2 sc t node index.
Proof.
  induction f1 as [|f1 IH]; intros f2 t node H1 H2.
  - assert (node = 0) as -> by lia. by destruct f2.
  - destruct f2 as [|f2].
    + assert (node = 0) as -> by lia. done.
    + cbn [sift_up_loop]. case_decide; [|done].
      destruct (rd t ((node - 1) / 2)) as [pi| |]; ret_bind; try done.
      destruct (rd sc index) as [si| |]; ret_bind; try done.
      destruct (rd sc pi) as [sp| |]; ret_bind; try done.
      case_match; [done|].
      destruct (wr t node pi) as [t'| |]; ret_bind; try done.
      apply IH; lia.
Qed.

(** The loop overwrites the vacant position before reading it. *)
Lemma sift_up_loop_vacant (sc : list N) index fuel (t : list nat) node a :
  sift_up_loop fuel sc (<[node:=a]> t) node index = sift_up_loop fuel sc t node index.
Proof.
  assert (∀ x, wr (<[node:=a]> t) node x = wr t node x) as Hwr.
  { intros x. unfold wr. rewrite length_insert. case_decide; [|done].
    by rewrite list_insert_insert_eq. }
  destruct fuel as [|fuel]; cbn [sift_up_loop]; case_decide; rewrite ?Hwr; try done.
  assert (rd (<[node:=a]> t) ((node - 1) / 2) = rd t ((node - 1) / 2)) as ->.
  { unfold rd. by rewrite list_lookup_insert_ne by lia. }
  destruct (rd t ((node - 1) / 2)) as [pi| |]; ret_bind; try done.
  destruct (rd sc index) as [si| |]; ret_bind; try done.
  destruct (rd sc pi) as [sp| |]; ret_bind; try done.
  by rewrite Hwr.
Qed.

(** Sift-up from a position whose parent already dominates the candidate
    places the candidate there. *)
Lemma sift_up_loop_stops (sc : list N) sz (t : list nat) node index x :
  sz ≤ length t → Forall (λ a, a < length sc) (take sz t) → node < sz →
  sc !! index = Some x →
  (0 < node → (x ≤ key sc t ((node - 1) / 2))%N) →
  sift_up_loop node sc t node index = wr t node index.
Proof.
  intros Hlen Hall Hnode Hx Hpar.
  destruct node as [|node]; [done|]. cbn [sift_up_loop].
  rewrite decide_True by lia.
  destruct (wf_lookup sc sz t ((S node - 1) / 2)) as (p & y & Hp & Hy & Hk); [done..|lia|].
  rewrite (rd_Ret _ _ _ Hp). ret_bind. rewrite (rd_Ret _ _ _ Hx), (rd_Ret _ _ _ Hy). ret_bind.
  specialize (Hpar ltac:(lia)). rewrite Hk in Hpar.
  apply cmp_le in Hpar. by rewrite Hpar.
Qed.

Lemma sift_up_loop_spec (sc : list N) sz index x :
  sc !! index = Some x →
  ∀ fuel (t : list nat) node,
    sz ≤ length t → Forall (λ a, a < length sc) (take sz t) →
    node < sz → node ≤ fuel →
    ∃ t', sift_up_loop fuel sc t node index = Ret t' ∧
      length t' = length t ∧
      Forall (λ a, a < length sc) (take sz t') ∧
      (hole_up_inv sc sz t node x → ordered_from sc sz t' 0) ∧
      take sz t' ≡ₚ take sz (<[node:=index]> t) ∧
      drop sz t' = drop sz t.
Proof.
  intros Hx. assert (index < length sc) as Hidx by (by eapply lookup_lt_Some).
  assert (∀ (t : list nat) node, node < length t → node < sz →
            hole_up_inv sc sz t node x →
            (0 < node → (x ≤ key sc t ((node - 1) / 2))%N) →
            ordered_from sc sz (<[node:=index]> t) 0) as Hplace.
  { intros t node Hlt Hnode [Hedges Hkids] Hpar i Hi _.
    destruct (decide (i = node)) as [->|Hne].
    - rewrite (key_insert_eq _ _ _ _ x), key_insert_ne by (done || lia).
      apply Hpar. lia.
    - rewrite (key_insert_ne _ _ node i) by done.
      destruct (decide ((i - 1) / 2 = node)) as [Hp|Hp].
      + rewrite Hp, (key_insert_eq _ _ _ _ x) by done. by apply Hkids.
      + rewrite key_insert_ne by done. by apply Hedges. }
  induction fuel as [|fuel IH]; intros t node Hlen Hall Hnode Hfuel;
    cbn [sift_up_loop].
  - rewrite decide_False by lia. rewrite wr_Ret by lia.
    eexists; split_and!; [done|by rewrite length_insert|by apply wf_insert| |done|].
    + intros Hinv. apply Hplace; [lia|done|done|lia].
    + by rewrite drop_insert_lt.
  - destruct (decide (0 < node)) as [Hpos|Hroot].
    + destruct (wf_lookup sc sz t ((node - 1) / 2)) as (p & y & Hp & Hy & Hk); [done..|lia|].
      assert (p < length sc) by (by eapply lookup_lt_Some).
      rewrite (rd_Ret _ _ _ Hp). ret_bind.
      rewrite (rd_Ret _ _ _ Hx), (rd_Ret _ _ _ Hy). ret_bind.
      destruct (secp256k1_scalar_cmp_var x y <=? 0)%Z eqn:Hc.
      * apply cmp_le in Hc. rewrite wr_Ret by lia.
        eexists; split_and!; [done|by rewrite length_insert|by apply wf_insert| |done|].
        -- intros Hinv. apply Hplace; [lia|done|done|]. intros _. by rewrite Hk.
        -- by rewrite drop_insert_lt.
      * apply cmp_le_false in Hc. rewrite wr_Ret by lia. ret_bind.
        assert (key sc (<[node:=p]> t) node = y) as Hknode.
        { apply key_insert_eq; [lia|done]. }
        destruct (IH (<[node:=p]> t) ((node - 1) / 2))
          as (t' & Hrun & Hlen' & Hall' & Hord & Hperm & Hdrop).
        -- by rewrite length_insert.
        -- by apply wf_insert.
        -- lia.
        -- lia.
        -- exists t'. split_and!; try done.
           ++ by rewrite Hlen', length_insert.
           ++ intros [Hedges Hkids]. apply Hord. split.
              ** intros i Hi Hpi Hne.
                 destruct (decide (i = node)) as [->|Hne']; [done|].
                 rewrite (key_insert_ne _ _ node i) by done.
                 destruct (decide ((i - 1) / 2 = node)) as [Hp'|Hp'].
                 --- rewrite Hp', Hknode, <- Hk. by apply Hkids.
                 --- rewrite key_insert_ne by done. by apply Hedges.
              ** intros j Hj Hpj.
                 assert (key sc (<[node:=p]> t) j ≤ y)%N as Hjy.
                 { destruct (decide (j = node)) as [->|Hne]; [lia|].
                   rewrite key_insert_ne by done. rewrite <- Hk, <- Hpj.
                   apply Hedges; [done|lia|done]. }
                 split; [lia|]. intros Hppos.
                 etrans; [exact Hjy|]. rewrite key_insert_ne by lia.
                 rewrite <- Hk. apply Hedges; lia.
           ++ rewrite Hperm. rewrite !take_insert_lt by lia.
              assert (take sz t !! ((node - 1) / 2) = Some p) as Hp'.
              { rewrite lookup_take_Some. split; [done|lia]. }
              assert (<[node:=p]> (take sz t) = <[node:=p]> (<[node:=index]> (take sz t)))
                as -> by (by rewrite list_insert_insert_eq).
              apply Permutation_insert_swap.
              ** rewrite list_lookup_insert_eq; [done|]. rewrite length_take. lia.
              ** rewrite list_lookup_insert_ne by lia. done.
           ++ rewrite Hdrop. by rewrite drop_insert_lt.
    + rewrite wr_Ret by lia.
      eexists; split_and!; [done|by rewrite length_insert|by apply wf_insert| |done|].
      * intros Hinv. apply Hplace; [lia|done|done|lia].
      * by rewrite drop_insert_lt.
Qed.

(** Sift-up at a position of a valid heap, for a candidate that is not
    below the children of that position. *)
Lemma sift_up_spec (sc : list N) h node index x :
  heap_wf sc h → heap_invariant sc h → node < size h → sc !! index = Some x →
  (∀ j, 0 < j < size h → (j - 1) / 2 = node → (key sc (tree h) j ≤ x)%N) →
  ∃ h', secp256k1_sift_up sc h node index = Ret h' ∧
    size h' = size h ∧ length (tree h') = length (tree h) ∧
    heap_wf sc h' ∧ heap_invariant sc h' ∧
    heap_elements h' ≡ₚ take (size h) (<[node:=index]> (tree h)).
Proof.
  intros [Hlen Hall] Hinv Hnode Hx Hkids. unfold secp256k1_sift_up.
  destruct (sift_up_loop_spec sc (size h) index x Hx node (tree h) node)
    as (t' & -> & Hlen' & Hall' & Hord & Hperm & Hdrop); try done.
  ret_bind. eexists; split_and!; try done.
  - split; cbn [size tree]; [lia|done].
  - apply heap_invariant_ordered, Hord. split.
    + intros i Hi _ _. by apply Hinv.
    + intros j Hj Hp. split; [by apply Hkids|]. intros Hpos.
      etrans; [apply Hinv; lia|]. rewrite Hp. apply Hinv. lia.
Qed.

(** ** Sift-floyd *)

(** When the candidate exceeds both children of [node], the sift-up that
    follows the blind descent undoes the descent and arrives back at [node]. *)
Lemma sift_floyd_returns (sc : list N) sz index x :
  sc !! index = Some x →
  ∀ fuel (t : list nat) node,
    sz ≤ length t → Forall (λ a, a < length sc) (take sz t) →
    node < sz → sz / 2 - node ≤ fuel →
    ordered_from sc sz t (S node) →
    (∀ j, 0 < j < sz → (j - 1) / 2 = node → (key sc t j < x)%N) →
    ∃ t1 leaf, sift_floyd_loop fuel sc sz t node = Ret (t1, leaf) ∧
      sift_up_loop leaf sc t1 leaf index = sift_up_loop node sc t node index.
Proof.
  intros Hx. induction fuel as [|fuel IH]; intros t node Hlen Hall Hnode Hfuel Hord Hkids;
    cbn [sift_floyd_loop].
  - rewrite decide_False by lia. by exists t, node.
  - destruct (decide (node < sz / 2)) as [Hin|Hleaf]; [|by exists t, node].
    destruct (larger_child_spec sc sz t node) as
      (ch & ci & -> & Hci & Hcilt & Hch & Hpar & Hlt & Hbig & _); [done..|].
    destruct (lookup_lt_is_Some_2 sc ci) as [y Hy]; [done|].
    assert (key sc t ch = y) as Hkch by (by eapply key_lookup).
    ret_bind. rewrite wr_Ret by lia. ret_bind.
    destruct (IH (<[node:=ci]> t) ch) as (t1 & leaf & -> & Hup).
    + by rewrite length_insert.
    + by apply wf_insert.
    + done.
    + lia.
    + intros i Hi Hlo. rewrite !key_insert_ne by lia. apply Hord; lia.
    + intros j Hj Hp. rewrite key_insert_ne by lia.
      specialize (Hkids ch ltac:(lia) Hpar).
      assert (key sc t j ≤ key sc t ch)%N; [|lia].
      rewrite <- Hp. apply Hord; lia.
    + exists t1, leaf. split; [done|]. rewrite Hup.
      destruct ch as [|ch']; [lia|]. cbn [sift_up_loop].
      rewrite decide_True by lia. rewrite Hpar.
      rewrite (rd_Ret _ _ ci) by (apply list_lookup_insert_eq; lia).
      ret_bind. rewrite (rd_Ret _ _ _ Hx), (rd_Ret _ _ _ Hy). ret_bind.
      specialize (Hkids (S ch') ltac:(lia) Hpar). rewrite Hkch in Hkids.
      apply cmp_le_false in Hkids. rewrite Hkids.
      rewrite wr_Ret by (rewrite length_insert; lia). ret_bind.
      rewrite (list_insert_id (<[node:=ci]> t) (S ch') ci)
        by (by rewrite list_lookup_insert_ne by lia).
      rewrite (sift_up_loop_fuel sc index ch' node) by lia.
      apply sift_up_loop_vacant.
Qed.

(** The refinement behind replace-root: from a position whose parent
    dominates the candidate, and below which the tree is ordered, the blind
    descent followed by sift-up computes what sift-down computes. *)
Lemma sift_floyd_loop_sift_down (sc : list N) sz index x :
  sc !! index = Some x →
  ∀ fuel (t : list nat) node,
    sz ≤ length t → Forall (λ a, a < length sc) (take sz t) →
    node < sz → sz / 2 - node ≤ fuel →
    ordered_from sc sz t (S node) →
    (0 < node → (x ≤ key sc t ((node - 1) / 2))%N) →
    ∃ t1 leaf, sift_floyd_loop fuel sc sz t node = Ret (t1, leaf) ∧
      sift_up_loop leaf sc t1 leaf index = sift_down_loop fuel sc sz t node index.
Proof.
  intros Hx. induction fuel as [|fuel IH]; intros t node Hlen Hall Hnode Hfuel Hord Hpar.
  - cbn [sift_floyd_loop sift_down_loop]. rewrite !decide_False by lia.
    exists t, node. split; [done|]. by eapply sift_up_loop_stops.
  - cbn [sift_down_loop]. destruct (decide (node < sz / 2)) as [Hin|Hleaf].
    + destruct (larger_child_spec sc sz t node) as
        (ch & ci & Hlc & Hci & Hcilt & Hch & Hp & Hlt & Hbig & _); [done..|].
      rewrite Hlc. ret_bind.
      destruct (lookup_lt_is_Some_2 sc ci) as [y Hy]; [done|].
      assert (key sc t ch = y) as Hkch by (by eapply key_lookup).
      rewrite (rd_Ret _ _ _ Hx), (rd_Ret _ _ _ Hy). ret_bind.
      destruct (0 <? secp256k1_scalar_cmp_var x y)%Z eqn:Hc.
      * apply cmp_gt in Hc.
        destruct (sift_floyd_returns sc sz index x Hx (S fuel) t node)
          as (t1 & leaf & Hrun & Hup); try done.
        { intros j Hj Hpj. specialize (Hbig j Hj Hpj). lia. }
        exists t1, leaf. split; [done|]. rewrite Hup. by eapply sift_up_loop_stops.
      * apply cmp_gt_false in Hc. cbn [sift_floyd_loop].
        rewrite decide_True by done. rewrite Hlc. ret_bind.
        rewrite wr_Ret by lia. ret_bind.
        apply IH.
        -- by rewrite length_insert.
        -- by apply wf_insert.
        -- done.
        -- lia.
        -- intros i Hi Hlo. rewrite !key_insert_ne by lia. apply Hord; lia.
        -- intros _. rewrite Hp. unfold key.
           rewrite list_lookup_insert_eq by lia. cbn. rewrite Hy. cbn. lia.
    + cbn [sift_floyd_loop]. rewrite decide_False by done.
      exists t, node. split; [done|]. by eapply sift_up_loop_stops.
Qed.

(** Sift-floyd at a position of a valid heap, for a candidate that does not
    exceed the parent of that position, is sift-down. *)
Lemma sift_floyd_is_sift_down (sc : list N) h node index x :
  heap_wf sc h → heap_invariant sc h → node < size h → sc !! index = Some x →
  (0 < node → (x ≤ key sc (tree h) ((node - 1) / 2))%N) →
  secp256k1_sift_floyd sc h node index = secp256k1_sift_down sc h node index.
Proof.
  intros [Hlen Hall] Hinv Hnode Hx Hpar.
  unfold secp256k1_sift_floyd, secp256k1_sift_down.
  destruct (sift_floyd_loop_sift_down sc (size h) index x Hx
              (size h / 2 - node) (tree h) node) as (t1 & leaf & -> & Heq); try done.
  { intros i Hi _. by apply Hinv. }
  ret_bind. unfold secp256k1_sift_up. cbn [size tree]. by rewrite Heq.
Qed.

(** ** Replace-root and remove-root *)

Lemma replace_spec (sc : list N) h index x :
  heap_wf sc h → heap_invariant sc h → 0 < size h → sc !! index = Some x →
  ∃ root h', secp256k1_replace sc h index = Ret (root, h') ∧
    tree h !! 0 = Some root ∧
    size h' = size h ∧ length (tree h') = length (tree h) ∧
    heap_wf sc h' ∧ heap_invariant sc h' ∧
    root :: heap_elements h' ≡ₚ index :: heap_elements h.
Proof.
  intros Hwf Hinv Hsize Hx. unfold secp256k1_replace.
  destruct (lookup_lt_is_Some_2 (tree h) 0) as [root Hroot]; [destruct Hwf; lia|].
  rewrite (rd_Ret _ _ _ Hroot). ret_bind. rewrite decide_True by done.
  rewrite (sift_floyd_is_sift_down sc h 0 index x) by (done || lia).
  destruct (sift_down_spec sc h 0 index x) as (h' & -> & Hsz & Hlen & Hwf' & Hinv' & Hperm & _);
    try done; [lia|].
  ret_bind. exists root, h'. split_and!; try done.
  rewrite Hperm. unfold heap_elements.
  destruct (tree h) as [|a t]; [done|]. simplify_eq/=.
  destruct (size h) as [|n]; [lia|]. cbn. apply Permutation_swap.
Qed.

Lemma heap_remove_spec (sc : list N) h :
  heap_wf sc h → heap_invariant sc h → 0 < size h →
  ∃ root h', secp256k1_heap_remove sc h = Ret (root, h') ∧
    tree h !! 0 = Some root ∧
    size h' = size h - 1 ∧ length (tree h') = length (tree h) ∧
    heap_wf sc h' ∧ heap_invariant sc h' ∧
    root :: heap_elements h' ≡ₚ heap_elements h.
Proof.
  intros [Hlen Hall] Hinv Hsize. unfold secp256k1_heap_remove.
  unfold heap_elements in Hall.
  destruct (lookup_lt_is_Some_2 (tree h) 0) as [root Hroot]; [lia|].
  rewrite (rd_Ret _ _ _ Hroot). ret_bind. rewrite decide_True by done.
  cbn [size tree].
  destruct (decide (0 < size h - 1)) as [Hrest|Hone].
  - destruct (wf_lookup sc (size h) (tree h) (size h - 1)) as (a & x & Ha & Hx & Hk);
      [done..|lia|].
    rewrite (rd_Ret _ _ _ Ha). ret_bind.
    assert (take (size h) (tree h) = take (size h - 1) (tree h) ++ [a]) as Hsplit.
    { replace (size h) with (S (size h - 1)) at 1 by lia. by apply take_S_r. }
    assert (heap_wf sc (mk_heap (tree h) (size h - 1))) as Hwf1.
    { split; cbn [size tree]; [lia|]. unfold heap_elements. cbn [size tree].
      rewrite Hsplit in Hall. by apply Forall_app in Hall as [? _]. }
    assert (heap_invariant sc (mk_heap (tree h) (size h - 1))) as Hinv1.
    { intros i Hi. cbn [size tree] in *. apply Hinv. lia. }
    destruct (sift_down_spec sc (mk_heap (tree h) (size h - 1)) 0 a x Hwf1 Hinv1)
      as (h' & -> & Hsz & Hlen' & Hwf' & Hinv' & Hperm & _); cbn [size tree];
      [done|done|lia|].
    ret_bind.
    +  exists root, h'. split_and!; try done.
      rewrite Hperm. unfold heap_elements. cbn [size tree]. rewrite Hsplit.
      destruct (tree h) as [|r t]; [done|]. simplify_eq/=.
      destruct (size h - 1) as [|n]; [lia|]. cbn.
      f_equiv. apply Permutation_cons_append.
  - exists root, (mk_heap (tree h) (size h - 1)). split_and!; try done.
    + split; cbn [size tree]; [lia|]. unfold heap_elements. cbn [size tree].
      replace (size h - 1) with 0 by lia. by rewrite take_0.
    + intros i Hi. cbn [size] in Hi. lia.
    + unfold heap_elements. cbn [size tree].
      replace (size h - 1) with 0 by lia. replace (size h) with 1 by lia.
      rewrite take_0. destruct (tree h); simplify_eq/=. by rewrite take_0.
Qed.

(** The root carries the largest scalar of the heap. *)
Lemma heap_root_max (sc : list N) h i :
  heap_invariant sc h → i < size h → (key sc (tree h) i ≤ key sc (tree h) 0)%N.
Proof.
  intros Hinv. induction i as [i IH] using lt_wf_ind. intros Hi.
  destruct (decide (i = 0)) as [->|Hne]; [done|].
  etrans; [apply Hinv; lia|]. apply IH; lia.
Qed.

(** The fuel of the sift-down loop is irrelevant once it covers the depth. *)
Lemma sift_down_loop_fuel (sc : list N) sz index f1 :
  ∀ f2 (t : list nat) node, sz / 2 - node ≤ f1 → sz / 2 - node ≤ f2 →
    sift_down_loop f1 sc sz t node index = sift_down_loop f2 sc sz t node index.
Proof.
  induction f1 as [|f1 IH]; intros f2 t node H1 H2.
  - destruct f2; cbn [sift_down_loop]; by rewrite !decide_False by lia.
  - destruct f2 as [|f2]; cbn [sift_down_loop].
    + by rewrite !decide_False by lia.
    + case_decide; [|done]. unfold larger_child.
      destruct (rd t (2 * node + 1)) as [l| |]; ret_bind; try done.
      assert (∀ ch ci,
        (rd sc index ≫= λ si, rd sc ci ≫= λ sl,
           if (0 <? secp256k1_scalar_cmp_var si sl)%Z then wr t node index
           else wr t node ci ≫= λ t', sift_down_loop f1 sc sz t' ch index) =
        (rd sc index ≫= λ si, rd sc ci ≫= λ sl,
           if (0 <? secp256k1_scalar_cmp_var si sl)%Z then wr t node index
           else wr t node ci ≫= λ t', sift_down_loop f2 sc sz t' ch index) ∨ ch ≤ node)
        as Hrest.
      { intros ch ci. destruct (decide (ch ≤ node)); [by right|left].
        destruct (rd sc index) as [si| |]; ret_bind; try done.
        destruct (rd sc ci) as [sl| |]; ret_bind; try done.
        case_match; [done|].
        destruct (wr t node ci) as [t'| |]; ret_bind; try done.
        apply IH; lia. }
      case_decide.
      * destruct (rd t (2 * node + 1 + 1)) as [r| |]; ret_bind; try done.
        destruct (rd sc r) as [so| |]; ret_bind; try done.
        destruct (rd sc l) as [sl| |]; ret_bind; try done.
        case_match; ret_bind.
        -- destruct (Hrest (2 * node + 1 + 1) r); [done|lia].
        -- destruct (Hrest (2 * node + 1) l); [done|lia].
      * ret_bind. destruct (Hrest (2 * node + 1) l); [done|lia].
Qed.

(** The blind descent of sift-floyd runs on any valid tree. *)
Lemma sift_floyd_loop_runs (sc : list N) sz :
  ∀ fuel (t : list nat) node,
    sz ≤ length t → Forall (λ a, a < length sc) (take sz t) →
    node < sz → sz / 2 - node ≤ fuel →
    ∃ t1 leaf, sift_floyd_loop fuel sc sz t node = Ret (t1, leaf) ∧
      leaf < sz ∧ length t1 = length t ∧ Forall (λ a, a < length sc) (take sz t1).
Proof.
  induction fuel as [|fuel IH]; intros t node Hlen Hall Hnode Hfuel; cbn [sift_floyd_loop].
  - rewrite decide_False by lia. by exists t, node.
  - destruct (decide (node < sz / 2)) as [Hin|Hleaf]; [|by exists t, node].
    destruct (larger_child_spec sc sz t node) as
      (ch & ci & -> & Hci & Hcilt & Hch & Hpar & Hlt & Hbig & _); [done..|].
    ret_bind. rewrite wr_Ret by lia. ret_bind.
    destruct (IH (<[node:=ci]> t) ch) as (t1 & leaf & -> & ? & Hlen1 & ?).
    + by rewrite length_insert.
    + by apply wf_insert.
    + done.
    + lia.
    + exists t1, leaf. split_and!; try done. by rewrite Hlen1, length_insert.
Qed.

Lemma sift_floyd_runs (sc : list N) h node index x :
  heap_wf sc h → node < size h → sc !! index = Some x →
  ∃ h', secp256k1_sift_floyd sc h node index = Ret h' ∧
    size h' = size h ∧ length (tree h') = length (tree h) ∧ heap_wf sc h'.
Proof.
  intros [Hlen Hall] Hnode Hx. unfold secp256k1_sift_floyd.
  destruct (sift_floyd_loop_runs sc (size h) (size h / 2 - node) (tree h) node)
    as (t1 & leaf & -> & Hleaf & Hlen1 & Hall1); try done.
  ret_bind. unfold secp256k1_sift_up. cbn [size tree].
  destruct (sift_up_loop_spec sc (size h) index x Hx leaf t1 leaf)
    as (t' & -> & Hlen' & Hall' & _); try done; [lia|].
  ret_bind. eexists; split_and!; try done.
  - cbn [tree]. lia.
  - split; cbn [size tree]; [lia|done].
Qed.

(** The blind descent keeps a valid heap ordered and stops at a position
    without children. *)
Lemma sift_floyd_loop_ordered (sc : list N) sz :
  ∀ fuel (t : list nat) node,
    sz ≤ length t → Forall (λ a, a < length sc) (take sz t) →
    node < sz → sz / 2 - node ≤ fuel → ordered_from sc sz t 0 →
    ∃ t1 leaf, sift_floyd_loop fuel sc sz t node = Ret (t1, leaf) ∧
      leaf < sz ∧ sz ≤ 2 * leaf + 1 ∧ length t1 = length t ∧
      Forall (λ a, a < length sc) (take sz t1) ∧ ordered_from sc sz t1 0.
Proof.
  induction fuel as [|fuel IH]; intros t node Hlen Hall Hnode Hfuel Hord;
    cbn [sift_floyd_loop].
  - rewrite decide_False by lia. exists t, node. split_and!; try done. lia.
  - destruct (decide (node < sz / 2)) as [Hin|Hleaf].
    2:{ exists t, node. split_and!; try done. lia. }
    destruct (larger_child_spec sc sz t node) as
      (ch & ci & -> & Hci & Hcilt & Hch & Hpar & Hlt & Hbig & _); [done..|].
    ret_bind. rewrite wr_Ret by lia. ret_bind.
    assert (key sc (<[node:=ci]> t) node = key sc t ch) as Hknode.
    { unfold key. rewrite list_lookup_insert_eq, Hci by lia. done. }
    destruct (IH (<[node:=ci]> t) ch) as (t1 & leaf & -> & ? & ? & Hlen1 & ? & ?).
    + by rewrite length_insert.
    + by apply wf_insert.
    + done.
    + lia.
    + intros i Hi _.
      destruct (decide (i = node)) as [->|Hne].
      * rewrite Hknode, key_insert_ne by lia.
        trans (key sc t node); [|apply Hord; lia].
        rewrite <- Hpar. apply Hord; lia.
      * rewrite (key_insert_ne _ _ node i) by done.
        destruct (decide ((i - 1) / 2 = node)) as [Hp|Hp].
        -- rewrite Hp, Hknode. by apply Hbig.
        -- rewrite key_insert_ne by done. apply Hord; lia.
    + exists t1, leaf. split_and!; try done. by rewrite Hlen1, length_insert.
Qed.

(** Sift-floyd at any position of a valid heap leaves a valid heap. *)
Lemma sift_floyd_spec (sc : list N) h node index x :
  heap_wf sc h → heap_invariant sc h → node < size h → sc !! index = Some x →
  ∃ h', secp256k1_sift_floyd sc h node index = Ret h' ∧
    size h' = size h ∧ heap_wf sc h' ∧ heap_invariant sc h'.
Proof.
  intros [Hlen Hall] Hinv Hnode Hx. unfold secp256k1_sift_floyd.
  destruct (sift_floyd_loop_ordered sc (size h) (size h / 2 - node) (tree h) node)
    as (t1 & leaf & -> & Hleaf & Hnokids & Hlen1 & Hall1 & Hord1); try done.
  { by apply heap_invariant_ordered. }
  ret_bind.
  destruct (sift_up_spec sc (mk_heap t1 (size h)) leaf index x)
    as (h' & -> & ? & _ & ? & ? & _); try done.
  - split; cbn [size tree]; [lia|done].
  - by apply heap_invariant_ordered.
  - cbn [size tree]. intros j Hj Hp. lia.
  - by exists h'.
Qed.

(** * Main theorems: the heap *)

(** C7 (as amended): in sift-down, at each level the candidate's scalar is
    compared against the larger of the two children's scalars (the right child
    only if present, and only if strictly greater than the left); the
    candidate is placed at the current node and the descent stops only when
    the candidate is strictly greater than that child; when it is smaller or
    equal, the larger child moves up and the descent continues from the
    child's position. *)
Theorem sift_down_level (sc : list N) h node index x :
  heap_wf sc h → sc !! index = Some x → node < size h / 2 →
  let l := 2 * node + 1 in
  let r := 2 * node + 2 in
  let big := if decide (r < size h ∧ (key sc (tree h) l < key sc (tree h) r)%N)
             then r else l in
  ∃ b, tree h !! big = Some b ∧
    ((key sc (tree h) big < x)%N →
       secp256k1_sift_down sc h node index
       = Ret (mk_heap (<[node:=index]> (tree h)) (size h))) ∧
    ((x ≤ key sc (tree h) big)%N →
       secp256k1_sift_down sc h node index
       = secp256k1_sift_down sc (mk_heap (<[node:=b]> (tree h)) (size h)) big index).
Proof.
  intros [Hlen Hall] Hx Hnode l r big.
  destruct (larger_child_spec sc (size h) (tree h) node) as
    (ch & ci & Hlc & Hci & Hcilt & Hch & Hpar & Hlt & Hbig & Hwhich); [done..|].
  assert (ch = big) as -> by done.
  destruct (lookup_lt_is_Some_2 sc ci) as [y Hy]; [done|].
  assert (key sc (tree h) big = y) as Hk by (by eapply key_lookup).
  exists ci. split; [done|].
  unfold secp256k1_sift_down. cbn [size tree].
  destruct (size h / 2 - node) as [|fuel] eqn:Hfuel; [lia|].
  cbn [sift_down_loop]. rewrite decide_True by done. rewrite Hlc. ret_bind.
  rewrite (rd_Ret _ _ _ Hx), (rd_Ret _ _ _ Hy). ret_bind. rewrite Hk.
  split; intros Hcmp.
  - apply cmp_gt in Hcmp. rewrite Hcmp. by rewrite wr_Ret by lia.
  - apply cmp_gt_false in Hcmp. rewrite Hcmp. rewrite wr_Ret by lia. ret_bind.
    by rewrite (sift_down_loop_fuel sc (size h) index fuel (size h / 2 - big)) by lia.
Qed.

(** C8: for every non-empty heap, remove-root returns the old root's index
    and decreases the size by exactly one (nothing further happens when the
    heap became empty, otherwise the logically-last element is sifted down
    from the root, which restores the invariant), and replace-root returns the
    old root's index and leaves the size unchanged. *)
Theorem root_operations_size (sc : list N) h :
  heap_wf sc h → 0 < size h →
  (∃ root h', secp256k1_heap_remove sc h = Ret (root, h') ∧
     tree h !! 0 = Some root ∧ size h' = size h - 1 ∧
     (size h' = 0 → tree h' = tree h) ∧
     (0 < size h' → ∃ last, tree h !! (size h - 1) = Some last ∧
        secp256k1_sift_down sc (mk_heap (tree h) (size h - 1)) 0 last = Ret h') ∧
     (heap_invariant sc h → heap_invariant sc h')) ∧
  (∀ index, index < length sc →
     ∃ root h', secp256k1_replace sc h index = Ret (root, h') ∧
       tree h !! 0 = Some root ∧ size h' = size h).
Proof.
  intros Hwf Hsize. split.
  - destruct Hwf as [Hlen Hall]. unfold heap_elements in Hall.
    destruct (lookup_lt_is_Some_2 (tree h) 0) as [root Hroot]; [lia|].
    assert (∀ h1, secp256k1_heap_remove sc h = Ret (root, h1) →
              heap_invariant sc h → heap_invariant sc h1) as Hkeep.
    { intros h1 Hrun Hinv.
      destruct (heap_remove_spec sc h) as (? & h2 & Hrun' & _ & _ & _ & _ & ? & _); try done.
      rewrite Hrun in Hrun'. by simplify_eq. }
    revert Hkeep. unfold secp256k1_heap_remove.
    rewrite (rd_Ret _ _ _ Hroot). ret_bind. rewrite decide_True by done. cbn [size tree].
    destruct (decide (0 < size h - 1)) as [Hrest|Hone]; intros Hkeep.
    + destruct (wf_lookup sc (size h) (tree h) (size h - 1)) as (a & x & Ha & Hx & Hk);
        [done..|lia|].
      rewrite (rd_Ret _ _ _ Ha) in *. ret_bind.
      assert (take (size h) (tree h) = take (size h - 1) (tree h) ++ [a]) as Hsplit.
      { replace (size h) with (S (size h - 1)) at 1 by lia. by apply take_S_r. }
      unfold secp256k1_sift_down in *. cbn [size tree] in *.
      destruct (sift_down_loop_spec sc (size h - 1) 0 a x Hx ((size h - 1) / 2 - 0)
                  (tree h) 0) as (t' & Hrun & _); [lia| |lia|lia|].
      { rewrite Hsplit in Hall. by apply Forall_app in Hall as [? _]. }
      rewrite Hrun. ret_bind.
      eexists _, _. split_and!; try done.
      * cbn [size]. lia.
      * intros _. exists a. split; [done|]. by rewrite Hrun.
      * apply Hkeep. ret_bind. by rewrite Hrun.
    + eexists _, _. split_and!; try done. by apply Hkeep.
  - intros index Hindex.
    destruct (lookup_lt_is_Some_2 sc index) as [x Hx]; [done|].
    destruct (lookup_lt_is_Some_2 (tree h) 0) as [root Hroot]; [destruct Hwf; lia|].
    unfold secp256k1_replace. rewrite (rd_Ret _ _ _ Hroot). ret_bind.
    rewrite decide_True by done.
    destruct (sift_floyd_runs sc h 0 index x) as (h' & -> & Hsz & _); try done.
    ret_bind. by exists root, h'.
Qed.

(** C5 (as amended): for every heap state satisfying the heap invariant,
    sift-floyd applied at the root, or at any node whose parent's scalar is not
    smaller than the candidate's, leaves the tree array with exactly the same
    final contents as a plain sift-down applied at the same node with the same
    candidate. *)
Theorem sift_floyd_refines_sift_down (sc : list N) h node index x :
  heap_wf sc h → heap_invariant sc h → node < size h → sc !! index = Some x →
  (0 < node → (x ≤ key sc (tree h) ((node - 1) / 2))%N) →
  ∃ h', secp256k1_sift_floyd sc h node index = Ret h' ∧
        secp256k1_sift_down sc h node index = Ret h'.
Proof.
  intros Hwf Hinv Hnode Hx Hpar.
  rewrite (sift_floyd_is_sift_down sc h node index x) by done.
  destruct (sift_down_spec sc h node index x) as (h' & Hrun & _); try done.
  by exists h'.
Qed.

(** C2 (as amended): the heap invariant holds after heap build, and on a heap
    satisfying it, it is preserved by every remove-root, replace-root and
    sift-floyd call, by a sift-down call whose candidate's scalar is not larger
    than the scalar of the parent of its node (any candidate at the root), and
    by a sift-up call whose candidate's scalar is not smaller than the scalars
    of the children of its node (any candidate at a leaf). *)
Theorem heap_invariant_maintained `{Gej gej} :
  (∀ h0 (scalars : list N) (pt : list gej) n,
     n ≤ SECP256K1_ECMULT_MULTI_MAX_N → n ≤ length scalars → n ≤ length pt →
     SECP256K1_ECMULT_MULTI_MAX_N ≤ length (tree h0) →
     ∃ h, secp256k1_heap_initialize h0 scalars pt n = Ret h ∧
          heap_wf scalars h ∧ heap_invariant scalars h) ∧
  (∀ (sc : list N) h node index x,
     heap_wf sc h → heap_invariant sc h → node < size h → sc !! index = Some x →
     (0 < node → (x ≤ key sc (tree h) ((node - 1) / 2))%N) →
     ∃ h', secp256k1_sift_down sc h node index = Ret h' ∧
           heap_wf sc h' ∧ heap_invariant sc h') ∧
  (∀ (sc : list N) h node index x,
     heap_wf sc h → heap_invariant sc h → node < size h → sc !! index = Some x →
     (∀ j, 0 < j < size h → (j - 1) / 2 = node → (key sc (tree h) j ≤ x)%N) →
     ∃ h', secp256k1_sift_up sc h node index = Ret h' ∧
           heap_wf sc h' ∧ heap_invariant sc h') ∧
  (∀ (sc : list N) h node index,
     heap_wf sc h → heap_invariant sc h → node < size h → index < length sc →
     ∃ h', secp256k1_sift_floyd sc h node index = Ret h' ∧
           heap_wf sc h' ∧ heap_invariant sc h') ∧
  (∀ (sc : list N) h index,
     heap_wf sc h → heap_invariant sc h → 0 < size h → index < length sc →
     ∃ root h', secp256k1_replace sc h index = Ret (root, h') ∧
           heap_wf sc h' ∧ heap_invariant sc h') ∧
  (∀ (sc : list N) h,
     heap_wf sc h → heap_invariant sc h → 0 < size h →
     ∃ root h', secp256k1_heap_remove sc h = Ret (root, h') ∧
           heap_wf sc h' ∧ heap_invariant sc h').
Proof.
  split_and!.
  - intros h0 scalars pt n ? ? ? ?.
    destruct (heap_initialize_spec h0 scalars pt n) as (h & ? & _ & ? & ? & _); try done.
    by exists h.
  - intros sc h node index x ? ? ? ? ?.
    destruct (sift_down_spec sc h node index x) as (h' & ? & _ & _ & ? & ? & _); try done.
    by exists h'.
  - intros sc h node index x ? ? ? ? ?.
    destruct (sift_up_spec sc h node index x) as (h' & ? & _ & _ & ? & ? & _); try done.
    by exists h'.
  - intros sc h node index ? ? ? Hidx.
    destruct (lookup_lt_is_Some_2 sc index) as [x Hx]; [done|].
    destruct (sift_floyd_spec sc h node index x) as (h' & ? & _ & ? & ?); try done.
    by exists h'.
  - intros sc h index ? ? ? Hidx.
    destruct (lookup_lt_is_Some_2 sc index) as [x Hx]; [done|].
    destruct (replace_spec sc h index x) as (root & h' & ? & _ & _ & _ & ? & ? & _); try done.
    by exists root, h'.
  - intros sc h ? ? ?.
    destruct (heap_remove_spec sc h) as (root & h' & ? & _ & _ & _ & ? & ? & _); try done.
    by exists root, h'.
Qed.

(** * Properties of the driver *)

Section DriverProperties.
Context `{Gej gej}.

(** ** Sums of terms *)

Section Algebra.
Hypothesis laws : gej_laws.

Local Notation "a ⊕ b" := (secp256k1_gej_add_var a b) (at level 50, left associativity).
Local Notation "'∞'" := secp256k1_gej_infinity.

Lemma gej_add_assoc a b c : a ⊕ (b ⊕ c) = a ⊕ b ⊕ c.
Proof. apply laws. Qed.

Lemma gej_add_comm a b : a ⊕ b = b ⊕ a.
Proof. apply laws. Qed.

Lemma gej_add_inf_l a : ∞ ⊕ a = a.
Proof. apply laws. Qed.

Lemma gej_add_inf_r a : a ⊕ ∞ = a.
Proof. by rewrite gej_add_comm, gej_add_inf_l. Qed.

Lemma gej_add_swap a b c : a ⊕ (b ⊕ c) = b ⊕ (a ⊕ c).
Proof. by rewrite !gej_add_assoc, (gej_add_comm a b). Qed.

Lemma smul_succ k p : smul (N.succ k) p = p ⊕ smul k p.
Proof. unfold smul. by rewrite N.iter_succ. Qed.

Lemma smul_add a b p : smul (a + b) p = smul a p ⊕ smul b p.
Proof.
  induction a as [|a IH] using N.peano_ind.
  - by rewrite N.add_0_l, gej_add_inf_l.
  - by rewrite N.add_succ_l, !smul_succ, IH, gej_add_assoc.
Qed.

Lemma smul_add_point k p q : smul k (p ⊕ q) = smul k p ⊕ smul k q.
Proof.
  induction k as [|k IH] using N.peano_ind.
  - by rewrite gej_add_inf_l.
  - rewrite !smul_succ, IH, <- !gej_add_assoc. f_equal. apply gej_add_swap.
Qed.

Lemma smul_infinity k : smul k ∞ = ∞.
Proof.
  induction k as [|k IH] using N.peano_ind; [done|].
  by rewrite smul_succ, IH, gej_add_inf_l.
Qed.

Lemma smul_double k p : smul k (secp256k1_gej_double_var p) = smul (2 * k) p.
Proof.
  destruct laws as (_ & _ & _ & -> & _).
  rewrite smul_add_point, <- smul_add. f_equal. lia.
Qed.

Lemma smul_1 p : smul 1 p = p.
Proof. apply gej_add_inf_r. Qed.

(** Double-and-add computes the multiple. *)
Lemma double_and_add_smul k p : double_and_add k p = smul k p.
Proof.
  destruct k as [|k]; [done|]. cbn [double_and_add].
  revert p. induction k as [k IH|k IH|]; intros p; cbn [double_and_add_pos].
  - rewrite IH, smul_double. change (N.pos k~1) with (N.succ (2 * N.pos k)).
    by rewrite smul_succ.
  - rewrite IH, smul_double. done.
  - by rewrite smul_1.
Qed.

Lemma gsum_cons (sc : list N) (pt : list gej) i l :
  gsum sc pt (i :: l) = smul (sc !!! i) (pt !!! i) ⊕ gsum sc pt l.
Proof. done. Qed.

Lemma gsum_perm (sc : list N) (pt : list gej) l1 l2 :
  l1 ≡ₚ l2 → gsum sc pt l1 = gsum sc pt l2.
Proof.
  intros Hperm. unfold gsum.
  apply (foldr_permutation_proper eq); [apply _| |done].
  intros a1 a2 b. apply gej_add_swap.
Qed.

Lemma gsum_filter (sc : list N) (pt : list gej) (P : nat → Prop) `{∀ i, Decision (P i)} l :
  (∀ i, i ∈ l → ¬ P i → smul (sc !!! i) (pt !!! i) = ∞) →
  gsum sc pt (filter P l) = gsum sc pt l.
Proof.
  induction l as [|i l IH]; intros Hzero; [done|].
  rewrite filter_cons, gsum_cons. case_decide.
  - rewrite gsum_cons, IH; [done|]. intros j Hj. apply Hzero. by right.
  - rewrite Hzero by (done || by left). rewrite gej_add_inf_l.
    apply IH. intros j Hj. apply Hzero. by right.
Qed.

Lemma naive_multi_gsum (sc : list N) (pt : list gej) :
  length sc = length pt → naive_multi sc pt = gsum sc pt (seq 0 (length sc)).
Proof.
  revert pt. induction sc as [|k sc IH]; intros [|p pt] Hlen; try done.
  cbn [naive_multi length seq]. rewrite gsum_cons, double_and_add_smul.
  cbn [lookup_total list_lookup_total]. f_equal.
  rewrite IH by (cbn in Hlen; lia).
  rewrite <- fmap_S_seq. generalize (seq 0 (length sc)). intros l.
  induction l as [|i l IHl]; [done|].
  rewrite fmap_cons, !gsum_cons, IHl. done.
Qed.
End Algebra.

Lemma gsum_ext (sc sc' : list N) (pt pt' : list gej) l :
  (∀ i, i ∈ l → sc' !!! i = sc !!! i ∧ pt' !!! i = pt !!! i) →
  gsum sc' pt' l = gsum sc pt l.
Proof.
  induction l as [|i l IH]; intros Hsame; [done|].
  unfold gsum in *. cbn [foldr].
  destruct (Hsame i) as [-> ->]; [by left|].
  rewrite IH; [done|]. intros j Hj. apply Hsame. by right.
Qed.

(** ** The heap as seen from the driver *)

Lemma key_total (sc : list N) (t : list nat) i a :
  t !! i = Some a → a < length sc → key sc t i = sc !!! a.
Proof.
  intros Hi Ha. eapply key_lookup; [done|]. by apply list_lookup_lookup_total_lt.
Qed.

Lemma elements_lookup h a :
  a ∈ heap_elements h ↔ ∃ i, i < size h ∧ tree h !! i = Some a.
Proof.
  unfold heap_elements. rewrite elem_of_take.
  split; intros (i & ? & ?); by exists i.
Qed.

Lemma elements_head h a :
  0 < size h → tree h !! 0 = Some a →
  heap_elements h = a :: take (size h - 1) (drop 1 (tree h)).
Proof.
  intros Hsize Ha. unfold heap_elements.
  destruct (tree h) as [|b t]; [done|]. destruct (size h) as [|k]; [lia|].
  simplify_eq/=. by rewrite Nat.sub_0_r, drop_0.
Qed.

Lemma elements_bound (sc : list N) h a :
  heap_wf sc h → a ∈ heap_elements h → a < length sc.
Proof. intros [_ Hall] Ha. rewrite Forall_forall in Hall. by apply Hall. Qed.

(** Every index in the heap has a scalar not above the root's. *)
Lemma root_dominates (sc : list N) h second a :
  heap_wf sc h → heap_invariant sc h → tree h !! 0 = Some second →
  a ∈ heap_elements h → (sc !!! a ≤ sc !!! second)%N.
Proof.
  intros Hwf Hinv Hroot Ha.
  assert (a < length sc) by (by eapply elements_bound).
  apply elements_lookup in Ha as (i & Hi & Hia).
  assert (second < length sc).
  { eapply elements_bound; [done|]. apply elements_lookup. exists 0. split; [lia|done]. }
  rewrite <- (key_total sc (tree h) i a), <- (key_total sc (tree h) 0 second) by done.
  by apply heap_root_max.
Qed.

(** Changing the scalar of an index outside the heap leaves the heap valid:
    the heap only looks at the scalars of the indices it holds. *)
Lemma heap_sc_insert (sc : list N) h j d :
  j ∉ heap_elements h → heap_wf sc h → heap_invariant sc h →
  heap_wf (<[j:=d]> sc) h ∧ heap_invariant (<[j:=d]> sc) h.
Proof.
  intros Hj [Hlen Hall] Hinv.
  assert (∀ i, i < size h → key (<[j:=d]> sc) (tree h) i = key sc (tree h) i) as Hkey.
  { intros i Hi. unfold key.
    destruct (tree h !! i) as [a|] eqn:Ha; [|done]. cbn.
    rewrite list_lookup_insert_ne; [done|].
    intros ->. apply Hj, elements_lookup. eauto. }
  split.
  - split; [done|]. by rewrite length_insert.
  - intros i Hi. rewrite !Hkey by lia. by apply Hinv.
Qed.

Lemma sum_list_with_ext_in {A} (f g : A → nat) l :
  (∀ x, x ∈ l → f x = g x) → sum_list_with f l = sum_list_with g l.
Proof.
  induction l as [|x l IH]; intros Hfg; [done|]. cbn.
  rewrite Hfg by (by left). rewrite IH; [done|]. intros y Hy. apply Hfg. by right.
Qed.

(** ** One pass through the do-body *)

Lemma reduced_spec n s second :
  control_inv n (AtDo s second) →
  let s1 := reduced s second in
  d_first s ≠ second ∧ second < n ∧
  (d_sc s !!! second ≤ d_sc s !!! d_first s)%N ∧ d_sc s !!! second ≠ 0%N ∧
  d_sc s1 !!! d_first s = (d_sc s !!! d_first s - d_sc s !!! second)%N ∧
  (∀ i, i ∈ heap_elements (d_heap s) → d_sc s1 !!! i = d_sc s !!! i) ∧
  state_inv n s1 ∧
  scalar_total s1 + N.to_nat (d_sc s !!! second) = scalar_total s ∧
  (gej_laws → gsum (d_sc s1) (d_pt s1) (live s1) = gsum (d_sc s) (d_pt s) (live s)).
Proof.
  intros ((Hlsc & Hlpt & Hwf & Hinv & Hnd & Hfirst & Hnz) & Hsize & Hroot & Hle) s1.
  pose proof (elements_head _ _ Hsize Hroot) as Hel.
  set (rest := take (size (d_heap s) - 1) (drop 1 (tree (d_heap s)))) in *.
  unfold live in Hnd. rewrite Hel in Hnd, Hnz.
  apply NoDup_cons in Hnd as [Hf Hnd]. apply NoDup_cons in Hnd as [Hs Hnd].
  apply not_elem_of_cons in Hf as [Hne Hf].
  apply Forall_cons in Hnz as [Hsnz Hnz].
  assert (second < n) as Hsecond.
  { rewrite <- Hlsc. eapply elements_bound; [done|]. rewrite Hel. by left. }
  assert (∀ i, i ∈ heap_elements (d_heap s) → d_sc s1 !!! i = d_sc s !!! i) as Hsame.
  { intros i Hi. unfold s1, reduced. cbn [d_sc].
    apply list_lookup_total_insert_ne. intros <-. rewrite Hel in Hi.
    apply elem_of_cons in Hi as [?|?]; done. }
  assert (d_sc s1 !!! d_first s = (d_sc s !!! d_first s - d_sc s !!! second)%N) as Hsf.
  { unfold s1, reduced. cbn [d_sc]. apply list_lookup_total_insert_eq. lia. }
  split_and!; try done.
  - destruct (heap_sc_insert (d_sc s) (d_heap s) (d_first s)
                (d_sc s !!! d_first s - d_sc s !!! second)%N) as [Hwf' Hinv']; try done.
    { rewrite Hel. by apply not_elem_of_cons. }
    unfold s1, reduced. split_and!; cbn [d_sc d_pt d_heap d_first]; try done.
    + by rewrite length_insert.
    + by rewrite length_insert.
    + unfold live. cbn [d_first d_heap]. rewrite Hel.
      apply NoDup_cons. split; [by apply not_elem_of_cons|]. by apply NoDup_cons.
    + apply Forall_forall. intros i Hi.
      change (d_sc s1 !!! i ≠ 0%N). rewrite Hsame by done.
      rewrite Hel in Hi. apply elem_of_cons in Hi as [->|Hi]; [done|].
      rewrite Forall_forall in Hnz. by apply Hnz.
  - unfold scalar_total, live. change (d_first s1) with (d_first s).
    change (d_heap s1) with (d_heap s). cbn [sum_list_with].
    rewrite Hsf.
    rewrite (sum_list_with_ext_in _ (λ i, N.to_nat (d_sc s !!! i)) (heap_elements _))
      by (intros i Hi; by rewrite Hsame).
    lia.
  - intros laws. unfold live. change (d_first s1) with (d_first s).
    change (d_heap s1) with (d_heap s). rewrite Hel.
    rewrite !gsum_cons, Hsf.
    rewrite (Hsame second) by (rewrite Hel; by left).
    assert (d_pt s1 !!! d_first s = d_pt s !!! d_first s) as ->.
    { unfold s1, reduced. cbn [d_pt]. by apply list_lookup_total_insert_ne. }
    assert (d_pt s1 !!! second
            = secp256k1_gej_add_var (d_pt s !!! d_first s) (d_pt s !!! second)) as ->.
    { unfold s1, reduced. cbn [d_pt]. apply list_lookup_total_insert_eq. lia. }
    rewrite (gsum_ext (d_sc s) (d_sc s1) (d_pt s) (d_pt s1) rest).
    2:{ intros i Hi. split.
        - apply Hsame. rewrite Hel. by right.
        - unfold s1, reduced. cbn [d_pt]. apply list_lookup_total_insert_ne.
          by intros <-. }
    replace (d_sc s !!! d_first s)
      with ((d_sc s !!! d_first s - d_sc s !!! second) + d_sc s !!! second)%N at 2 by lia.
    rewrite smul_add, smul_add_point by done.
    by rewrite !gej_add_assoc by done.
Qed.

Lemma reduce_unfold n s second :
  control_inv n (AtDo s second) →
  let s1 := reduced s second in
  reduce s second =
    if (0 <=? secp256k1_scalar_cmp_var (d_sc s1 !!! d_first s) (d_sc s1 !!! second))%Z
    then Ret (AtDo s1 second)
    else if secp256k1_scalar_is_zero (d_sc s1 !!! d_first s) then
      '(first, heap) ← secp256k1_heap_remove (d_sc s1) (d_heap s);
      Ret (AtWhile (mk_state (d_sc s1) (d_pt s1) heap first (d_r s)))
    else
      '(first, heap) ← secp256k1_replace (d_sc s1) (d_heap s) (d_first s);
      Ret (AtWhile (mk_state (d_sc s1) (d_pt s1) heap first (d_r s))).
Proof.
  intros Hinv s1.
  destruct (reduced_spec n s second Hinv) as (Hne & Hsecond & Hle & _ & Hsf & Hsame & _).
  destruct Hinv as ((Hlsc & Hlpt & Hwf & _ & _ & Hfirst & _) & Hsize & Hroot & _).
  unfold reduce.
  rewrite (rd_Ret (d_pt s) (d_first s) (d_pt s !!! d_first s))
    by (apply list_lookup_lookup_total_lt; lia).
  ret_bind.
  rewrite (rd_Ret (d_pt s) second (d_pt s !!! second))
    by (apply list_lookup_lookup_total_lt; lia).
  ret_bind. rewrite wr_Ret by lia. ret_bind.
  rewrite (rd_Ret (d_sc s) (d_first s) (d_sc s !!! d_first s))
    by (apply list_lookup_lookup_total_lt; lia).
  ret_bind.
  rewrite (rd_Ret (d_sc s) second (d_sc s !!! second))
    by (apply list_lookup_lookup_total_lt; lia).
  ret_bind. unfold secp256k1_scalar_numsub.
  apply N.leb_le in Hle. rewrite Hle. ret_bind. rewrite wr_Ret by lia. ret_bind.
  change (<[d_first s:=(d_sc s !!! d_first s - d_sc s !!! second)%N]> (d_sc s))
    with (d_sc s1).
  change (<[second:=secp256k1_gej_add_var (d_pt s !!! d_first s) (d_pt s !!! second)]>
            (d_pt s)) with (d_pt s1).
  assert (length (d_sc s1) = n) as Hl1 by (unfold s1, reduced; cbn; by rewrite length_insert).
  rewrite (rd_Ret (d_sc s1) (d_first s) (d_sc s1 !!! d_first s))
    by (apply list_lookup_lookup_total_lt; lia).
  ret_bind.
  rewrite (rd_Ret (d_sc s1) second (d_sc s1 !!! second))
    by (apply list_lookup_lookup_total_lt; lia).
  ret_bind. done.
Qed.

Lemma reduce_step n s second :
  control_inv n (AtDo s second) →
  ∃ c', reduce s second = Ret c' ∧ step_ok n (AtDo s second) c'.
Proof.
  intros Hinv. rewrite (reduce_unfold n s second Hinv).
  destruct (reduced_spec n s second Hinv)
    as (Hne & Hsecond & Hle & Hsnz & Hsf & Hsame & Hinv1 & Htotal & Hval).
  set (s1 := reduced s second) in *.
  destruct Hinv as (Hinv0 & Hsize & Hroot & _).
  pose proof Hinv1 as (Hlsc & Hlpt & Hwf & Hheap & Hnd & Hfirst & Hnz).
  change (d_heap s1) with (d_heap s) in *. change (d_first s1) with (d_first s) in *.
  assert (second ∈ heap_elements (d_heap s)) as Hsec_in.
  { apply elements_lookup. exists 0. split; [lia|done]. }
  assert (d_sc s1 !!! second ≠ 0%N) as Hsnz1 by (by rewrite Hsame).
  destruct (0 <=? secp256k1_scalar_cmp_var _ _)%Z eqn:Hc.
  - (* the do-while loop goes round again *)
    apply cmp_ge in Hc. eexists; split; [done|]. split_and!.
    + done.
    + intros _. cbn [weight]. lia.
    + intros laws. cbn [value]. f_equal. by apply Hval.
    + intros s0 s' [= <-] [= <-] i Hi. by apply Hsame.
  - apply cmp_ge_false in Hc.
    destruct (secp256k1_scalar_is_zero (d_sc s1 !!! d_first s)) eqn:Hz.
    + (* first is used up: the root becomes the index in hand *)
      apply N.eqb_eq in Hz.
      destruct (heap_remove_spec (d_sc s1) (d_heap s))
        as (root & h' & -> & Hroot' & Hsz & Hlen & Hwf' & Hheap' & Hperm); try done.
      assert (root = second) as -> by congruence.
      ret_bind. eexists; split; [done|].
      assert (NoDup (second :: heap_elements h')) as Hnd'.
      { rewrite Hperm. unfold live in Hnd. by apply NoDup_cons in Hnd as [_ ?]. }
      assert (∀ a, a ∈ heap_elements h' → a ∈ heap_elements (d_heap s)) as Hsub.
      { intros a Ha. rewrite <- Hperm. by right. }
      split_and!.
      * split_and!; [split_and!|..]; cbn [d_sc d_pt d_heap d_first]; try done.
        -- apply Forall_forall. intros a Ha. rewrite Forall_forall in Hnz.
           apply Hnz. by apply Hsub.
        -- apply Forall_forall. intros a Ha.
           apply (root_dominates (d_sc s1) (d_heap s)); try done. by apply Hsub.
      * intros _. cbn [weight].
        assert (scalar_total (mk_state (d_sc s1) (d_pt s1) h' second (d_r s))
                = scalar_total s1) as ->; [|lia].
        unfold scalar_total, live. cbn [d_sc d_heap d_first]. rewrite Hperm.
        change (d_first s1) with (d_first s). change (d_heap s1) with (d_heap s).
        cbn [sum_list_with]. rewrite Hz. done.
      * intros laws. cbn [value d_r d_sc d_pt]. f_equal. rewrite <- Hval by done.
        unfold live. cbn [d_heap d_first]. change (d_first s1) with (d_first s).
        change (d_heap s1) with (d_heap s).
        rewrite (gsum_perm laws _ _ _ _ Hperm), gsum_cons by done.
        rewrite Hz. cbn [smul N.iter]. by rewrite gej_add_inf_l.
      * intros s0 s' [= <-] [= <-] i Hi. by apply Hsame.
    + (* first goes back into the heap in exchange for the root *)
      apply N.eqb_neq in Hz.
      destruct (replace_spec (d_sc s1) (d_heap s) (d_first s) (d_sc s1 !!! d_first s))
        as (root & h' & -> & Hroot' & Hsz & Hlen & Hwf' & Hheap' & Hperm); try done.
      { apply list_lookup_lookup_total_lt. lia. }
      assert (root = second) as -> by congruence.
      ret_bind. eexists; split; [done|].
      assert (∀ a, a ∈ heap_elements h' →
                a = d_first s ∨ a ∈ heap_elements (d_heap s)) as Hsub.
      { intros a Ha. apply elem_of_cons. rewrite <- Hperm. by right. }
      split_and!.
      * split_and!; [split_and!|..]; cbn [d_sc d_pt d_heap d_first]; try done.
        -- unfold live. cbn [d_first d_heap]. by rewrite Hperm.
        -- apply Forall_forall. intros a Ha. rewrite Forall_forall in Hnz.
           destruct (Hsub a Ha) as [->|?]; [done|by apply Hnz].
        -- apply Forall_forall. intros a Ha.
           destruct (Hsub a Ha) as [->|?]; [lia|].
           by apply (root_dominates (d_sc s1) (d_heap s)).
      * intros _. cbn [weight].
        assert (scalar_total (mk_state (d_sc s1) (d_pt s1) h' second (d_r s))
                = scalar_total s1) as ->; [|lia].
        unfold scalar_total, live. cbn [d_sc d_heap d_first]. by rewrite Hperm.
      * intros laws. cbn [value d_r d_sc d_pt]. f_equal. rewrite <- Hval by done.
        unfold live. cbn [d_heap d_first]. change (d_first s1) with (d_first s).
        change (d_heap s1) with (d_heap s).
        by apply gsum_perm.
      * intros s0 s' [= <-] [= <-] i Hi. by apply Hsame.
Qed.

(** ** The loop test and the finishing ladder *)

Lemma while_step n s :
  control_inv n (AtWhile s) →
  ∃ c', step (AtWhile s) = Ret c' ∧ step_ok n (AtWhile s) c'.
Proof.
  intros (Hinv & Hfnz & Hdom).
  pose proof Hinv as (Hlsc & Hlpt & Hwf & Hheap & Hnd & Hfirst & Hnz).
  cbn [step]. destruct (decide (0 < size (d_heap s))) as [Hsize|Hempty].
  - destruct (lookup_lt_is_Some_2 (tree (d_heap s)) 0) as [second Hroot];
      [destruct Hwf; lia|].
    rewrite (rd_Ret _ _ _ Hroot). ret_bind. eexists; split; [done|]. split_and!.
    + split_and!; try done. rewrite Forall_forall in Hdom. apply Hdom.
      apply elements_lookup. exists 0. split; [lia|done].
    + intros _. cbn [weight]. lia.
    + done.
    + by intros s0 s' [= <-] [= <-] i Hi.
  - rewrite (rd_Ret (d_sc s) (d_first s) (d_sc s !!! d_first s))
      by (apply list_lookup_lookup_total_lt; lia).
    ret_bind. unfold secp256k1_scalar_is_zero.
    apply N.eqb_neq in Hfnz. rewrite Hfnz. apply N.eqb_neq in Hfnz.
    eexists; split; [done|]. split_and!.
    + split_and!; try done. lia.
    + intros _. cbn [weight]. unfold scalar_total, live. cbn [sum_list_with]. lia.
    + intros laws. cbn [value]. f_equal. unfold live, heap_elements.
      replace (size (d_heap s)) with 0 by lia. rewrite take_0, gsum_cons.
      change (gsum (d_sc s) (d_pt s) []) with secp256k1_gej_infinity.
      by rewrite gej_add_inf_r.
    + by intros s0 s' [= <-] [= <-] i Hi.
Qed.

Lemma shr_int_1 sf :
  secp256k1_scalar_shr_int sf 1 = ((sf / 2)%N, (sf mod 2)%N).
Proof.
  unfold secp256k1_scalar_shr_int. by rewrite N.shiftr_div_pow2, N.land_ones.
Qed.

Lemma ladder_step n s :
  control_inv n (AtLadder s) →
  ∃ c', step (AtLadder s) = Ret c' ∧ step_ok n (AtLadder s) c'.
Proof.
  intros (Hlsc & Hlpt & Hfirst & Hsize & Hfnz).
  assert (heap_elements (d_heap s) = []) as Hnil.
  { unfold heap_elements. by rewrite Hsize, take_0. }
  cbn [step]. unfold ladder.
  set (sf := d_sc s !!! d_first s) in *. set (p := d_pt s !!! d_first s).
  rewrite (rd_Ret (d_sc s) (d_first s) sf) by (apply list_lookup_lookup_total_lt; lia).
  ret_bind. rewrite shr_int_1. rewrite wr_Ret by lia. ret_bind.
  rewrite !(rd_Ret (d_pt s) (d_first s) p) by (apply list_lookup_lookup_total_lt; lia).
  ret_bind. rewrite !wr_Ret by lia. ret_bind.
  assert (<[d_first s:=(sf / 2)%N]> (d_sc s) !!! d_first s = (sf / 2)%N) as Hq.
  { apply list_lookup_total_insert_eq. lia. }
  assert (sf = 2 * (sf / 2) + sf mod 2)%N as Hdiv by lia.
  assert (∀ r, step_ok n (AtLadder s)
            (AtLadder (mk_state (<[d_first s:=(sf / 2)%N]> (d_sc s))
                                (<[d_first s:=secp256k1_gej_double_var p]> (d_pt s))
                                (d_heap s) (d_first s) r)) ↔
          (sf / 2)%N ≠ 0%N ∧
          (gej_laws → secp256k1_gej_add_var r (smul (2 * (sf / 2)) p)
                      = secp256k1_gej_add_var (d_r s) (smul sf p))) as Hdouble.
  { intros r. unfold step_ok. cbn [control_inv control_state weight value d_sc d_pt d_heap
                                  d_first d_r].
    rewrite Hq, !length_insert, list_lookup_total_insert_eq by lia.
    split.
    - intros ((_ & _ & _ & _ & ?) & _ & Hv & _). split; [done|].
      intros laws. by rewrite <- smul_double, Hv.
    - intros [Hnz Hv]. split_and!; try done.
      + intros _. fold sf. lia.
      + intros laws. rewrite smul_double by done. by apply Hv.
      + intros s0 s' [= <-] [= <-] i Hi. rewrite Hnil in Hi. by apply elem_of_nil in Hi. }
  destruct (sf mod 2 =? 1)%N eqn:Hbit.
  - apply N.eqb_eq in Hbit.
    rewrite (rd_Ret (<[d_first s:=(sf / 2)%N]> (d_sc s)) (d_first s) (sf / 2)%N)
      by (apply list_lookup_insert_eq; lia).
    ret_bind. unfold secp256k1_scalar_is_zero.
    destruct (sf / 2 =? 0)%N eqn:Hz.
    + apply N.eqb_eq in Hz. eexists; split; [done|]. split_and!.
      * done.
      * intros _. cbn [weight]. fold sf. lia.
      * intros laws. cbn [value]. fold sf p. replace sf with 1%N by lia.
        by rewrite smul_1.
      * by intros s0 s' _ [=].
    + apply N.eqb_neq in Hz. eexists; split; [done|]. apply Hdouble. split; [done|].
      intros laws. rewrite Hdiv at 2. rewrite Hbit.
      replace (2 * (sf / 2) + 1)%N with (N.succ (2 * (sf / 2))) by lia.
      by rewrite smul_succ, gej_add_assoc.
  - apply N.eqb_neq in Hbit. eexists; split; [done|]. apply Hdouble. split; [lia|].
    intros laws. rewrite Hdiv at 2. replace (sf mod 2)%N with 0%N by lia.
    by rewrite N.add_0_r.
Qed.

(** Every step from a control point satisfying the invariant succeeds. *)
Lemma step_spec n c :
  control_inv n c → ∃ c', step c = Ret c' ∧ step_ok n c c'.
Proof.
  destruct c as [s|s second|s|r]; intros Hinv.
  - by apply while_step.
  - by apply reduce_step.
  - by apply ladder_step.
  - exists (Returned r). split; [done|]. split_and!; try done.
    by intros [? [=]].
Qed.

(** The ladder returns exactly when it consumes the last set bit. *)
Lemma ladder_exit n s :
  control_inv n (AtLadder s) →
  (∃ r, step (AtLadder s) = Ret (Returned r)) ↔ d_sc s !!! d_first s = 1%N.
Proof.
  intros (Hlsc & Hlpt & Hfirst & Hsize & Hfnz).
  cbn [step]. unfold ladder.
  set (sf := d_sc s !!! d_first s) in *. set (p := d_pt s !!! d_first s).
  rewrite (rd_Ret (d_sc s) (d_first s) sf) by (apply list_lookup_lookup_total_lt; lia).
  ret_bind. rewrite shr_int_1. rewrite wr_Ret by lia. ret_bind.
  rewrite !(rd_Ret (d_pt s) (d_first s) p) by (apply list_lookup_lookup_total_lt; lia).
  ret_bind. rewrite !wr_Ret by lia. ret_bind.
  rewrite (rd_Ret (<[d_first s:=(sf / 2)%N]> (d_sc s)) (d_first s) (sf / 2)%N)
    by (apply list_lookup_insert_eq; lia).
  ret_bind. unfold secp256k1_scalar_is_zero.
  destruct (sf mod 2 =? 1)%N eqn:Hbit; [destruct (sf / 2 =? 0)%N eqn:Hz|].
  - apply N.eqb_eq in Hbit, Hz. split; [lia|]. intros _. by eexists.
  - apply N.eqb_neq in Hz. split; [by intros [r [=]]|lia].
  - apply N.eqb_neq in Hbit. split; [by intros [r [=]]|]. intros ->. done.
Qed.

(** ** Running the driver *)

Lemma steps_inv n c0 c : control_inv n c0 → steps c0 c → control_inv n c.
Proof.
  intros Hinv Hsteps. induction Hsteps as [|c1 c2 c3 _ IH Hstep]; [done|].
  destruct (step_spec n c2 (IH Hinv)) as (c' & Hstep' & Hok & _).
  rewrite Hstep in Hstep'. by simplify_eq.
Qed.

(** From a control point satisfying the invariant, a run with fuel above the
    weight returns, and it returns the value of the control point. *)
Lemma run_spec n fuel :
  ∀ c, control_inv n c → weight c ≤ fuel →
    ∃ r, run fuel c = Ret r ∧ (gej_laws → r = value c).
Proof.
  induction fuel as [|fuel IH]; intros c Hinv Hfuel.
  - destruct (step_spec n c Hinv) as (c' & Hstep & _ & Hlt & _).
    destruct c as [s|s second|s|r]; try (specialize (Hlt ltac:(by eexists)); lia).
    by exists r.
  - destruct (step_spec n c Hinv) as (c' & Hstep & Hinv' & Hlt & Hval & _).
    destruct c as [s|s second|s|r]; [| | |by exists r];
      cbn [run]; rewrite Hstep; ret_bind;
      (destruct (IH c' Hinv') as (r & Hrun & Hr);
        [specialize (Hlt ltac:(by eexists)); lia|]);
      exists r; (split; [done|]); intros laws; rewrite Hr, Hval; done.
Qed.

(** A run never faults, whatever the fuel. *)
Lemma run_no_fault n fuel :
  ∀ c, control_inv n c → run fuel c = Timeout ∨ ∃ r, run fuel c = Ret r.
Proof.
  induction fuel as [|fuel IH]; intros c Hinv.
  - destruct c; cbn [run]; eauto.
  - destruct (step_spec n c Hinv) as (c' & Hstep & Hinv' & _).
    destruct c as [s|s second|s|r]; [| | |right; by exists r];
      cbn [run]; rewrite Hstep; ret_bind; by apply IH.
Qed.

Lemma sum_list_with_filter_le {A} (f : A → nat) (P : A → Prop) `{∀ x, Decision (P x)} l :
  sum_list_with f (filter P l) ≤ sum_list_with f l.
Proof.
  induction l as [|x l IH]; [done|]. rewrite filter_cons.
  case_decide; cbn [sum_list_with]; lia.
Qed.

Lemma sum_list_with_seq_lookup (f : N → nat) (sc : list N) :
  sum_list_with (λ i, f (sc !!! i)) (seq 0 (length sc)) = sum_list_with f sc.
Proof.
  induction sc as [|k sc IH]; [done|]. cbn [length seq sum_list_with].
  rewrite <- IH, <- fmap_S_seq. f_equal.
  generalize (seq 0 (length sc)). intros l.
  induction l as [|i l IHl]; [done|]. cbn. by rewrite IHl.
Qed.

(** ** Entering the loop *)

Lemma inactive_term (sc : list N) (pt : list gej) n i :
  gej_laws → length sc = n → length pt = n → i < n →
  ¬ is_active sc pt i → smul (sc !!! i) (pt !!! i) = secp256k1_gej_infinity.
Proof.
  intros laws Hlsc Hlpt Hi Hact. unfold is_active in Hact.
  rewrite (list_lookup_lookup_total_lt sc i), (list_lookup_lookup_total_lt pt i) in Hact
    by lia.
  destruct (secp256k1_scalar_is_zero (sc !!! i)) eqn:Hz.
  - unfold secp256k1_scalar_is_zero in Hz. apply N.eqb_eq in Hz. by rewrite Hz.
  - destruct (secp256k1_gej_is_infinity (pt !!! i)) eqn:Hinf; [|by destruct Hact].
    pose proof laws as (_ & _ & _ & _ & Hspec). apply Hspec in Hinf. rewrite Hinf.
    by apply smul_infinity.
Qed.

Lemma enter_spec heap0 (sc : list N) (pt : list gej) n :
  n ≤ SECP256K1_ECMULT_MULTI_MAX_N → length sc = n → length pt = n →
  SECP256K1_ECMULT_MULTI_MAX_N ≤ length (tree heap0) →
  ∃ c0, enter heap0 sc pt n = Ret c0 ∧ control_inv n c0 ∧
    weight c0 ≤ fuel_bound sc ∧
    (gej_laws → value c0 = gsum sc pt (seq 0 n)) ∧
    (active_indices sc pt n = [] → c0 = Returned secp256k1_gej_infinity).
Proof.
  intros Hn Hlsc Hlpt Ht. unfold enter.
  destruct (heap_initialize_spec heap0 sc pt n) as (h & -> & Hlen & Hwf & Hinv & Hperm);
    [done|lia|lia|done|].
  ret_bind.
  assert (gej_laws → gsum sc pt (seq 0 n) = gsum sc pt (heap_elements h)) as Hsum.
  { intros laws. rewrite (gsum_perm laws _ _ _ _ Hperm). unfold active_indices.
    symmetry. apply gsum_filter; [done|]. intros i Hi Hact.
    apply elem_of_seq in Hi. eapply inactive_term; try done. lia. }
  destruct (decide (size h = 0)) as [Hempty|Hsize].
  - eexists; split; [done|]. split_and!; try done.
    + cbn [weight]. lia.
    + intros laws. rewrite Hsum by done. unfold heap_elements.
      by rewrite Hempty, take_0.
  - destruct (heap_remove_spec sc h) as (first & h' & -> & Hroot & Hsz & _ & Hwf' & Hinv' & Hperm');
      [done|done|lia|].
    ret_bind. eexists; split; [done|].
    assert (∀ a, a ∈ first :: heap_elements h' →
              a < n ∧ sc !!! a ≠ 0%N ∧ (sc !!! a ≤ sc !!! first)%N) as Hfacts.
    { intros a Ha. rewrite Hperm' in Ha.
      split_and!.
      - rewrite Hperm in Ha. by apply active_indices_spec in Ha as [? _].
      - rewrite Hperm in Ha. apply active_indices_spec in Ha as [? (x & _ & Hx & _ & ? & _)].
        by rewrite (list_lookup_total_correct _ _ _ Hx).
      - by apply (root_dominates sc h). }
    split_and!.
    + split_and!; [split_and!|..]; cbn [d_sc d_pt d_heap d_first]; try done.
      * unfold live. cbn [d_first d_heap]. rewrite Hperm', Hperm.
        apply active_indices_NoDup.
      * apply Hfacts. by left.
      * apply Forall_forall. intros a Ha. apply Hfacts. by right.
      * apply Hfacts. by left.
      * apply Forall_forall. intros a Ha. apply Hfacts. by right.
    + cbn [weight]. unfold fuel_bound, scalar_total, live. cbn [d_sc d_first d_heap].
      rewrite Hperm', Hperm. unfold active_indices.
      pose proof (sum_list_with_filter_le (λ i, N.to_nat (sc !!! i))
                    (λ i, Is_true (is_active sc pt i)) (seq 0 n)) as Hle.
      rewrite <- Hlsc, sum_list_with_seq_lookup in Hle. rewrite <- Hlsc. lia.
    + intros laws. cbn [value d_r d_sc d_pt]. rewrite gej_add_inf_l by done.
      rewrite Hsum by done. unfold live. cbn [d_first d_heap].
      by apply gsum_perm.
    + intros Hnone. rewrite Hnone in Hperm. rewrite Hperm in Hperm'.
      symmetry in Hperm'. by apply Permutation_nil_cons in Hperm'.
Qed.

Lemma reachable_inv heap0 (sc : list N) (pt : list gej) n c :
  n ≤ SECP256K1_ECMULT_MULTI_MAX_N → length sc = n → length pt = n →
  SECP256K1_ECMULT_MULTI_MAX_N ≤ length (tree heap0) →
  reachable heap0 sc pt n c → control_inv n c.
Proof.
  intros Hn Hlsc Hlpt Ht (c0 & Henter & Hsteps).
  destruct (enter_spec heap0 sc pt n) as (c0' & Henter' & Hinv & _); try done.
  rewrite Henter in Henter'. simplify_eq. by eapply steps_inv.
Qed.

(** * Main theorems: the driver *)

(** C1: for every n in [0, MAX_N] and all scalar and point arrays of that
    length, the multi-multiplication returns the sum over i of
    scalars[i]·points[i], namely what the naive reference returns that computes
    each term by its own double-and-add and adds the results.  (The points
    are those of any commutative group law; the fuel only has to cover twice
    the sum of the scalars.) *)
Theorem ecmult_multi_correct heap0 (sc : list N) (pt : list gej) n fuel :
  gej_laws →
  n ≤ SECP256K1_ECMULT_MULTI_MAX_N → length sc = n → length pt = n →
  length (tree heap0) = SECP256K1_ECMULT_MULTI_MAX_N →
  fuel_bound sc ≤ fuel →
  secp256k1_ecmult_multi fuel heap0 sc pt n = Ret (naive_multi sc pt).
Proof.
  intros laws Hn Hlsc Hlpt Ht Hfuel. unfold secp256k1_ecmult_multi.
  destruct (enter_spec heap0 sc pt n) as (c0 & -> & Hinv & Hw & Hval & _); try done; [lia|].
  ret_bind.
  destruct (run_spec n fuel c0 Hinv) as (r & -> & Hr); [lia|].
  rewrite Hr, Hval by done. rewrite naive_multi_gsum by (done || lia).
  by rewrite Hlsc.
Qed.

(** C4: for every input with n <= MAX_N the multi-multiplication terminates:
    a run with fuel covering twice the sum of the scalars returns; from every
    control point an execution passes through, at most [weight] further steps
    are taken; and the finishing ladder is entered with a non-zero scalar and
    returns exactly at the step that consumes its last set bit. *)
Theorem ecmult_multi_terminates heap0 (sc : list N) (pt : list gej) n :
  n ≤ SECP256K1_ECMULT_MULTI_MAX_N → length sc = n → length pt = n →
  length (tree heap0) = SECP256K1_ECMULT_MULTI_MAX_N →
  (∀ fuel, fuel_bound sc ≤ fuel →
     ∃ r, secp256k1_ecmult_multi fuel heap0 sc pt n = Ret r) ∧
  (∀ c, reachable heap0 sc pt n c → ∃ r, run (weight c) c = Ret r) ∧
  (∀ s, reachable heap0 sc pt n (AtLadder s) →
     d_sc s !!! d_first s ≠ 0%N ∧
     ((∃ r, step (AtLadder s) = Ret (Returned r)) ↔ d_sc s !!! d_first s = 1%N)).
Proof.
  intros Hn Hlsc Hlpt Ht. split_and!.
  - intros fuel Hfuel. unfold secp256k1_ecmult_multi.
    destruct (enter_spec heap0 sc pt n) as (c0 & -> & Hinv & Hw & _); try done; [lia|].
    ret_bind. destruct (run_spec n fuel c0 Hinv) as (r & -> & _); [lia|]. by exists r.
  - intros c Hreach.
    assert (control_inv n c) as Hinv by (eapply reachable_inv; try done; lia).
    destruct (run_spec n (weight c) c Hinv) as (r & ? & _); [done|]. by exists r.
  - intros s Hreach.
    assert (control_inv n (AtLadder s)) as Hinv by (eapply reachable_inv; try done; lia).
    split; [apply Hinv|]. by eapply ladder_exit.
Qed.

(** C3: at every call of the non-modular subtraction in the reduction loop,
    the first pass through the do-body included, the minuend [sc[first]] is
    not smaller than the subtrahend [sc[second]]; no run ever reports an
    underflow. *)
Theorem numsub_precondition heap0 (sc : list N) (pt : list gej) n :
  n ≤ SECP256K1_ECMULT_MULTI_MAX_N → length sc = n → length pt = n →
  length (tree heap0) = SECP256K1_ECMULT_MULTI_MAX_N →
  (∀ s second, reachable heap0 sc pt n (AtDo s second) →
     ∃ a b, rd (d_sc s) (d_first s) = Ret a ∧ rd (d_sc s) second = Ret b ∧
            (b ≤ a)%N ∧ secp256k1_scalar_numsub a b = Ret (a - b)%N) ∧
  (∀ fuel, secp256k1_ecmult_multi fuel heap0 sc pt n ≠ Fault Underflow).
Proof.
  intros Hn Hlsc Hlpt Ht. split.
  - intros s second Hreach.
    assert (control_inv n (AtDo s second)) as Hinv by (eapply reachable_inv; try done; lia).
    destruct (reduced_spec n s second Hinv) as (_ & Hsecond & Hle & _).
    destruct Hinv as ((Hlsc' & _ & _ & _ & _ & Hfirst & _) & _).
    exists (d_sc s !!! d_first s), (d_sc s !!! second). split_and!.
    + apply rd_Ret, list_lookup_lookup_total_lt. lia.
    + apply rd_Ret, list_lookup_lookup_total_lt. lia.
    + done.
    + unfold secp256k1_scalar_numsub. apply N.leb_le in Hle. by rewrite Hle.
  - intros fuel. unfold secp256k1_ecmult_multi.
    destruct (enter_spec heap0 sc pt n) as (c0 & -> & Hinv & _); try done; [lia|].
    ret_bind. destruct (run_no_fault n fuel c0 Hinv) as [->|[r ->]]; done.
Qed.

(** C6 (as amended): in the reduction loop, when [sc[first]] is non-zero after
    the inner reduction, the driver calls replace-root with [first]; the index
    replace-root returns, the old root [second], becomes the new [first], the
    index in hand, and the old [first] goes into the heap.  Nothing is
    discarded: the index in hand together with the heap are the same indices
    as before, with exactly one of them outside the heap. *)
Theorem replace_root_swaps_first heap0 (sc : list N) (pt : list gej) n s second :
  n ≤ SECP256K1_ECMULT_MULTI_MAX_N → length sc = n → length pt = n →
  length (tree heap0) = SECP256K1_ECMULT_MULTI_MAX_N →
  reachable heap0 sc pt n (AtDo s second) →
  let s1 := reduced s second in
  (d_sc s1 !!! d_first s < d_sc s1 !!! second)%N →
  d_sc s1 !!! d_first s ≠ 0%N →
  ∃ h', secp256k1_replace (d_sc s1) (d_heap s) (d_first s) = Ret (second, h') ∧
    step (AtDo s second)
    = Ret (AtWhile (mk_state (d_sc s1) (d_pt s1) h' second (d_r s))) ∧
    size h' = size (d_heap s) ∧
    d_first s ∈ heap_elements h' ∧ (second ∉ heap_elements h') ∧
    (second :: heap_elements h') ≡ₚ live s.
Proof.
  intros Hn Hlsc Hlpt Ht Hreach s1 Hlt Hnz.
  assert (control_inv n (AtDo s second)) as Hinv by (eapply reachable_inv; try done; lia).
  cbn [step]. rewrite (reduce_unfold n s second Hinv). fold s1.
  destruct (reduced_spec n s second Hinv) as (Hne & _ & _ & _ & _ & _ & Hinv1 & _).
  fold s1 in Hinv1.
  destruct Hinv1 as (Hlsc1 & _ & Hwf & Hheap & Hnd & Hfirst & _).
  destruct Hinv as (_ & Hsize & Hroot & _).
  apply cmp_ge_false in Hlt. rewrite Hlt.
  unfold secp256k1_scalar_is_zero. apply N.eqb_neq in Hnz. rewrite Hnz.
  destruct (replace_spec (d_sc s1) (d_heap s) (d_first s) (d_sc s1 !!! d_first s))
    as (root & h' & -> & Hroot' & Hsz & _ & _ & _ & Hperm); try done.
  { apply list_lookup_lookup_total_lt. change (d_first s1) with (d_first s) in Hfirst. lia. }
  assert (root = second) as -> by congruence.
  ret_bind. exists h'. split_and!; try done.
  - assert (d_first s ∈ second :: heap_elements h') as Hin by (rewrite Hperm; by left).
    apply elem_of_cons in Hin as [?|?]; done.
  - assert (NoDup (second :: heap_elements h')) as Hnd' by (by rewrite Hperm).
    by apply NoDup_cons in Hnd' as [? _].
Qed.

(** C9: the multi-multiplication returns the point at infinity whenever no
    term is active: for n = 0, when all scalars are zero, and when all points
    are the point at infinity. *)
Theorem ecmult_multi_identity heap0 (sc : list N) (pt : list gej) n fuel :
  n ≤ SECP256K1_ECMULT_MULTI_MAX_N → length sc = n → length pt = n →
  length (tree heap0) = SECP256K1_ECMULT_MULTI_MAX_N →
  n = 0 ∨ Forall (λ k, k = 0%N) sc ∨
    Forall (λ p, secp256k1_gej_is_infinity p = true) pt →
  secp256k1_ecmult_multi fuel heap0 sc pt n = Ret secp256k1_gej_infinity.
Proof.
  intros Hn Hlsc Hlpt Ht Hcases. unfold secp256k1_ecmult_multi.
  destruct (enter_spec heap0 sc pt n) as (c0 & -> & _ & _ & _ & Hnone); try done; [lia|].
  rewrite Hnone; [by destruct fuel|].
  apply elem_of_nil_inv. intros i Hi.
  apply active_indices_spec in Hi as (Hi & k & p & Hk & Hp & Hknz & Hpinf).
  destruct Hcases as [->|[Hzero|Hinf]].
  - lia.
  - rewrite Forall_lookup in Hzero. by apply Hknz, (Hzero i).
  - rewrite Forall_lookup in Hinf. specialize (Hinf i p Hp). cbn in Hinf. congruence.
Qed.

(** C10: throughout the driver's execution the index in hand together with
    the indices in [heap.tree[0..size)] are pairwise distinct and below n; in
    particular [first] differs from the root [second], so lines 160 and 161
    work on two distinct slots; and the scalar of an index inside the heap is
    non-zero and is left unchanged by every step. *)
Theorem driver_indices_distinct heap0 (sc : list N) (pt : list gej) n c s :
  n ≤ SECP256K1_ECMULT_MULTI_MAX_N → length sc = n → length pt = n →
  length (tree heap0) = SECP256K1_ECMULT_MULTI_MAX_N →
  reachable heap0 sc pt n c → control_state c = Some s →
  NoDup (live s) ∧ Forall (λ i, i < n) (live s) ∧
  Forall (λ i, d_sc s !!! i ≠ 0%N) (heap_elements (d_heap s)) ∧
  (∀ second, c = AtDo s second →
     tree (d_heap s) !! 0 = Some second ∧ d_first s ≠ second) ∧
  (∀ c' s', step c = Ret c' → control_state c' = Some s' →
     ∀ i, i ∈ heap_elements (d_heap s) → d_sc s' !!! i = d_sc s !!! i).
Proof.
  intros Hn Hlsc Hlpt Ht Hreach Hs.
  assert (control_inv n c) as Hinv by (eapply reachable_inv; try done; lia).
  assert (∀ c' s', step c = Ret c' → control_state c' = Some s' →
            ∀ i, i ∈ heap_elements (d_heap s) → d_sc s' !!! i = d_sc s !!! i) as Hkeep.
  { intros c' s' Hstep Hs'.
    destruct (step_spec n c Hinv) as (c'' & Hstep' & _ & _ & _ & Hsame).
    rewrite Hstep in Hstep'. simplify_eq. by apply Hsame. }
  assert (∀ s0 : @driver_state gej, state_inv n s0 →
            NoDup (live s0) ∧ Forall (λ i, i < n) (live s0) ∧
            Forall (λ i, d_sc s0 !!! i ≠ 0%N) (heap_elements (d_heap s0))) as Hstate.
  { intros s0 (Hl & _ & Hwf & _ & Hnd & Hfirst & Hnz). split_and!; try done.
    apply Forall_cons. split; [done|]. destruct Hwf as [_ Hall]. by rewrite <- Hl. }
  destruct c as [s0|s0 second|s0|r]; cbn [control_state] in Hs; try discriminate;
    injection Hs as ->.
  - destruct Hinv as (Hinv & _). destruct (Hstate s Hinv) as (? & ? & ?).
    split_and!; try done.
  - destruct (reduced_spec n s second Hinv) as (Hne & _).
    destruct Hinv as (Hinv & _ & Hroot & _). destruct (Hstate s Hinv) as (? & ? & ?).
    split_and!; try done. by intros ? [= <-].
  - destruct Hinv as (_ & _ & Hfirst & Hsize & _).
    assert (heap_elements (d_heap s) = []) as Hnil.
    { unfold heap_elements. by rewrite Hsize, take_0. }
    unfold live. rewrite Hnil. split_and!; try done.
    + apply NoDup_singleton.
    + by apply Forall_singleton.
    + intros c' s' _ _ i Hi. by apply elem_of_nil in Hi.
Qed.

(** * Further properties of the driver *)

Lemma steps_trans (c1 c2 c3 : @control gej) : steps c1 c2 → steps c2 c3 → steps c1 c3.
Proof.
  intros H12 H23. induction H23 as [|c2 c3 c4 _ IH Hstep]; [done|].
  eapply steps_step; [by apply IH|done].
Qed.

Lemma steps_first (c1 c2 c3 : @control gej) : step c1 = Ret c2 → steps c2 c3 → steps c1 c3.
Proof.
  intros Hstep. apply steps_trans. eapply steps_step; [apply steps_refl|done].
Qed.

(** ** The finishing ladder on its own *)

Lemma ladder_unfold (s : @driver_state gej) :
  d_first s < length (d_sc s) → d_first s < length (d_pt s) →
  let sf := d_sc s !!! d_first s in
  let p := d_pt s !!! d_first s in
  let next r := mk_state (<[d_first s:=(sf / 2)%N]> (d_sc s))
                         (<[d_first s:=secp256k1_gej_double_var p]> (d_pt s))
                         (d_heap s) (d_first s) r in
  step (AtLadder s) =
    if (sf mod 2 =? 1)%N then
      if (sf / 2 =? 0)%N then Ret (Returned (secp256k1_gej_add_var (d_r s) p))
      else Ret (AtLadder (next (secp256k1_gej_add_var (d_r s) p)))
    else Ret (AtLadder (next (d_r s))).
Proof.
  intros Hsc Hpt sf p next. cbn [step]. unfold ladder.
  rewrite (rd_Ret (d_sc s) (d_first s) sf) by (by apply list_lookup_lookup_total_lt).
  ret_bind. rewrite shr_int_1. rewrite wr_Ret by done. ret_bind.
  rewrite !(rd_Ret (d_pt s) (d_first s) p) by (by apply list_lookup_lookup_total_lt).
  ret_bind. rewrite !wr_Ret by done. ret_bind.
  rewrite (rd_Ret (<[d_first s:=(sf / 2)%N]> (d_sc s)) (d_first s) (sf / 2)%N)
    by (by apply list_lookup_insert_eq).
  ret_bind. done.
Qed.

Lemma pos_halves q :
  (N.pos q~1 mod 2 = 1)%N ∧ (N.pos q~1 / 2 = N.pos q)%N ∧
  (N.pos q~0 mod 2 = 0)%N ∧ (N.pos q~0 / 2 = N.pos q)%N.
Proof. rewrite <- !N.div2_div, <- !N.bit0_mod. done. Qed.

(** X8: the finishing ladder (lines 178-186), entered with a non-zero scalar
    [k] at [first], returns [r + k·pt[first]] after as many passes as [k] has
    bits. *)
Theorem ladder_adds_multiple (s : @driver_state gej) k fuel :
  gej_laws →
  d_first s < length (d_sc s) → d_first s < length (d_pt s) →
  d_sc s !!! d_first s = N.pos k → Pos.size_nat k ≤ fuel →
  run fuel (AtLadder s)
  = Ret (secp256k1_gej_add_var (d_r s) (double_and_add (N.pos k) (d_pt s !!! d_first s))).
Proof.
  intros laws. rewrite double_and_add_smul by done.
  revert s fuel. induction k as [q IH|q IH|]; intros s fuel Hsc Hpt Hk Hfuel;
    (destruct fuel as [|fuel]; [cbn in Hfuel; lia|]); cbn [run];
    rewrite ladder_unfold by done; cbn zeta; rewrite Hk.
  - destruct (pos_halves q) as (Hm1 & Hd1 & _).
    rewrite Hm1, Hd1. cbn [N.eqb Pos.eqb]. ret_bind.
    rewrite IH; cbn [d_sc d_pt d_first d_r]; rewrite ?length_insert; try done.
    + rewrite list_lookup_total_insert_eq by done.
      rewrite smul_double by done.
      change (N.pos q~1) with (N.succ (2 * N.pos q)).
      by rewrite smul_succ, gej_add_assoc.
    + by apply list_lookup_total_insert_eq.
    + cbn in Hfuel. lia.
  - destruct (pos_halves q) as (_ & _ & Hm0 & Hd0).
    rewrite Hm0, Hd0. cbn [N.eqb Pos.eqb]. ret_bind.
    rewrite IH; cbn [d_sc d_pt d_first d_r]; rewrite ?length_insert; try done.
    + rewrite list_lookup_total_insert_eq by done.
      by rewrite smul_double by done.
    + by apply list_lookup_total_insert_eq.
    + cbn in Hfuel. lia.
  - change ((1 mod 2 =? 1)%N) with true. change ((1 / 2 =? 0)%N) with true.
    ret_bind. rewrite smul_1 by done. by destruct fuel.
Qed.

(** X9: entered with a zero scalar the ladder never returns: every pass
    shifts out a zero bit and doubles the point.  This is the case the
    [VERIFY_CHECK] of line 172 excludes. *)
Theorem ladder_zero_diverges (s : @driver_state gej) fuel :
  d_first s < length (d_sc s) → d_first s < length (d_pt s) →
  d_sc s !!! d_first s = 0%N →
  run fuel (AtLadder s) = Timeout.
Proof.
  revert s. induction fuel as [|fuel IH]; intros s Hsc Hpt Hk; [done|].
  cbn [run]. rewrite ladder_unfold by done. cbn zeta. rewrite Hk.
  cbn [N.modulo N.div N.div_eucl N.eqb fst snd]. ret_bind.
  apply IH; cbn [d_sc d_pt d_first]; rewrite ?length_insert; try done.
  by apply list_lookup_total_insert_eq.
Qed.

(** ** What a run never does *)

(** X7: for n <= MAX_N no run faults, whatever its fuel: no array is read or
    written outside its bounds, the subtraction never underflows and the
    [VERIFY_CHECK]s of lines 108, 124, 131 and 172 hold; from every control
    point an execution reaches, the next step exists. *)
Theorem ecmult_multi_no_fault heap0 (sc : list N) (pt : list gej) n :
  n ≤ SECP256K1_ECMULT_MULTI_MAX_N → length sc = n → length pt = n →
  length (tree heap0) = SECP256K1_ECMULT_MULTI_MAX_N →
  (∀ fuel, secp256k1_ecmult_multi fuel heap0 sc pt n = Timeout ∨
           ∃ r, secp256k1_ecmult_multi fuel heap0 sc pt n = Ret r) ∧
  (∀ c, reachable heap0 sc pt n c → ∃ c', step c = Ret c').
Proof.
  intros Hn Hlsc Hlpt Ht. split.
  - intros fuel. unfold secp256k1_ecmult_multi.
    destruct (enter_spec heap0 sc pt n) as (c0 & -> & Hinv & _); try done; [lia|].
    ret_bind. by eapply run_no_fault.
  - intros c Hreach.
    assert (control_inv n c) as Hinv by (eapply reachable_inv; try done; lia).
    destruct (step_spec n c Hinv) as (c' & ? & _). by exists c'.
Qed.

(** ** The sum the reduction keeps *)

Lemma steps_value n (c0 c : @control gej) :
  gej_laws → control_inv n c0 → steps c0 c → value c = value c0.
Proof.
  intros laws Hinv Hsteps. induction Hsteps as [|c1 c2 c3 Hsteps IH Hstep]; [done|].
  destruct (step_spec n c2 (steps_inv n _ _ Hinv Hsteps)) as (c' & Hstep' & _ & _ & Hval & _).
  rewrite Hstep in Hstep'. injection Hstep' as <-. by rewrite Hval, IH.
Qed.

(** X10: the transformation nX + mY = (n-m)X + m(X+Y) keeps the sum: at every
    control point an execution passes through, [r] plus the sum of
    [sc[i]·pt[i]] over the index in hand and the indices in the heap (in the
    ladder: over the index in hand) is the sum the function was called on. *)
Theorem reduction_preserves_sum heap0 (sc : list N) (pt : list gej) n c :
  gej_laws →
  n ≤ SECP256K1_ECMULT_MULTI_MAX_N → length sc = n → length pt = n →
  length (tree heap0) = SECP256K1_ECMULT_MULTI_MAX_N →
  reachable heap0 sc pt n c →
  value c = naive_multi sc pt.
Proof.
  intros laws Hn Hlsc Hlpt Ht (c0 & Henter & Hsteps).
  destruct (enter_spec heap0 sc pt n) as (c0' & Henter' & Hinv & _ & Hval & _);
    try done; [lia|].
  rewrite Henter in Henter'. injection Henter' as <-.
  rewrite (steps_value n c0 c) by done. rewrite Hval by done.
  rewrite naive_multi_gsum by (done || lia). by rewrite Hlsc.
Qed.

(** ** The memory a run touches *)

Lemma enter_shape heap0 (sc : list N) (pt : list gej) n c0 s0 :
  n ≤ SECP256K1_ECMULT_MULTI_MAX_N → length sc = n → length pt = n →
  SECP256K1_ECMULT_MULTI_MAX_N ≤ length (tree heap0) →
  enter heap0 sc pt n = Ret c0 → control_state c0 = Some s0 →
  d_sc s0 = sc ∧ d_pt s0 = pt ∧ d_r s0 = secp256k1_gej_infinity ∧
  live s0 ≡ₚ active_indices sc pt n.
Proof.
  intros Hn Hlsc Hlpt Ht. unfold enter.
  destruct (heap_initialize_spec heap0 sc pt n) as (h & -> & Hlen & Hwf & Hinv & Hperm);
    [done|lia|lia|done|].
  ret_bind. destruct (decide (size h = 0)) as [Hempty|Hsize].
  { intros [= <-]. done. }
  destruct (heap_remove_spec sc h) as (first & h' & -> & _ & _ & _ & _ & _ & Hperm');
    [done|done|lia|].
  ret_bind. intros [= <-] [= <-]. cbn [d_sc d_pt d_r]. split_and!; try done.
  unfold live. cbn [d_first d_heap]. by rewrite Hperm', Hperm.
Qed.

Lemma reduce_shape n (s : @driver_state gej) second c' :
  control_inv n (AtDo s second) → reduce s second = Ret c' →
  ∃ s', control_state c' = Some s' ∧
    d_sc s' = d_sc (reduced s second) ∧ d_pt s' = d_pt (reduced s second) ∧
    d_r s' = d_r s ∧ (∀ i, i ∈ live s' → i ∈ live s) ∧
    size (d_heap s') ≤ size (d_heap s).
Proof.
  intros Hinv. rewrite (reduce_unfold n s second Hinv).
  destruct (reduced_spec n s second Hinv) as (_ & _ & _ & _ & _ & _ & Hinv1 & _).
  set (s1 := reduced s second) in *.
  destruct Hinv as (_ & Hsize & Hroot & _).
  destruct Hinv1 as (Hlsc & _ & Hwf & Hheap & _ & Hfirst & _).
  change (d_heap s1) with (d_heap s) in *. change (d_first s1) with (d_first s) in *.
  assert (second ∈ heap_elements (d_heap s)) as Hsec.
  { apply elements_lookup. exists 0. split; [lia|done]. }
  destruct (0 <=? secp256k1_scalar_cmp_var _ _)%Z.
  - intros [= <-]. exists s1. by split_and!.
  - destruct (secp256k1_scalar_is_zero _).
    + destruct (heap_remove_spec (d_sc s1) (d_heap s))
        as (root & h' & -> & Hroot' & Hsz & _ & _ & _ & Hperm); try done.
      assert (root = second) as -> by congruence.
      ret_bind. intros [= <-]. eexists. split; [done|].
      cbn [d_sc d_pt d_r d_heap]. split_and!; try done; [|lia].
      unfold live. cbn [d_first d_heap]. intros i Hi. right. by rewrite <- Hperm.
    + destruct (replace_spec (d_sc s1) (d_heap s) (d_first s) (d_sc s1 !!! d_first s))
        as (root & h' & -> & Hroot' & Hsz & _ & _ & _ & Hperm); try done.
      { apply list_lookup_lookup_total_lt. lia. }
      assert (root = second) as -> by congruence.
      ret_bind. intros [= <-]. eexists. split; [done|].
      cbn [d_sc d_pt d_r d_heap]. split_and!; try done; [|lia].
      unfold live. cbn [d_first d_heap]. intros i Hi. by rewrite <- Hperm.
Qed.

(** What one step changes: the arrays keep their lengths, no scalar grows,
    only the slots of live indices are written, and no index becomes live. *)
Lemma step_frame n (c c' : @control gej) s s' :
  control_inv n c → step c = Ret c' →
  control_state c = Some s → control_state c' = Some s' →
  length (d_sc s') = length (d_sc s) ∧ length (d_pt s') = length (d_pt s) ∧
  (∀ i, (d_sc s' !!! i ≤ d_sc s !!! i)%N) ∧
  (∀ i, i ∉ live s → d_sc s' !!! i = d_sc s !!! i ∧ d_pt s' !!! i = d_pt s !!! i) ∧
  (∀ i, i ∈ live s' → i ∈ live s) ∧
  size (d_heap s') ≤ size (d_heap s).
Proof.
  intros Hinv Hstep Hs Hs'.
  destruct c as [s0|s0 second|s0|r]; cbn [control_state] in Hs; try discriminate;
    injection Hs as ->.
  - assert (s' = s) as ->; [|by split_and!].
    cbn [step] in Hstep. destruct (decide _).
    + destruct (rd (tree (d_heap s)) 0); ret_bind in Hstep; try discriminate.
      injection Hstep as <-. by injection Hs'.
    + destruct (rd (d_sc s) (d_first s)); ret_bind in Hstep; try discriminate.
      destruct (secp256k1_scalar_is_zero _); try discriminate.
      injection Hstep as <-. by injection Hs'.
  - destruct (reduce_shape n s second c' Hinv Hstep)
      as (s1 & Hs1 & Hsc & Hpt & _ & Hlive & Hsize).
    rewrite Hs' in Hs1. injection Hs1 as <-.
    destruct (reduced_spec n s second Hinv) as (Hne & Hsecond & Hle & _).
    destruct Hinv as ((Hlsc & Hlpt & _ & _ & _ & Hfirst & _) & Hsz & Hroot & _).
    assert (second ∈ live s) as Hsec.
    { right. apply elements_lookup. exists 0. split; [lia|done]. }
    rewrite Hsc, Hpt. unfold reduced. cbn [d_sc d_pt]. rewrite !length_insert.
    split_and!; try done.
    + intros i. destruct (decide (i = d_first s)) as [->|Hi].
      * rewrite list_lookup_total_insert_eq by lia. lia.
      * by rewrite list_lookup_total_insert_ne.
    + intros i Hi. split; apply list_lookup_total_insert_ne.
      * intros <-. apply Hi. by left.
      * by intros <-.
  - destruct Hinv as (Hlsc & Hlpt & Hfirst & _).
    rewrite ladder_unfold in Hstep by lia. cbn zeta in Hstep.
    assert (∃ r, s' = mk_state
              (<[d_first s:=(d_sc s !!! d_first s / 2)%N]> (d_sc s))
              (<[d_first s:=secp256k1_gej_double_var (d_pt s !!! d_first s)]> (d_pt s))
              (d_heap s) (d_first s) r) as [r ->].
    { destruct (_ =? 1)%N; [destruct (_ =? 0)%N|]; injection Hstep as <-;
        try discriminate; injection Hs' as <-; by eexists. }
    cbn [d_sc d_pt d_heap d_first]. rewrite !length_insert. split_and!; try done.
    + intros i. destruct (decide (i = d_first s)) as [->|Hi].
      * rewrite list_lookup_total_insert_eq by lia.
        apply N.Div0.div_le_upper_bound. lia.
      * by rewrite list_lookup_total_insert_ne.
    + intros i Hi. split; apply list_lookup_total_insert_ne; intros <-; apply Hi; by left.
Qed.

Lemma steps_frame n (c0 c : @control gej) s0 :
  control_inv n c0 → control_state c0 = Some s0 → steps c0 c →
  ∀ s, control_state c = Some s →
  length (d_sc s) = length (d_sc s0) ∧ length (d_pt s) = length (d_pt s0) ∧
  (∀ i, (d_sc s !!! i ≤ d_sc s0 !!! i)%N) ∧
  (∀ i, i ∉ live s0 → d_sc s !!! i = d_sc s0 !!! i ∧ d_pt s !!! i = d_pt s0 !!! i) ∧
  (∀ i, i ∈ live s → i ∈ live s0) ∧
  size (d_heap s) ≤ size (d_heap s0).
Proof.
  intros Hinv Hs0 Hsteps. induction Hsteps as [c1|c1 c2 c3 Hsteps IH Hstep]; intros s Hs.
  - rewrite Hs0 in Hs. injection Hs as ->. by split_and!.
  - destruct (control_state c2) as [s2|] eqn:Hs2.
    2:{ destruct c2; try discriminate. cbn in Hstep. injection Hstep as <-. discriminate. }
    destruct (IH Hinv Hs0 s2 eq_refl) as (Hl1 & Hl2 & Hle & Hsame & Hlive & Hsz).
    destruct (step_frame n c2 c3 s2 s) as (Hl1' & Hl2' & Hle' & Hsame' & Hlive' & Hsz');
      try done.
    { by eapply steps_inv. }
    split_and!.
    + lia.
    + lia.
    + intros i. etrans; [apply Hle'|apply Hle].
    + intros i Hi. destruct (Hsame i Hi) as [<- <-].
      apply Hsame'. intros Hin. by apply Hi, Hlive.
    + intros i Hi. by apply Hlive, Hlive'.
    + lia.
Qed.

Lemma steps_stateless (c0 c : @control gej) :
  control_state c0 = None → steps c0 c → control_state c = None.
Proof.
  intros Hs0 Hsteps. induction Hsteps as [c1|c1 c2 c3 Hsteps IH Hstep]; [done|].
  specialize (IH Hs0). destruct c2; try discriminate.
  cbn in Hstep. by injection Hstep as <-.
Qed.

Lemma reachable_frame heap0 (sc : list N) (pt : list gej) n c s :
  n ≤ SECP256K1_ECMULT_MULTI_MAX_N → length sc = n → length pt = n →
  length (tree heap0) = SECP256K1_ECMULT_MULTI_MAX_N →
  reachable heap0 sc pt n c → control_state c = Some s →
  length (d_sc s) = n ∧ length (d_pt s) = n ∧
  (∀ i, (d_sc s !!! i ≤ sc !!! i)%N) ∧
  (∀ i, i ∈ live s → i ∈ active_indices sc pt n) ∧
  (∀ i, i ∉ active_indices sc pt n →
     d_sc s !!! i = sc !!! i ∧ d_pt s !!! i = pt !!! i).
Proof.
  intros Hn Hlsc Hlpt Ht (c0 & Henter & Hsteps) Hs.
  destruct (enter_spec heap0 sc pt n) as (c0' & Henter' & Hinv0 & _); try done; [lia|].
  rewrite Henter in Henter'. injection Henter' as <-.
  destruct (control_state c0) as [s0|] eqn:Hs0.
  2:{ pose proof (steps_stateless c0 c Hs0 Hsteps). congruence. }
  destruct (enter_shape heap0 sc pt n c0 s0) as (Hsc & Hpt & _ & Hlive0); try done; [lia|].
  destruct (steps_frame n c0 c s0 Hinv0 Hs0 Hsteps s Hs)
    as (Hl1 & Hl2 & Hle & Hsame & Hlive & _).
  rewrite Hsc, Hpt in *. split_and!; try done; try lia.
  - intros i Hi. rewrite <- Hlive0. by apply Hlive.
  - intros i Hi. apply Hsame. by rewrite Hlive0.
Qed.

(** X12: no scalar ever grows: at every control point an execution passes
    through, the scalar array has its length n and each entry is at most the
    entry the function was called with; scalars that fit 256 bits keep
    fitting. *)
Theorem scalars_never_grow heap0 (sc : list N) (pt : list gej) n c s :
  n ≤ SECP256K1_ECMULT_MULTI_MAX_N → length sc = n → length pt = n →
  length (tree heap0) = SECP256K1_ECMULT_MULTI_MAX_N →
  reachable heap0 sc pt n c → control_state c = Some s →
  length (d_sc s) = n ∧
  (∀ i, (d_sc s !!! i ≤ sc !!! i)%N) ∧
  (Forall (λ k, (k < 2 ^ 256)%N) sc → Forall (λ k, (k < 2 ^ 256)%N) (d_sc s)).
Proof.
  intros Hn Hlsc Hlpt Ht Hreach Hs.
  destruct (reachable_frame heap0 sc pt n c s) as (Hl & _ & Hle & _); try done.
  split_and!; try done.
  rewrite !Forall_lookup. intros Hall i k Hk.
  assert (i < length sc) as Hi.
  { rewrite Hlsc, <- Hl. by eapply lookup_lt_Some. }
  specialize (Hle i). rewrite (list_lookup_total_correct _ _ _ Hk) in Hle.
  specialize (Hall i (sc !!! i) (list_lookup_lookup_total_lt _ _ Hi)). cbn in Hall.
  eapply N.le_lt_trans; done.
Qed.

(** X13: a run only works on the active terms: at every control point the
    index in hand and the indices in the heap are active indices, so the heap
    holds fewer indices than there are active terms, and the scalar and the
    point of an inactive index are the ones the function was called with. *)
Theorem inactive_slots_untouched heap0 (sc : list N) (pt : list gej) n c s :
  n ≤ SECP256K1_ECMULT_MULTI_MAX_N → length sc = n → length pt = n →
  length (tree heap0) = SECP256K1_ECMULT_MULTI_MAX_N →
  reachable heap0 sc pt n c → control_state c = Some s →
  (∀ i, i ∈ live s → i ∈ active_indices sc pt n) ∧
  size (d_heap s) < length (active_indices sc pt n) ∧
  (∀ i, i < n → is_active sc pt i = false →
     d_sc s !!! i = sc !!! i ∧ d_pt s !!! i = pt !!! i).
Proof.
  intros Hn Hlsc Hlpt Ht Hreach Hs.
  destruct (reachable_frame heap0 sc pt n c s) as (_ & _ & _ & Hlive & Hsame); try done.
  assert (control_inv n c) as Hinv by (eapply reachable_inv; try done; lia).
  split_and!; try done.
  - assert (NoDup (live s) ∧ size (d_heap s) ≤ length (tree (d_heap s))) as [Hnd Hsz].
    { destruct c as [s0|s0 second|s0|r]; cbn [control_state] in Hs; try discriminate;
        injection Hs as ->.
      - destruct Hinv as ((_ & _ & [? _] & _ & ? & _) & _). done.
      - destruct Hinv as ((_ & _ & [? _] & _ & ? & _) & _). done.
      - destruct Hinv as (_ & _ & _ & Hsize & _). split; [|lia].
        unfold live, heap_elements. rewrite Hsize, take_0. apply NoDup_singleton. }
    assert (length (live s) ≤ length (active_indices sc pt n)) as Hlen.
    { apply submseteq_length, NoDup_submseteq; [done|]. intros i Hi. by apply Hlive. }
    unfold live, heap_elements in Hlen. cbn [length] in Hlen.
    rewrite length_take in Hlen. lia.
  - intros i Hi Hact. apply Hsame. intros Hin.
    unfold active_indices in Hin. apply list_elem_of_filter in Hin as [Hin _].
    by rewrite Hact in Hin.
Qed.

(** ** The inner loop is a division *)

Lemma reduce_cases n (s : @driver_state gej) second :
  control_inv n (AtDo s second) →
  let s1 := reduced s second in
  let sf := d_sc s !!! d_first s in
  let ss := d_sc s !!! second in
  ((ss ≤ sf - ss)%N ∧ step (AtDo s second) = Ret (AtDo s1 second)) ∨
  ((sf - ss < ss)%N ∧ ∃ h',
     step (AtDo s second)
       = Ret (AtWhile (mk_state (d_sc s1) (d_pt s1) h' second (d_r s))) ∧
     size h' = if (sf - ss =? 0)%N then size (d_heap s) - 1 else size (d_heap s)).
Proof.
  intros Hinv s1 sf ss. cbn [step]. rewrite (reduce_unfold n s second Hinv).
  destruct (reduced_spec n s second Hinv) as (_ & _ & _ & _ & Hsf & Hsame & Hinv1 & _).
  fold s1 in Hsf, Hsame, Hinv1 |- *.
  destruct Hinv as (_ & Hsize & Hroot & _).
  destruct Hinv1 as (Hlsc & _ & Hwf & Hheap & _ & Hfirst & _).
  change (d_heap s1) with (d_heap s) in *. change (d_first s1) with (d_first s) in *.
  assert (second ∈ heap_elements (d_heap s)) as Hsec.
  { apply elements_lookup. exists 0. split; [lia|done]. }
  rewrite Hsf, (Hsame second Hsec). fold sf ss.
  destruct (0 <=? secp256k1_scalar_cmp_var _ _)%Z eqn:Hcmp.
  { left. by apply cmp_ge in Hcmp. }
  right. apply cmp_ge_false in Hcmp. split; [done|].
  unfold secp256k1_scalar_is_zero. destruct (sf - ss =? 0)%N.
  - destruct (heap_remove_spec (d_sc s1) (d_heap s))
      as (root & h' & -> & Hroot' & Hsz & _); try done.
    assert (root = second) as -> by congruence.
    ret_bind. by exists h'.
  - destruct (replace_spec (d_sc s1) (d_heap s) (d_first s) (d_sc s1 !!! d_first s))
      as (root & h' & -> & Hroot' & Hsz & _); try done.
    { apply list_lookup_lookup_total_lt. lia. }
    assert (root = second) as -> by congruence.
    ret_bind. by exists h'.
Qed.

Lemma div_mod_sub (a b : N) :
  (b ≠ 0 → b ≤ a → (a - b) mod b = a mod b ∧ a / b = N.succ ((a - b) / b))%N.
Proof.
  intros Hb Hle. assert (a = (a - b) + 1 * b)%N as Ha by lia.
  split.
  - rewrite Ha at 2. by rewrite N.Div0.mod_add.
  - rewrite Ha at 1. rewrite N.div_add by done. lia.
Qed.

Lemma inner_loop n k :
  ∀ (s : @driver_state gej) second,
  control_inv n (AtDo s second) → N.to_nat (d_sc s !!! d_first s) ≤ k →
  let sf := d_sc s !!! d_first s in
  let ss := d_sc s !!! second in
  ∃ h', steps (AtDo s second) (AtWhile (mk_state
      (<[d_first s:=(sf mod ss)%N]> (d_sc s))
      (<[second:=N.iter (sf / ss) (secp256k1_gej_add_var (d_pt s !!! d_first s))
                   (d_pt s !!! second)]> (d_pt s))
      h' second (d_r s))) ∧
    size h' = if (sf mod ss =? 0)%N then size (d_heap s) - 1 else size (d_heap s).
Proof.
  induction k as [|k IH]; intros s second Hinv Hk sf ss;
    destruct (reduced_spec n s second Hinv) as (Hne & Hsecond & Hle & Hnz & _);
    fold sf ss in Hle, Hnz, Hk; [lia|].
  pose proof Hinv as ((Hlsc & Hlpt & _ & _ & _ & Hfirst & _) & _).
  destruct (div_mod_sub sf ss Hnz Hle) as [Hmod Hdiv].
  destruct (reduce_cases n s second Hinv) as [[Hge Hstep]|(Hlt & h' & Hstep & Hsz)];
    fold sf ss in Hge || fold sf ss in Hlt, Hsz.
  - assert (control_inv n (AtDo (reduced s second) second)) as Hinv1.
    { destruct (step_spec n _ Hinv) as (c' & Hstep' & Hok & _). congruence. }
    destruct (IH (reduced s second) second Hinv1) as (h' & Hsteps & Hsz).
    { unfold reduced. cbn [d_sc d_first].
      rewrite list_lookup_total_insert_eq by lia. fold sf ss. lia. }
    exists h'. revert Hsteps Hsz. unfold reduced. cbn [d_sc d_pt d_first d_heap d_r].
    rewrite list_lookup_total_insert_eq by lia.
    rewrite (list_lookup_total_insert_ne (d_sc s)) by done.
    rewrite (list_lookup_total_insert_ne (d_pt s)) by done.
    rewrite (list_lookup_total_insert_eq (d_pt s)) by lia.
    rewrite !list_insert_insert_eq. fold sf ss. rewrite Hmod, Hdiv, N.iter_succ_r.
    intros Hsteps Hsz. split; [|done]. by eapply steps_first.
  - assert (sf mod ss = sf - ss ∧ sf / ss = 1)%N as [Hm Hd].
    { rewrite <- Hmod, Hdiv. rewrite N.mod_small, N.div_small by done. done. }
    exists h'. rewrite Hm, Hd. split; [|done].
    eapply steps_first; [done|]. apply steps_refl.
Qed.

(** X11: the do-while of lines 160-163 divides: from its entry with the index
    in hand [first] of scalar a and the root [second] of scalar b (b ≠ 0 and
    b ≤ a there), the execution comes back to the head of the outer loop with
    [sc[first] = a mod b], with [pt[second]] having received [pt[first]]
    a / b times, with [second] as the index in hand, [r] untouched, and with a
    heap one smaller exactly when b divides a; the scalar re-inserted or
    dropped is strictly below the scalar now in hand. *)
Theorem inner_loop_divides n (s : @driver_state gej) second :
  control_inv n (AtDo s second) →
  let a := d_sc s !!! d_first s in
  let b := d_sc s !!! second in
  ∃ s', steps (AtDo s second) (AtWhile s') ∧
    d_sc s' = <[d_first s:=(a mod b)%N]> (d_sc s) ∧
    d_pt s' = <[second:=N.iter (a / b) (secp256k1_gej_add_var (d_pt s !!! d_first s))
                          (d_pt s !!! second)]> (d_pt s) ∧
    d_first s' = second ∧ d_r s' = d_r s ∧
    size (d_heap s') = (if (a mod b =? 0)%N then size (d_heap s) - 1 else size (d_heap s)) ∧
    (d_sc s' !!! d_first s < d_sc s' !!! d_first s')%N.
Proof.
  intros Hinv a b.
  destruct (inner_loop n _ s second Hinv (Nat.le_refl _)) as (h' & Hsteps & Hsz).
  destruct (reduced_spec n s second Hinv) as (Hne & Hsecond & Hle & Hnz & _).
  destruct Hinv as ((Hlsc & Hlpt & _ & _ & _ & Hfirst & _) & _).
  eexists. split; [exact Hsteps|]. cbn [d_sc d_pt d_first d_r d_heap].
  split_and!; try done.
  rewrite list_lookup_total_insert_eq by lia.
  rewrite list_lookup_total_insert_ne by done.
  by apply N.mod_lt.
Qed.

End DriverProperties.

(** * Further properties of the heap *)

Lemma root_maximal (sc : list N) h root a :
  heap_wf sc h → heap_invariant sc h → tree h !! 0 = Some root →
  a ∈ heap_elements h → (sc !!! a ≤ sc !!! root)%N.
Proof.
  intros Hwf Hinv Hroot Ha.
  assert (a < length sc) by (by eapply elements_bound).
  apply elements_lookup in Ha as (i & Hi & Hia).
  assert (root < length sc).
  { eapply elements_bound; [done|]. apply elements_lookup. exists 0. split; [lia|done]. }
  rewrite <- (key_total sc (tree h) i a), <- (key_total sc (tree h) 0 root) by done.
  by apply heap_root_max.
Qed.

Lemma sift_floyd_loop_perm (sc : list N) sz :
  ∀ fuel (t : list nat) node,
    sz ≤ length t → Forall (λ a, a < length sc) (take sz t) →
    node < sz → sz / 2 - node ≤ fuel →
    ∃ t1 leaf, sift_floyd_loop fuel sc sz t node = Ret (t1, leaf) ∧
      leaf < sz ∧ length t1 = length t ∧ Forall (λ a, a < length sc) (take sz t1) ∧
      (∀ a, take sz (<[leaf:=a]> t1) ≡ₚ take sz (<[node:=a]> t)) ∧
      drop sz t1 = drop sz t.
Proof.
  induction fuel as [|fuel IH]; intros t node Hlen Hall Hnode Hfuel; cbn [sift_floyd_loop].
  - rewrite decide_False by lia. by exists t, node.
  - destruct (decide (node < sz / 2)) as [Hin|Hleaf]; [|by exists t, node].
    destruct (larger_child_spec sc sz t node) as
      (ch & ci & -> & Hci & Hcilt & Hch & Hpar & Hlt & Hbig & _); [done..|].
    ret_bind. rewrite wr_Ret by lia. ret_bind.
    destruct (IH (<[node:=ci]> t) ch) as (t1 & leaf & -> & ? & Hlen1 & ? & Hperm & Hdrop).
    + by rewrite length_insert.
    + by apply wf_insert.
    + done.
    + lia.
    + exists t1, leaf. split_and!; try done.
      * by rewrite Hlen1, length_insert.
      * intros a. rewrite Hperm. rewrite !take_insert_lt by lia.
        assert (take sz t !! ch = Some ci) as Hci'.
        { rewrite lookup_take_Some. done. }
        assert (<[node:=ci]> (take sz t) = <[node:=ci]> (<[node:=a]> (take sz t)))
          as -> by (by rewrite list_insert_insert_eq).
        apply Permutation_insert_swap.
        -- rewrite list_lookup_insert_eq; [done|]. rewrite length_take. lia.
        -- rewrite list_lookup_insert_ne by lia. done.
      * rewrite Hdrop. by rewrite drop_insert_lt.
Qed.

(** X1: heap build (lines 105-120) collects exactly the active terms: for
    n <= MAX_N the heap it returns holds, each once, the indices i < n with a
    non-zero scalar and a point that is not at infinity, and no other; its
    size is their number, at most n, and the array keeps its length. *)
Theorem heap_initialize_collects_active `{Gej gej} (h0 : secp256k1_scalar_heap)
    (scalars : list N) (pt : list gej) n :
  n ≤ SECP256K1_ECMULT_MULTI_MAX_N → n ≤ length scalars → n ≤ length pt →
  SECP256K1_ECMULT_MULTI_MAX_N ≤ length (tree h0) →
  ∃ h, secp256k1_heap_initialize h0 scalars pt n = Ret h ∧
    length (tree h) = length (tree h0) ∧
    heap_elements h ≡ₚ active_indices scalars pt n ∧
    NoDup (heap_elements h) ∧
    size h = length (active_indices scalars pt n) ∧ size h ≤ n ∧
    (∀ i, i ∈ heap_elements h ↔
       i < n ∧ ∃ s p, scalars !! i = Some s ∧ pt !! i = Some p ∧
                      s ≠ 0%N ∧ secp256k1_gej_is_infinity p = false).
Proof.
  intros Hn Hlsc Hlpt Ht.
  destruct (heap_initialize_spec h0 scalars pt n) as (h & Hrun & Hlen & Hwf & _ & Hperm);
    try done.
  exists h. split_and!; try done.
  - rewrite Hperm. apply active_indices_NoDup.
  - rewrite <- Hperm. unfold heap_elements. rewrite length_take. destruct Hwf. lia.
  - assert (length (heap_elements h) ≤ n) as Hle.
    { rewrite Hperm. unfold active_indices.
      etrans; [apply length_filter|]. by rewrite length_seq. }
    unfold heap_elements in Hle. rewrite length_take in Hle. destruct Hwf. lia.
  - intros i. rewrite Hperm. apply active_indices_spec.
Qed.

(** X2: heapify (lines 98-103) orders any tree: on a heap whose size fits the
    array and whose stored indices address the scalar array, with no order
    assumed, it returns a heap of the same size that satisfies the heap
    invariant and holds the same indices, each as often as before. *)
Theorem heapify_orders_any_tree (sc : list N) h :
  heap_wf sc h →
  ∃ h', secp256k1_heapify sc h = Ret h' ∧
    size h' = size h ∧ length (tree h') = length (tree h) ∧
    heap_wf sc h' ∧ heap_invariant sc h' ∧
    heap_elements h' ≡ₚ heap_elements h ∧
    (∀ root a, tree h' !! 0 = Some root → a ∈ heap_elements h →
       (sc !!! a ≤ sc !!! root)%N).
Proof.
  intros Hwf.
  destruct (heapify_spec sc h Hwf) as (h' & Hrun & Hsz & Hlen & Hwf' & Hinv & Hperm).
  exists h'. split_and!; try done.
  intros root a Hroot Ha. eapply root_maximal; try done. by rewrite Hperm.
Qed.

(** X3: the three sift procedures (lines 15-96) only rearrange: at any
    position of any valid tree, ordered or not, and for any candidate index
    that addresses the scalar array, each returns, keeps the size and the
    array length, leaves the array beyond [size] untouched, and leaves in
    [tree[0..size)] the indices that were there with one occurrence of the
    index at the position replaced by the candidate. *)
Theorem sift_rearranges (sc : list N) h node index :
  heap_wf sc h → node < size h → index < length sc →
  let rearranged (r : outcome secp256k1_scalar_heap) :=
    ∃ h', r = Ret h' ∧ size h' = size h ∧ length (tree h') = length (tree h) ∧
      heap_wf sc h' ∧
      heap_elements h' ≡ₚ take (size h) (<[node:=index]> (tree h)) ∧
      drop (size h) (tree h') = drop (size h) (tree h) in
  rearranged (secp256k1_sift_down sc h node index) ∧
  rearranged (secp256k1_sift_up sc h node index) ∧
  rearranged (secp256k1_sift_floyd sc h node index).
Proof.
  intros [Hlen Hall] Hnode Hidx rearranged.
  destruct (lookup_lt_is_Some_2 sc index Hidx) as [x Hx].
  unfold heap_elements in Hall. split_and!.
  - unfold secp256k1_sift_down.
    destruct (sift_down_loop_spec sc (size h) 0 index x Hx (size h / 2 - node) (tree h) node)
      as (t' & -> & Hlen' & Hall' & _ & Hperm & Hdrop); try done.
    ret_bind. eexists; split_and!; try done.
    split; cbn [size tree heap_elements]; [lia|done].
  - unfold secp256k1_sift_up.
    destruct (sift_up_loop_spec sc (size h) index x Hx node (tree h) node)
      as (t' & -> & Hlen' & Hall' & _ & Hperm & Hdrop); try done.
    ret_bind. eexists; split_and!; try done.
    split; cbn [size tree heap_elements]; [lia|done].
  - unfold secp256k1_sift_floyd.
    destruct (sift_floyd_loop_perm sc (size h) (size h / 2 - node) (tree h) node)
      as (t1 & leaf & -> & Hleaf & Hlen1 & Hall1 & Hperm1 & Hdrop1); try done.
    ret_bind. unfold secp256k1_sift_up. cbn [size tree].
    destruct (sift_up_loop_spec sc (size h) index x Hx leaf t1 leaf)
      as (t' & -> & Hlen' & Hall' & _ & Hperm & Hdrop); try done; [lia|].
    ret_bind. eexists; split_and!; try done.
    + cbn [tree]. lia.
    + split; cbn [size tree heap_elements]; [lia|done].
    + unfold heap_elements. cbn [size tree]. by rewrite Hperm, Hperm1.
    + cbn [tree]. by rewrite Hdrop.
Qed.

(** X4: remove-root (lines 129-136) extracts a maximum: on a valid non-empty
    heap the index it returns has a scalar not below the scalar of any index
    of the heap, the heap it leaves holds the other indices and only them, and
    when the indices were distinct the one returned is no longer there. *)
Theorem heap_remove_extracts_maximum (sc : list N) h :
  heap_wf sc h → heap_invariant sc h → 0 < size h →
  ∃ root h', secp256k1_heap_remove sc h = Ret (root, h') ∧
    root :: heap_elements h' ≡ₚ heap_elements h ∧
    (∀ a, a ∈ heap_elements h → (sc !!! a ≤ sc !!! root)%N) ∧
    (NoDup (heap_elements h) → (root ∉ heap_elements h') ∧ NoDup (heap_elements h')).
Proof.
  intros Hwf Hinv Hsize.
  destruct (heap_remove_spec sc h Hwf Hinv Hsize)
    as (root & h' & Hrun & Hroot & _ & _ & _ & _ & Hperm).
  exists root, h'. split_and!; try done.
  - intros a Ha. by eapply root_maximal.
  - rewrite <- Hperm. by intros ?%NoDup_cons.
Qed.

(** X5: replace-root (lines 122-127) exchanges the maximum for the new index:
    on a valid non-empty heap the index it returns has a scalar not below the
    scalar of any index of the heap, and the heap it leaves holds the new
    index together with the indices that were there other than the one
    returned; its root is again a maximum of what it holds. *)
Theorem replace_exchanges_root (sc : list N) h index :
  heap_wf sc h → heap_invariant sc h → 0 < size h → index < length sc →
  ∃ root h', secp256k1_replace sc h index = Ret (root, h') ∧
    root :: heap_elements h' ≡ₚ index :: heap_elements h ∧
    index ∈ heap_elements h' ∧
    (∀ a, a ∈ heap_elements h → (sc !!! a ≤ sc !!! root)%N) ∧
    (∀ root' a, tree h' !! 0 = Some root' → a ∈ heap_elements h' →
       (sc !!! a ≤ sc !!! root')%N).
Proof.
  intros Hwf Hinv Hsize Hidx.
  destruct (lookup_lt_is_Some_2 sc index Hidx) as [x Hx].
  destruct (replace_spec sc h index x Hwf Hinv Hsize Hx)
    as (root & h' & Hrun & Hroot & Hsz & _ & Hwf' & Hinv' & Hperm).
  exists root, h'. split_and!; try done.
  - assert (index ∈ root :: heap_elements h') as Hin.
    { rewrite Hperm. by left. }
    apply elem_of_cons in Hin as [->|Hin]; [|done].
    assert (root ∈ heap_elements h) as Hr.
    { apply elements_lookup. exists 0. split; [lia|done]. }
    apply Permutation_cons_inv in Hperm. by rewrite Hperm.
  - intros a Ha. by apply (root_maximal sc h root a).
  - intros root' a Hroot' Ha. by apply (root_maximal sc h' root' a).
Qed.

(** X6: removing the root k times in a row, k at most the size, returns k
    indices in order of non-increasing scalar; together with what the heap
    still holds they are the indices it held, and none of the indices left has
    a scalar above one of those returned.  With k the size this sorts the
    heap. *)
Theorem remove_many_sorted (sc : list N) k :
  ∀ h, heap_wf sc h → heap_invariant sc h → k ≤ size h →
  ∃ l h', remove_many k sc h = Ret (l, h') ∧
    length l = k ∧ size h' = size h - k ∧
    heap_wf sc h' ∧ heap_invariant sc h' ∧
    l ++ heap_elements h' ≡ₚ heap_elements h ∧
    StronglySorted (λ a b, (sc !!! b ≤ sc !!! a)%N) l ∧
    (∀ a b, a ∈ l → b ∈ heap_elements h' → (sc !!! b ≤ sc !!! a)%N).
Proof.
  induction k as [|k IH]; intros h Hwf Hinv Hk; cbn [remove_many].
  - exists [], h. split_and!; try done; [lia|constructor|].
    intros a b Ha. by apply elem_of_nil in Ha.
  - destruct (heap_remove_spec sc h Hwf Hinv)
      as (root & h1 & -> & Hroot & Hsz & _ & Hwf1 & Hinv1 & Hperm); [lia|].
    ret_bind.
    destruct (IH h1 Hwf1 Hinv1) as (l & h' & -> & Hlen & Hsz' & Hwf' & Hinv' & Hperm' & Hsort & Hdom);
      [lia|].
    ret_bind. exists (root :: l), h'.
    assert (∀ a, a ∈ l ++ heap_elements h' → (sc !!! a ≤ sc !!! root)%N) as Hmax.
    { intros a Ha. apply (root_maximal sc h root a); try done.
      rewrite <- Hperm. right. by rewrite <- Hperm'. }
    split_and!; try done.
    + cbn. by rewrite Hlen.
    + lia.
    + cbn. by rewrite Hperm', Hperm.
    + constructor; [done|]. apply Forall_forall. intros a Ha.
      apply Hmax, elem_of_app. by left.
    + intros a b [->|Ha]%elem_of_cons Hb.
      * apply Hmax, elem_of_app. by right.
      * by apply Hdom.
Qed.

(** * The memory beyond the heap's size *)

Lemma rd_agree sz (t u : list nat) i : trees_agree sz t u → i < sz → rd t i = rd u i.
Proof.
  intros (_ & _ & Ht) Hi. unfold rd.
  by rewrite <- (lookup_take_lt t sz i), <- (lookup_take_lt u sz i), Ht by done.
Qed.

Lemma wr_agree sz (t u : list nat) i x :
  trees_agree sz t u → i < sz →
  wr t i x = Ret (<[i:=x]> t) ∧ wr u i x = Ret (<[i:=x]> u) ∧
  trees_agree sz (<[i:=x]> t) (<[i:=x]> u).
Proof.
  intros (Hl & Hsz & Ht) Hi. rewrite !wr_Ret by lia. split_and!; try done.
  split_and!; rewrite ?length_insert; try done.
  by rewrite !take_insert_lt, Ht by done.
Qed.

Lemma trees_agree_le sz sz' (t u : list nat) :
  trees_agree sz t u → sz' ≤ sz → trees_agree sz' t u.
Proof.
  intros (Hl & Hsz & Ht) Hle. split_and!; [done|lia|].
  rewrite <- (Nat.min_l sz' sz), <- !take_take by done. by rewrite Ht.
Qed.

Lemma larger_child_agree (sc : list N) sz (t u : list nat) node :
  trees_agree sz t u → node < sz / 2 →
  larger_child sc sz t node = larger_child sc sz u node.
Proof.
  intros Hag Hnode. unfold larger_child.
  rewrite (rd_agree sz t u (2 * node + 1)) by (done || lia).
  destruct (rd u (2 * node + 1)); ret_bind; try done.
  destruct (decide _); [|done].
  by rewrite (rd_agree sz t u (2 * node + 1 + 1)) by (done || lia).
Qed.

Lemma larger_child_lt (sc : list N) sz (t : list nat) node ch ci :
  node < sz / 2 → larger_child sc sz t node = Ret (ch, ci) → node < ch < sz.
Proof.
  intros Hnode. unfold larger_child.
  destruct (rd t (2 * node + 1)) as [a| |]; ret_bind; try done.
  destruct (decide _).
  - destruct (rd t (2 * node + 1 + 1)) as [b| |]; ret_bind; try done.
    destruct (rd sc b); ret_bind; try done.
    destruct (rd sc a); ret_bind; try done.
    destruct (0 <? _)%Z; intros [= <- <-]; lia.
  - intros [= <- <-]. lia.
Qed.

Lemma sift_down_loop_agree (sc : list N) sz index :
  ∀ fuel (t u : list nat) node, trees_agree sz t u → node < sz →
    outcome_rel (trees_agree sz)
      (sift_down_loop fuel sc sz t node index) (sift_down_loop fuel sc sz u node index).
Proof.
  induction fuel as [|fuel IH]; intros t u node Hag Hnode; cbn [sift_down_loop];
    destruct (wr_agree sz t u node index Hag Hnode) as (Hwt & Hwu & Hag').
  - destruct (decide _); [done|]. by rewrite Hwt, Hwu.
  - destruct (decide _) as [Hin|]; [|by rewrite Hwt, Hwu].
    rewrite (larger_child_agree sc sz t u node) by done.
    destruct (larger_child sc sz u node) as [[ch ci]| |] eqn:Hlc; ret_bind; try done.
    apply larger_child_lt in Hlc; [|done].
    destruct (rd sc index); ret_bind; try done.
    destruct (rd sc ci); ret_bind; try done.
    destruct (0 <? _)%Z; [by rewrite Hwt, Hwu|].
    destruct (wr_agree sz t u node ci Hag Hnode) as (-> & -> & Hag1). ret_bind.
    apply IH; [done|lia].
Qed.

Lemma sift_up_loop_agree (sc : list N) sz index :
  ∀ fuel (t u : list nat) node, trees_agree sz t u → node < sz →
    outcome_rel (trees_agree sz)
      (sift_up_loop fuel sc t node index) (sift_up_loop fuel sc u node index).
Proof.
  induction fuel as [|fuel IH]; intros t u node Hag Hnode; cbn [sift_up_loop];
    destruct (wr_agree sz t u node index Hag Hnode) as (Hwt & Hwu & Hag').
  - destruct (decide _); [done|]. by rewrite Hwt, Hwu.
  - destruct (decide _) as [Hin|]; [|by rewrite Hwt, Hwu].
    assert ((node - 1) / 2 < sz) as Hpar.
    { pose proof (Nat.Div0.div_le_upper_bound (node - 1) 2 (node - 1)). lia. }
    rewrite (rd_agree sz t u ((node - 1) / 2)) by done.
    destruct (rd u ((node - 1) / 2)) as [pi| |]; ret_bind; try done.
    destruct (rd sc index); ret_bind; try done.
    destruct (rd sc pi); ret_bind; try done.
    destruct (_ <=? 0)%Z; [by rewrite Hwt, Hwu|].
    destruct (wr_agree sz t u node pi Hag Hnode) as (-> & -> & Hag1). ret_bind.
    by apply IH.
Qed.

Lemma sift_floyd_loop_agree (sc : list N) sz :
  ∀ fuel (t u : list nat) node, trees_agree sz t u → node < sz →
    outcome_rel (λ r r', trees_agree sz r.1 r'.1 ∧ r.2 = r'.2 ∧ r.2 < sz)
      (sift_floyd_loop fuel sc sz t node) (sift_floyd_loop fuel sc sz u node).
Proof.
  induction fuel as [|fuel IH]; intros t u node Hag Hnode; cbn [sift_floyd_loop].
  - by destruct (decide _).
  - destruct (decide _) as [Hin|]; [|done].
    rewrite (larger_child_agree sc sz t u node) by done.
    destruct (larger_child sc sz u node) as [[ch ci]| |] eqn:Hlc; ret_bind; try done.
    apply larger_child_lt in Hlc; [|done].
    destruct (wr_agree sz t u node ci Hag Hnode) as (-> & -> & Hag1). ret_bind.
    apply IH; [done|lia].
Qed.

Lemma sift_down_agree (sc : list N) h g node index :
  heaps_agree h g → node < size h →
  outcome_rel heaps_agree
    (secp256k1_sift_down sc h node index) (secp256k1_sift_down sc g node index).
Proof.
  intros [Hsz Hag] Hnode. unfold secp256k1_sift_down. rewrite <- Hsz.
  pose proof (sift_down_loop_agree sc (size h) index (size h / 2 - node)
                (tree h) (tree g) node Hag Hnode) as Hrel.
  destruct (sift_down_loop _ _ _ (tree h) _ _), (sift_down_loop _ _ _ (tree g) _ _);
    by ret_bind.
Qed.

Lemma sift_floyd_agree (sc : list N) h g node index :
  heaps_agree h g → node < size h →
  outcome_rel heaps_agree
    (secp256k1_sift_floyd sc h node index) (secp256k1_sift_floyd sc g node index).
Proof.
  intros [Hsz Hag] Hnode. unfold secp256k1_sift_floyd. rewrite <- Hsz.
  pose proof (sift_floyd_loop_agree sc (size h) (size h / 2 - node)
                (tree h) (tree g) node Hag Hnode) as Hrel.
  destruct (sift_floyd_loop _ _ _ (tree h) _) as [[t leaf]| |],
           (sift_floyd_loop _ _ _ (tree g) _) as [[u leaf']| |]; ret_bind; try done.
  cbn in Hrel. destruct Hrel as (Hag1 & <- & Hleaf).
  unfold secp256k1_sift_up. cbn [size tree].
  pose proof (sift_up_loop_agree sc (size h) index leaf t u leaf Hag1 Hleaf) as Hrel.
  destruct (sift_up_loop _ _ t _ _), (sift_up_loop _ _ u _ _); by ret_bind.
Qed.

Lemma heapify_loop_agree (sc : list N) root :
  ∀ h g, heaps_agree h g → root ≤ size h →
  outcome_rel heaps_agree (heapify_loop sc root h) (heapify_loop sc root g).
Proof.
  induction root as [|root IH]; intros h g Hag Hroot; cbn [heapify_loop]; [done|].
  pose proof Hag as [Hsz Htree].
  rewrite (rd_agree (size h) (tree h) (tree g) root) by (done || lia).
  destruct (rd (tree g) root) as [index| |]; ret_bind; try done.
  pose proof (sift_down_agree sc h g root index Hag ltac:(lia)) as Hrel.
  assert (∀ h', secp256k1_sift_down sc h root index = Ret h' → size h' = size h) as Hsize.
  { unfold secp256k1_sift_down. intros h'.
    destruct (sift_down_loop _ _ _ _ _ _); ret_bind; try done. by intros [= <-]. }
  destruct (secp256k1_sift_down sc h root index) as [h'| |],
           (secp256k1_sift_down sc g root index) as [g'| |]; ret_bind; try done.
  apply IH; [done|]. rewrite (Hsize h' eq_refl). lia.
Qed.

Lemma heap_initialize_loop_agree `{Gej gej} (scalars : list N) (pt : list gej) k :
  ∀ i (t u : list nat) sz, trees_agree sz t u →
  outcome_rel (λ r r', r.2 = r'.2 ∧ trees_agree r.2 r.1 r'.1)
    (heap_initialize_loop k i scalars pt t sz) (heap_initialize_loop k i scalars pt u sz).
Proof.
  induction k as [|k IH]; intros i t u sz Hag; cbn [heap_initialize_loop]; [done|].
  destruct (rd scalars i); ret_bind; try done.
  destruct (secp256k1_scalar_is_zero _); [by apply IH|].
  destruct (rd pt i); ret_bind; try done.
  destruct (secp256k1_gej_is_infinity _); [by apply IH|].
  destruct Hag as (Hl & Hsz & Ht). unfold wr. rewrite <- Hl.
  destruct (decide (sz < length t)) as [Hlt|]; ret_bind; [|done].
  apply IH. split_and!; rewrite ?length_insert; [done|lia|].
  rewrite !(take_S_r _ _ (i mod 256)), !take_insert_ge, Ht; try done.
  - apply list_lookup_insert_eq. lia.
  - by apply list_lookup_insert_eq.
Qed.

Lemma heap_initialize_agree `{Gej gej} h0 g0 (scalars : list N) (pt : list gej) n :
  length (tree h0) = length (tree g0) →
  outcome_rel heaps_agree
    (secp256k1_heap_initialize h0 scalars pt n) (secp256k1_heap_initialize g0 scalars pt n).
Proof.
  intros Hl. unfold secp256k1_heap_initialize. destruct (decide _); [|done].
  assert (trees_agree 0 (tree h0) (tree g0)) as Hinit.
  { split_and!; [done|lia|by rewrite !take_0]. }
  pose proof (heap_initialize_loop_agree scalars pt n 0 (tree h0) (tree g0) 0 Hinit) as Hrel.
  destruct (heap_initialize_loop _ _ _ _ (tree h0) _) as [[t sz]| |],
           (heap_initialize_loop _ _ _ _ (tree g0) _) as [[u sz']| |];
    ret_bind; try done.
  destruct Hrel as [Hsz Hag]. cbn in Hsz, Hag. subst sz'. unfold secp256k1_heapify. cbn [size].
  apply heapify_loop_agree; [done|]. cbn [size].
  pose proof (Nat.Div0.div_le_upper_bound sz 2 sz). lia.
Qed.

Lemma replace_agree (sc : list N) h g index :
  heaps_agree h g →
  outcome_rel (λ r r', r.1 = r'.1 ∧ heaps_agree r.2 r'.2)
    (secp256k1_replace sc h index) (secp256k1_replace sc g index).
Proof.
  intros Hag. pose proof Hag as (Hsz & Hl & Hle & Ht). unfold secp256k1_replace.
  rewrite <- Hsz. destruct (decide (0 < size h)) as [Hpos|Hzero].
  - rewrite (rd_agree (size h) (tree h) (tree g) 0) by done.
    destruct (rd (tree g) 0); ret_bind; try done.
    pose proof (sift_floyd_agree sc h g 0 index Hag Hpos) as Hrel.
    destruct (secp256k1_sift_floyd sc h 0 index), (secp256k1_sift_floyd sc g 0 index);
      by ret_bind.
  - unfold rd. destruct (tree h) as [|a t], (tree g) as [|b u]; by ret_bind.
Qed.

Lemma heap_remove_agree (sc : list N) h g :
  heaps_agree h g →
  outcome_rel (λ r r', r.1 = r'.1 ∧ heaps_agree r.2 r'.2)
    (secp256k1_heap_remove sc h) (secp256k1_heap_remove sc g).
Proof.
  intros Hag. pose proof Hag as (Hsz & Hl & Hle & Ht). unfold secp256k1_heap_remove.
  rewrite <- Hsz. destruct (decide (0 < size h)) as [Hpos|Hzero].
  - rewrite (rd_agree (size h) (tree h) (tree g) 0) by done.
    destruct (rd (tree g) 0); ret_bind; try done. cbn [size tree].
    assert (heaps_agree (mk_heap (tree h) (size h - 1)) (mk_heap (tree g) (size h - 1)))
      as Hag1.
    { split; [done|]. cbn [size tree]. eapply trees_agree_le; [done|lia]. }
    destruct (decide (0 < size h - 1)) as [Hrest|]; [|done].
    rewrite (rd_agree (size h) (tree h) (tree g) (size h - 1)) by (done || lia).
    destruct (rd (tree g) (size h - 1)) as [last| |]; ret_bind; try done.
    pose proof (sift_down_agree sc _ _ 0 last Hag1 Hrest) as Hrel.
    destruct (secp256k1_sift_down sc (mk_heap (tree h) _) 0 last),
             (secp256k1_sift_down sc (mk_heap (tree g) _) 0 last); by ret_bind.
  - unfold rd. destruct (tree h) as [|a t], (tree g) as [|b u]; by ret_bind.
Qed.

Lemma sift_up_agree (sc : list N) h g node index :
  heaps_agree h g → node < size h →
  outcome_rel heaps_agree
    (secp256k1_sift_up sc h node index) (secp256k1_sift_up sc g node index).
Proof.
  intros [Hsz Hag] Hnode. unfold secp256k1_sift_up. rewrite <- Hsz.
  pose proof (sift_up_loop_agree sc (size h) index node (tree h) (tree g) node Hag Hnode)
    as Hrel.
  destruct (sift_up_loop _ _ (tree h) _ _), (sift_up_loop _ _ (tree g) _ _); by ret_bind.
Qed.

Lemma step_agree `{Gej gej} (c c' : @control gej) :
  controls_agree c c' → outcome_rel controls_agree (step c) (step c').
Proof.
  destruct c as [[sc pt h first r]|[sc pt h first r] second|[sc pt h first r]|r],
           c' as [[sc' pt' h' first' r']|[sc' pt' h' first' r'] second'
                 |[sc' pt' h' first' r']|r'];
    cbn [controls_agree]; try done.
  - intros (Hsc & Hpt & Hfirst & Hr & Hag). cbn in Hsc, Hpt, Hfirst, Hr, Hag.
    subst sc' pt' first' r'. pose proof Hag as (Hsz & Htree).
    cbn [step d_heap d_sc d_first]. rewrite <- Hsz.
    destruct (decide (0 < size h)).
    + rewrite (rd_agree (size h) (tree h) (tree h') 0) by done.
      destruct (rd (tree h') 0); by ret_bind.
    + destruct (rd sc first); ret_bind; try done.
      by destruct (secp256k1_scalar_is_zero _).
  - intros ((Hsc & Hpt & Hfirst & Hr & Hag) & <-). cbn in Hsc, Hpt, Hfirst, Hr, Hag.
    subst sc' pt' first' r'.
    cbn [step]. unfold reduce. cbn [d_heap d_sc d_pt d_first d_r].
    destruct (rd pt first) as [pf| |]; ret_bind; try done.
    destruct (rd pt second) as [ps| |]; ret_bind; try done.
    destruct (wr pt second _) as [pt1| |]; ret_bind; try done.
    destruct (rd sc first) as [sf| |]; ret_bind; try done.
    destruct (rd sc second) as [ss| |]; ret_bind; try done.
    destruct (secp256k1_scalar_numsub sf ss) as [d| |]; ret_bind; try done.
    destruct (wr sc first d) as [sc1| |]; ret_bind; try done.
    destruct (rd sc1 first) as [sf1| |]; ret_bind; try done.
    destruct (rd sc1 second) as [ss1| |]; ret_bind; try done.
    destruct (0 <=? _)%Z; [done|].
    destruct (secp256k1_scalar_is_zero sf1).
    + pose proof (heap_remove_agree sc1 h h' Hag) as Hrel.
      destruct (secp256k1_heap_remove sc1 h) as [[a g]| |],
               (secp256k1_heap_remove sc1 h') as [[a' g']| |]; ret_bind; try done.
      destruct Hrel as [Ha Hg]. cbn in Ha, Hg. by subst a'.
    + pose proof (replace_agree sc1 h h' first Hag) as Hrel.
      destruct (secp256k1_replace sc1 h first) as [[a g]| |],
               (secp256k1_replace sc1 h' first) as [[a' g']| |]; ret_bind; try done.
      destruct Hrel as [Ha Hg]. cbn in Ha, Hg. by subst a'.
  - intros (Hsc & Hpt & Hfirst & Hr & Hag). cbn in Hsc, Hpt, Hfirst, Hr, Hag.
    subst sc' pt' first' r'.
    cbn [step]. unfold ladder. cbn [d_heap d_sc d_pt d_first d_r].
    destruct (rd sc first) as [sf| |]; ret_bind; try done.
    destruct (secp256k1_scalar_shr_int sf 1) as [shifted bit].
    destruct (wr sc first shifted) as [sc1| |]; ret_bind; try done.
    destruct (rd pt first) as [p| |]; ret_bind;
      [|by destruct (bit =? 1)%N..].
    destruct (wr pt first _) as [pt1| |]; ret_bind.
    + destruct (bit =? 1)%N; [|done].
      destruct (rd sc1 first) as [sf1| |]; ret_bind; try done.
      by destruct (secp256k1_scalar_is_zero sf1).
    + destruct (bit =? 1)%N; [|done].
      destruct (rd sc1 first) as [sf1| |]; ret_bind; try done.
      by destruct (secp256k1_scalar_is_zero sf1).
    + destruct (bit =? 1)%N; [|done].
      destruct (rd sc1 first) as [sf1| |]; ret_bind; try done.
      by destruct (secp256k1_scalar_is_zero sf1).
Qed.

Lemma run_agree `{Gej gej} fuel :
  ∀ c c' : @control gej, controls_agree c c' → run fuel c = run fuel c'.
Proof.
  induction fuel as [|fuel IH]; intros c c' Hag.
  - destruct c, c'; cbn [controls_agree] in Hag; try done. cbn [run]. by subst.
  - pose proof (step_agree c c' Hag) as Hrel.
    destruct c, c'; cbn [controls_agree] in Hag; try done; cbn [run];
      try (destruct (step _) as [d| |], (step _) as [d'| |]; ret_bind;
           cbn in Hrel; try done; [by apply IH|by subst]).
    by subst.
Qed.

Lemma enter_agree `{Gej gej} h0 g0 (sc : list N) (pt : list gej) n :
  length (tree h0) = length (tree g0) →
  outcome_rel controls_agree (enter h0 sc pt n) (enter g0 sc pt n).
Proof.
  intros Hl. unfold enter.
  pose proof (heap_initialize_agree h0 g0 sc pt n Hl) as Hrel.
  destruct (secp256k1_heap_initialize h0 sc pt n) as [h| |],
           (secp256k1_heap_initialize g0 sc pt n) as [g| |]; ret_bind; try done.
  pose proof Hrel as [Hsz _]. rewrite <- Hsz.
  destruct (decide (size h = 0)); [done|].
  pose proof (heap_remove_agree sc h g Hrel) as Hrel'.
  destruct (secp256k1_heap_remove sc h) as [[a h1]| |],
           (secp256k1_heap_remove sc g) as [[a' g1]| |]; ret_bind; try done.
  destruct Hrel' as [Ha Hg]. cbn in Ha, Hg. by subst a'.
Qed.

(** X14: the heap procedures never look at [tree[size..)]:
    run on two heaps of the same size that agree on [tree[0..size)], each of
    sift-down, sift-up, sift-floyd, replace-root and remove-root ends the same
    way on both (the same fault, or a return), returns the same index, and
    leaves two heaps that again agree; heap build, run on two arrays of the
    same length with any contents, leaves two heaps that agree. *)
Theorem heap_ignores_unused_memory `{Gej gej} (sc : list N) (pt : list gej) h g :
  heaps_agree h g →
  (∀ node index, node < size h →
     outcome_rel heaps_agree
       (secp256k1_sift_down sc h node index) (secp256k1_sift_down sc g node index) ∧
     outcome_rel heaps_agree
       (secp256k1_sift_up sc h node index) (secp256k1_sift_up sc g node index) ∧
     outcome_rel heaps_agree
       (secp256k1_sift_floyd sc h node index) (secp256k1_sift_floyd sc g node index)) ∧
  (∀ index,
     outcome_rel (λ r r', r.1 = r'.1 ∧ heaps_agree r.2 r'.2)
       (secp256k1_replace sc h index) (secp256k1_replace sc g index)) ∧
  outcome_rel (λ r r', r.1 = r'.1 ∧ heaps_agree r.2 r'.2)
    (secp256k1_heap_remove sc h) (secp256k1_heap_remove sc g) ∧
  (∀ n, outcome_rel heaps_agree
     (secp256k1_heap_initialize h sc pt n) (secp256k1_heap_initialize g sc pt n)).
Proof.
  intros Hag. split_and!.
  - intros node index Hnode. split_and!.
    + by apply sift_down_agree.
    + by apply sift_up_agree.
    + by apply sift_floyd_agree.
  - intros index. by apply replace_agree.
  - by apply heap_remove_agree.
  - intros n. apply heap_initialize_agree. by destruct Hag as (_ & ? & _).
Qed.

(** X15: the result does not depend on what the local [heap] holds when the
    function is entered (line 141 declares it without initialising it): for
    any two initial heaps, whatever their [size] and the contents of their
    arrays of the same length, any scalars, points, n and fuel, the two runs
    end the same way and return the same point. *)
Theorem ecmult_multi_ignores_initial_heap `{Gej gej} fuel h0 g0
    (sc : list N) (pt : list gej) n :
  length (tree h0) = length (tree g0) →
  secp256k1_ecmult_multi fuel h0 sc pt n = secp256k1_ecmult_multi fuel g0 sc pt n.
Proof.
  intros Hl. unfold secp256k1_ecmult_multi.
  pose proof (enter_agree h0 g0 sc pt n Hl) as Hrel.
  destruct (enter h0 sc pt n) as [c| |], (enter g0 sc pt n) as [c'| |];
    ret_bind; cbn in Hrel; try done; [|by subst].
  by apply run_agree.
Qed.

(** * The theorems at concrete inputs *)

Ltac concrete_wf :=
  split; [vm_compute; lia | apply (bool_decide_unpack _); by vm_compute].

Lemma Zgej_laws : gej_laws (H:=Zgej).
Proof.
  unfold gej_laws. cbn. split_and!; intros; lia.
Qed.

Lemma ex_heap_wf : heap_wf ex_scalars ex_heap.
Proof. concrete_wf. Qed.

Lemma ex_heap_invariant : heap_invariant ex_scalars ex_heap.
Proof.
  intros node [? ?]. cbn [size ex_heap] in *.
  assert (node = 1 ∨ node = 2) as [-> | ->] by lia; by vm_compute.
Qed.

Lemma tie_heap_wf : heap_wf tie_scalars tie_heap.
Proof. concrete_wf. Qed.

Lemma ex2_reach_do : reachable (H:=Zgej) junk_heap ex2_sc ex2_pt 2 (AtDo ex2_entry 1).
Proof.
  exists (AtWhile ex2_entry). split; [by vm_compute|].
  eapply steps_step; [apply steps_refl|by vm_compute].
Qed.

(** C7: the placement test is strict.  With candidate scalar 5 against a
    larger child of scalar 5 the code moves the child up, where the
    specification's wording places the candidate at the root. *)
Lemma sift_down_tie_counterexample :
  (key tie_scalars (tree tie_heap) 1 ≤ 5)%N ∧ tie_scalars !! 2 = Some 5%N ∧
  secp256k1_sift_down tie_scalars tie_heap 0 2
    = Ret (mk_heap ([1; 2] ++ repeat 0 254) 2) ∧
  sift_down_as_specified tie_scalars tie_heap 0 2
    = Ret (mk_heap ([2; 1] ++ repeat 0 254) 2) ∧
  secp256k1_sift_down tie_scalars tie_heap 0 2
    ≠ sift_down_as_specified tie_scalars tie_heap 0 2.
Proof. split_and!; by vm_compute. Qed.

Lemma sift_down_level_witness :
  ∃ b, tree tie_heap !! 1 = Some b ∧
    ((5 ≤ key tie_scalars (tree tie_heap) 1)%N →
       secp256k1_sift_down tie_scalars tie_heap 0 2
       = secp256k1_sift_down tie_scalars
           (mk_heap (<[0:=b]> (tree tie_heap)) (size tie_heap)) 1 2).
Proof.
  destruct (sift_down_level tie_scalars tie_heap 0 2 5%N) as (b & Hb & _ & Hdescend).
  - exact tie_heap_wf.
  - reflexivity.
  - vm_compute. lia.
  - exists b. split; [exact Hb|exact Hdescend].
Defined.

(** C8 at a concrete heap. *)
Lemma root_operations_size_witness :
  (∃ root h', secp256k1_heap_remove ex_scalars ex_heap = Ret (root, h') ∧
     tree ex_heap !! 0 = Some root ∧ size h' = size ex_heap - 1) ∧
  (∃ root h', secp256k1_replace ex_scalars ex_heap 3 = Ret (root, h') ∧
     tree ex_heap !! 0 = Some root ∧ size h' = size ex_heap).
Proof.
  destruct (root_operations_size ex_scalars ex_heap) as [Hremove Hreplace].
  - exact ex_heap_wf.
  - vm_compute. lia.
  - split.
    + destruct Hremove as (root & h' & ? & ? & ? & _). by exists root, h'.
    + apply Hreplace. vm_compute. lia.
Defined.

(** C5: away from the root the two differ.  With candidate scalar 10 at node 1
    of a valid heap whose root has scalar 5, sift-down leaves the candidate at
    node 1 and sift-floyd carries it up to the root. *)
Lemma sift_floyd_counterexample :
  heap_wf ex_scalars ex_heap ∧ heap_invariant ex_scalars ex_heap ∧
  secp256k1_sift_down ex_scalars ex_heap 1 3
    = Ret (mk_heap ([0; 3; 2] ++ repeat 0 253) 3) ∧
  secp256k1_sift_floyd ex_scalars ex_heap 1 3
    = Ret (mk_heap ([3; 0; 2] ++ repeat 0 253) 3) ∧
  secp256k1_sift_floyd ex_scalars ex_heap 1 3
    ≠ secp256k1_sift_down ex_scalars ex_heap 1 3.
Proof.
  split_and!; [exact ex_heap_wf|exact ex_heap_invariant|by vm_compute..].
Qed.

Lemma sift_floyd_refines_sift_down_witness :
  ∃ h', secp256k1_sift_floyd ex_scalars ex_heap 0 3 = Ret h' ∧
        secp256k1_sift_down ex_scalars ex_heap 0 3 = Ret h'.
Proof.
  apply (sift_floyd_refines_sift_down ex_scalars ex_heap 0 3 10%N).
  - exact ex_heap_wf.
  - exact ex_heap_invariant.
  - vm_compute. lia.
  - reflexivity.
  - intros ?. lia.
Defined.

(** C2: sift-down away from the root with a candidate above the parent, and
    sift-up at a node with children and a candidate below them, both break
    the invariant of a valid heap. *)
Lemma heap_invariant_counterexample :
  heap_wf ex_scalars ex_heap ∧ heap_invariant ex_scalars ex_heap ∧
  (∃ h', secp256k1_sift_down ex_scalars ex_heap 1 3 = Ret h' ∧
         ¬ heap_invariant ex_scalars h') ∧
  (∃ h', secp256k1_sift_up ex_scalars ex_heap 0 4 = Ret h' ∧
         ¬ heap_invariant ex_scalars h').
Proof.
  split_and!; [exact ex_heap_wf|exact ex_heap_invariant|..].
  - eexists. split; [by vm_compute|]. intros Hinv.
    specialize (Hinv 1 ltac:(cbn; lia)). vm_compute in Hinv. by apply Hinv.
  - eexists. split; [by vm_compute|]. intros Hinv.
    specialize (Hinv 1 ltac:(cbn; lia)). vm_compute in Hinv. by apply Hinv.
Qed.

Lemma heap_invariant_maintained_witness :
  (∃ h, secp256k1_heap_initialize (H:=Zgej) junk_heap ex4_sc ex4_pt 4 = Ret h ∧
        heap_wf ex4_sc h ∧ heap_invariant ex4_sc h) ∧
  (∃ h', secp256k1_sift_down ex_scalars ex_heap 0 3 = Ret h' ∧
         heap_wf ex_scalars h' ∧ heap_invariant ex_scalars h') ∧
  (∃ h', secp256k1_sift_up ex_scalars ex_heap 2 3 = Ret h' ∧
         heap_wf ex_scalars h' ∧ heap_invariant ex_scalars h') ∧
  (∃ h', secp256k1_sift_floyd ex_scalars ex_heap 1 3 = Ret h' ∧
         heap_wf ex_scalars h' ∧ heap_invariant ex_scalars h') ∧
  (∃ root h', secp256k1_replace ex_scalars ex_heap 3 = Ret (root, h') ∧
         heap_wf ex_scalars h' ∧ heap_invariant ex_scalars h') ∧
  (∃ root h', secp256k1_heap_remove ex_scalars ex_heap = Ret (root, h') ∧
         heap_wf ex_scalars h' ∧ heap_invariant ex_scalars h').
Proof.
  destruct (heap_invariant_maintained (H:=Zgej))
    as (Hbuild & Hdown & Hup & Hfloyd & Hreplace & Hremove).
  split_and!.
  - apply Hbuild; vm_compute; lia.
  - apply (Hdown ex_scalars ex_heap 0 3 10%N);
      [exact ex_heap_wf|exact ex_heap_invariant|vm_compute; lia|reflexivity|intros ?; lia].
  - apply (Hup ex_scalars ex_heap 2 3 10%N);
      [exact ex_heap_wf|exact ex_heap_invariant|vm_compute; lia|reflexivity|].
    cbn [size ex_heap]. intros j ? ?. lia.
  - apply (Hfloyd ex_scalars ex_heap 1 3);
      [exact ex_heap_wf|exact ex_heap_invariant|vm_compute; lia|vm_compute; lia].
  - apply Hreplace;
      [exact ex_heap_wf|exact ex_heap_invariant|vm_compute; lia|vm_compute; lia].
  - apply Hremove; [exact ex_heap_wf|exact ex_heap_invariant|vm_compute; lia].
Defined.

(** C1 on the example of the specification: 7·A + 5·B + 3·D. *)
Lemma ecmult_multi_correct_witness :
  secp256k1_ecmult_multi (H:=Zgej) 31 junk_heap ex4_sc ex4_pt 4
  = Ret (naive_multi (H:=Zgej) ex4_sc ex4_pt).
Proof.
  apply (ecmult_multi_correct (H:=Zgej)).
  - exact Zgej_laws.
  - vm_compute. lia.
  - reflexivity.
  - reflexivity.
  - reflexivity.
  - vm_compute. lia.
Defined.

Lemma ecmult_multi_terminates_witness :
  ∃ r, secp256k1_ecmult_multi (H:=Zgej) 31 junk_heap ex4_sc ex4_pt 4 = Ret r.
Proof.
  destruct (ecmult_multi_terminates (H:=Zgej) junk_heap ex4_sc ex4_pt 4) as (Hrun & _).
  - vm_compute. lia.
  - reflexivity.
  - reflexivity.
  - reflexivity.
  - apply Hrun. vm_compute. lia.
Defined.

Lemma numsub_precondition_witness :
  (∃ a b, rd (d_sc ex2_entry) (d_first ex2_entry) = Ret a ∧
          rd (d_sc ex2_entry) 1 = Ret b ∧ (b ≤ a)%N ∧
          secp256k1_scalar_numsub a b = Ret (a - b)%N) ∧
  secp256k1_ecmult_multi (H:=Zgej) 3 junk_heap ex2_sc ex2_pt 2 ≠ Fault Underflow.
Proof.
  destruct (numsub_precondition (H:=Zgej) junk_heap ex2_sc ex2_pt 2) as (Hcall & Hrun).
  - vm_compute. lia.
  - reflexivity.
  - reflexivity.
  - reflexivity.
  - split; [|apply Hrun]. apply (Hcall ex2_entry 1). exact ex2_reach_do.
Defined.

(** C6: after the first reduction of 7·A + 5·B the index that replace-root
    returns, 1, is the index in hand: it is not discarded. *)
Lemma replace_root_counterexample :
  reachable (H:=Zgej) junk_heap ex2_sc ex2_pt 2 (AtDo ex2_entry 1) ∧
  step (H:=Zgej) (AtDo ex2_entry 1) = Ret (AtWhile ex2_after) ∧
  secp256k1_replace (d_sc (reduced (H:=Zgej) ex2_entry 1)) (d_heap ex2_entry)
    (d_first ex2_entry) = Ret (1, d_heap ex2_after) ∧
  d_first ex2_after = 1 ∧
  ¬ discarded ex2_after 1.
Proof.
  split_and!; [exact ex2_reach_do|by vm_compute..|].
  intros Hd. apply Hd. by left.
Qed.

Lemma replace_root_swaps_first_witness :
  ∃ h', secp256k1_replace (d_sc (reduced (H:=Zgej) ex2_entry 1)) (d_heap ex2_entry)
          (d_first ex2_entry) = Ret (1, h') ∧
    step (H:=Zgej) (AtDo ex2_entry 1)
    = Ret (AtWhile (mk_state (d_sc (reduced (H:=Zgej) ex2_entry 1))
                             (d_pt (reduced (H:=Zgej) ex2_entry 1)) h' 1 (d_r ex2_entry))) ∧
    size h' = size (d_heap ex2_entry) ∧
    d_first ex2_entry ∈ heap_elements h' ∧ (1 ∉ heap_elements h') ∧
    (1 :: heap_elements h') ≡ₚ live ex2_entry.
Proof.
  apply (replace_root_swaps_first (H:=Zgej) junk_heap ex2_sc ex2_pt 2 ex2_entry 1).
  - vm_compute. lia.
  - reflexivity.
  - reflexivity.
  - reflexivity.
  - exact ex2_reach_do.
  - by vm_compute.
  - by vm_compute.
Defined.

Lemma ecmult_multi_identity_witness :
  secp256k1_ecmult_multi (H:=Zgej) 0 junk_heap [0; 0]%N [1; 10]%Z 2 = Ret 0%Z.
Proof.
  apply (ecmult_multi_identity (H:=Zgej) junk_heap [0; 0]%N [1; 10]%Z 2 0).
  - vm_compute. lia.
  - reflexivity.
  - reflexivity.
  - reflexivity.
  - right. left. by repeat constructor.
Defined.

Lemma driver_indices_distinct_witness :
  NoDup (live ex2_entry) ∧ Forall (λ i, i < 2) (live ex2_entry) ∧
  d_first ex2_entry ≠ 1.
Proof.
  destruct (driver_indices_distinct (H:=Zgej) junk_heap ex2_sc ex2_pt 2
              (AtDo ex2_entry 1) ex2_entry) as (Hnd & Hlt & _ & Hdo & _).
  - vm_compute. lia.
  - reflexivity.
  - reflexivity.
  - reflexivity.
  - exact ex2_reach_do.
  - reflexivity.
  - split_and!; [exact Hnd|exact Hlt|]. by apply (Hdo 1).
Defined.

(** ** The further properties at concrete inputs *)

Lemma unordered_heap_wf : heap_wf ex_scalars unordered_heap.
Proof. concrete_wf. Qed.

Lemma ex_heaps_agree : heaps_agree ex_heap ex_heap_junk.
Proof.
  unfold heaps_agree, trees_agree.
  split_and!; [reflexivity|reflexivity|vm_compute; lia|reflexivity].
Qed.

Lemma heap_initialize_collects_active_witness :
  ∃ h, secp256k1_heap_initialize (H:=Zgej) junk_heap ex4_sc ex4_pt 4 = Ret h ∧
    heap_elements h ≡ₚ active_indices (H:=Zgej) ex4_sc ex4_pt 4 ∧ size h ≤ 4.
Proof.
  destruct (heap_initialize_collects_active (H:=Zgej) junk_heap ex4_sc ex4_pt 4)
    as (h & Hrun & _ & Hperm & _ & _ & Hsize & _).
  - vm_compute. lia.
  - vm_compute. lia.
  - vm_compute. lia.
  - vm_compute. lia.
  - by exists h.
Defined.

Lemma heapify_orders_any_tree_witness :
  ∃ h', secp256k1_heapify ex_scalars unordered_heap = Ret h' ∧
    heap_invariant ex_scalars h' ∧ heap_elements h' ≡ₚ heap_elements unordered_heap.
Proof.
  destruct (heapify_orders_any_tree ex_scalars unordered_heap)
    as (h' & Hrun & _ & _ & _ & Hinv & Hperm & _).
  - exact unordered_heap_wf.
  - by exists h'.
Defined.

Lemma sift_rearranges_witness :
  ∃ h', secp256k1_sift_floyd ex_scalars ex_heap 1 3 = Ret h' ∧
    heap_elements h' ≡ₚ take (size ex_heap) (<[1:=3]> (tree ex_heap)) ∧
    drop (size ex_heap) (tree h') = drop (size ex_heap) (tree ex_heap).
Proof.
  destruct (sift_rearranges ex_scalars ex_heap 1 3)
    as (_ & _ & (h' & Hrun & _ & _ & _ & Hperm & Hdrop)).
  - exact ex_heap_wf.
  - vm_compute. lia.
  - vm_compute. lia.
  - by exists h'.
Defined.

Lemma heap_remove_extracts_maximum_witness :
  ∃ root h', secp256k1_heap_remove ex_scalars ex_heap = Ret (root, h') ∧
    (∀ a, a ∈ heap_elements ex_heap → (ex_scalars !!! a ≤ ex_scalars !!! root)%N).
Proof.
  destruct (heap_remove_extracts_maximum ex_scalars ex_heap)
    as (root & h' & Hrun & _ & Hmax & _).
  - exact ex_heap_wf.
  - exact ex_heap_invariant.
  - vm_compute. lia.
  - by exists root, h'.
Defined.

Lemma replace_exchanges_root_witness :
  ∃ root h', secp256k1_replace ex_scalars ex_heap 4 = Ret (root, h') ∧
    root :: heap_elements h' ≡ₚ 4 :: heap_elements ex_heap.
Proof.
  destruct (replace_exchanges_root ex_scalars ex_heap 4)
    as (root & h' & Hrun & Hperm & _).
  - exact ex_heap_wf.
  - exact ex_heap_invariant.
  - vm_compute. lia.
  - vm_compute. lia.
  - by exists root, h'.
Defined.

Lemma remove_many_sorted_witness :
  ∃ l h', remove_many 3 ex_scalars ex_heap = Ret (l, h') ∧ size h' = 0 ∧
    StronglySorted (λ a b, (ex_scalars !!! b ≤ ex_scalars !!! a)%N) l.
Proof.
  destruct (remove_many_sorted ex_scalars 3 ex_heap)
    as (l & h' & Hrun & _ & Hsize & _ & _ & _ & Hsorted & _).
  - exact ex_heap_wf.
  - exact ex_heap_invariant.
  - vm_compute. lia.
  - by exists l, h'.
Defined.

Lemma ecmult_multi_no_fault_witness :
  secp256k1_ecmult_multi (H:=Zgej) 5 junk_heap ex4_sc ex4_pt 4 = Timeout ∨
  ∃ r, secp256k1_ecmult_multi (H:=Zgej) 5 junk_heap ex4_sc ex4_pt 4 = Ret r.
Proof.
  destruct (ecmult_multi_no_fault (H:=Zgej) junk_heap ex4_sc ex4_pt 4) as [Hrun _].
  - vm_compute. lia.
  - reflexivity.
  - reflexivity.
  - reflexivity.
  - apply Hrun.
Defined.

Lemma ladder_adds_multiple_witness :
  run (H:=Zgej) 3 (AtLadder ladder_entry) = Ret 130%Z.
Proof.
  apply (ladder_adds_multiple (H:=Zgej) ladder_entry 6%positive 3).
  - exact Zgej_laws.
  - vm_compute. lia.
  - vm_compute. lia.
  - reflexivity.
  - vm_compute. lia.
Defined.

Lemma ladder_zero_diverges_witness :
  run (H:=Zgej) 1000 (AtLadder ladder_entry_zero) = Timeout.
Proof.
  apply (ladder_zero_diverges (H:=Zgej) ladder_entry_zero 1000).
  - vm_compute. lia.
  - vm_compute. lia.
  - reflexivity.
Defined.

Lemma reduction_preserves_sum_witness :
  value (H:=Zgej) (AtDo ex2_entry 1) = naive_multi (H:=Zgej) ex2_sc ex2_pt.
Proof.
  apply (reduction_preserves_sum (H:=Zgej) junk_heap ex2_sc ex2_pt 2).
  - exact Zgej_laws.
  - vm_compute. lia.
  - reflexivity.
  - reflexivity.
  - reflexivity.
  - exact ex2_reach_do.
Defined.

Lemma ex2_do_inv : control_inv 2 (AtDo ex2_entry 1).
Proof.
  apply (reachable_inv (H:=Zgej) junk_heap ex2_sc ex2_pt 2);
    [vm_compute; lia|reflexivity|reflexivity|vm_compute; lia|exact ex2_reach_do].
Qed.

Lemma inner_loop_divides_witness :
  ∃ s', steps (H:=Zgej) (AtDo ex2_entry 1) (AtWhile s') ∧
    d_sc s' = [2; 5]%N ∧ d_pt s' = [1; 11]%Z ∧ d_first s' = 1.
Proof.
  destruct (inner_loop_divides (H:=Zgej) 2 ex2_entry 1)
    as (s' & Hsteps & Hsc & Hpt & Hfirst & _).
  - exact ex2_do_inv.
  - exists s'. split_and!; [exact Hsteps|exact Hsc|exact Hpt|exact Hfirst].
Defined.

Lemma scalars_never_grow_witness :
  length (d_sc ex2_entry) = 2 ∧ ∀ i, (d_sc ex2_entry !!! i ≤ ex2_sc !!! i)%N.
Proof.
  destruct (scalars_never_grow (H:=Zgej) junk_heap ex2_sc ex2_pt 2
              (AtDo ex2_entry 1) ex2_entry) as (Hlen & Hle & _).
  - vm_compute. lia.
  - reflexivity.
  - reflexivity.
  - reflexivity.
  - exact ex2_reach_do.
  - reflexivity.
  - by split.
Defined.

Lemma inactive_slots_untouched_witness :
  size (d_heap ex2_entry) < length (active_indices (H:=Zgej) ex2_sc ex2_pt 2).
Proof.
  destruct (inactive_slots_untouched (H:=Zgej) junk_heap ex2_sc ex2_pt 2
              (AtDo ex2_entry 1) ex2_entry) as (_ & Hsize & _).
  - vm_compute. lia.
  - reflexivity.
  - reflexivity.
  - reflexivity.
  - exact ex2_reach_do.
  - reflexivity.
  - exact Hsize.
Defined.

Lemma heap_ignores_unused_memory_witness :
  outcome_rel (λ r r', r.1 = r'.1 ∧ heaps_agree r.2 r'.2)
    (secp256k1_heap_remove ex_scalars ex_heap)
    (secp256k1_heap_remove ex_scalars ex_heap_junk).
Proof.
  destruct (heap_ignores_unused_memory (H:=Zgej) ex_scalars [] ex_heap ex_heap_junk)
    as (_ & _ & Hremove & _).
  - exact ex_heaps_agree.
  - exact Hremove.
Defined.

Lemma ecmult_multi_ignores_initial_heap_witness :
  secp256k1_ecmult_multi (H:=Zgej) 31 junk_heap ex4_sc ex4_pt 4
  = secp256k1_ecmult_multi (H:=Zgej) 31 other_junk_heap ex4_sc ex4_pt 4.
Proof.
  apply (ecmult_multi_ignores_initial_heap (H:=Zgej) 31 junk_heap other_junk_heap).
  reflexivity.
Defined.

(** The two examples of the specification, evaluated. *)
Example ecmult_multi_spec_example :
  secp256k1_ecmult_multi (H:=Zgej) 31 junk_heap ex4_sc ex4_pt 4 = Ret 357%Z.
Proof. by vm_compute. Qed.

Example ecmult_multi_equal_scalars :
  secp256k1_ecmult_multi (H:=Zgej) 21 junk_heap [5; 5]%N [1; 10]%Z 2 = Ret 55%Z.
Proof. by vm_compute. Qed.
